(** * bcrypt.c: the scheduler-friendly bcrypt NIF of comeonin

    A shallow embedding of [c_src/bcrypt.c] and a verification of its
    specification.  The Blowfish primitives of [erl_blf.h] and the services of
    the Erlang run-time ([erl_nif.h]: time slices, binaries, rescheduling) are
    collaborators of the file; they are taken as interfaces.

    The file has four parts: the program, the vocabulary in which its
    specification is stated, the lemmas, and the claims of the
    specification. *)

From Stdlib Require Import String Ascii ZArith List Bool Lia Sorted.
Import ListNotations.
Local Open Scope Z_scope.

Ltac conjuncts := repeat match goal with |- _ /\ _ => split end.

(** * The program *)

(** ** Machine integers

    C integers are modelled as [Z] with the wrap-around of each type written
    out where a value is stored into it. *)

Module CInt.

Definition u8 (z : Z) : Z := z mod 2 ^ 8.

Definition u32 (z : Z) : Z := z mod 2 ^ 32.

Definition ulong (z : Z) : Z := z mod 2 ^ 64.

(** Conversion to [int]: two's complement, 32 bits.  It also stands for
    the result of an [int] operation that overflows (undefined in C); the
    theorems are stated where none does. *)
Definition int (z : Z) : Z := (z + 2 ^ 31) mod 2 ^ 32 - 2 ^ 31.

(** Conversion to [long], 64 bits. *)
Definition long (z : Z) : Z := (z + 2 ^ 63) mod 2 ^ 64 - 2 ^ 63.

Definition INT_MAX : Z := 2 ^ 31 - 1.

Definition ULONG_MAX : Z := 2 ^ 64 - 1.

End CInt.
Import CInt.

(** ** SaltCodec: the nonstandard base64 of bcrypt *)

Definition chars (s : string) : list Z :=
  map (fun a => Z.of_N (N_of_ascii a)) (list_ascii_of_string s).

Definition Base64Code : list Z :=
  chars "./ABCDEFGHIJKLMNOPQRSTUVWXYZabcdefghijklmnopqrstuvwxyz0123456789".

Definition index_64 : list Z :=
  [ 255; 255; 255; 255; 255; 255; 255; 255; 255; 255;
    255; 255; 255; 255; 255; 255; 255; 255; 255; 255;
    255; 255; 255; 255; 255; 255; 255; 255; 255; 255;
    255; 255; 255; 255; 255; 255; 255; 255; 255; 255;
    255; 255; 255; 255; 255; 255; 0; 1; 54; 55;
    56; 57; 58; 59; 60; 61; 62; 63; 255; 255;
    255; 255; 255; 255; 255; 2; 3; 4; 5; 6;
    7; 8; 9; 10; 11; 12; 13; 14; 15; 16;
    17; 18; 19; 20; 21; 22; 23; 24; 25; 26; 27;
    255; 255; 255; 255; 255; 255; 28; 29; 30;
    31; 32; 33; 34; 35; 36; 37; 38; 39; 40;
    41; 42; 43; 44; 45; 46; 47; 48; 49; 50;
    51; 52; 53; 255; 255; 255; 255; 255 ].

(** [#define CHAR64(c) ( (c) > 127 ? 255 : index_64[(c)])] *)
Definition CHAR64 (c : Z) : Z :=
  if c >? 127 then 255 else nth (Z.to_nat c) index_64 255.

(** [p[i]] for a NUL-terminated string held as the list of its characters:
    the terminator is read at the end of the list. *)
Definition char_at (p : list Z) (i : nat) : Z := nth i p 0.

(** [decode_base64(buffer, len, b64data)].  The result is the bytes stored
    into [buffer] so far, in order, and the return code ([0], or [-1] on
    invalid data).  [len] counts the bytes that remain to be stored:
    the tests [bp < buffer + len] and [bp >= buffer + len] are the matches
    on it. *)
Fixpoint decode_base64 (len : nat) (p : list Z) {struct len} : list Z * Z :=
  match len with
  | O => ([], 0)
  | S len1 =>
    let c1 := CHAR64 (char_at p 0) in
    if c1 =? 255 then ([], -1) else
    let c2 := CHAR64 (char_at p 1) in
    if c2 =? 255 then ([], -1) else
    let b1 := u8 (Z.lor (Z.shiftl c1 2) (Z.shiftr (Z.land c2 48) 4)) in
    match len1 with
    | O => ([b1], 0)
    | S len2 =>
      let c3 := CHAR64 (char_at p 2) in
      if c3 =? 255 then ([b1], -1) else
      let b2 := u8 (Z.lor (Z.shiftl (Z.land c2 15) 4)
                          (Z.shiftr (Z.land c3 60) 2)) in
      match len2 with
      | O => ([b1; b2], 0)
      | S len3 =>
        let c4 := CHAR64 (char_at p 3) in
        if c4 =? 255 then ([b1; b2], -1) else
        let b3 := u8 (Z.lor (Z.shiftl (Z.land c3 3) 6) c4) in
        let (rest, rc) := decode_base64 len3 (skipn 4 p) in
        (b1 :: b2 :: b3 :: rest, rc)
      end
    end
  end.

(** [Base64Code[i]] *)
Definition Base64 (i : Z) : Z := nth (Z.to_nat i) Base64Code 0.

(** [encode_base64(b64buffer, data, len)]: the characters stored into
    [b64buffer], without the terminating NUL that follows them.  The return
    code is always [0].  The callers pass buffers of at least [len] bytes;
    a byte read past the end of [data] would be [0] here. *)
Fixpoint encode_base64 (data : list Z) (len : nat) {struct len} : list Z :=
  match len with
  | O => []
  | S len1 =>
    let c1 := nth 0 data 0 in
    let o1 := Base64 (Z.shiftr c1 2) in
    let c1 := u8 (Z.shiftl (Z.land c1 3) 4) in
    match len1 with
    | O => [o1; Base64 c1]
    | S len2 =>
      let c2 := nth 1 data 0 in
      let c1 := Z.lor c1 (Z.land (Z.shiftr c2 4) 15) in
      let o2 := Base64 c1 in
      let c1 := u8 (Z.shiftl (Z.land c2 15) 2) in
      match len2 with
      | O => [o1; o2; Base64 c1]
      | S len3 =>
        let c2 := nth 2 data 0 in
        let c1 := Z.lor c1 (Z.land (Z.shiftr c2 6) 3) in
        o1 :: o2 :: Base64 c1 :: Base64 (Z.land c2 63)
          :: encode_base64 (skipn 3 data) len3
      end
    end
  end.

(** ** The collaborators *)

(** [erl_blf.h].  A [blf_ctx] lives in an Erlang binary and is handled
    here as the bytes of that binary; buffers come with their lengths, as
    in C; a function that stores through a pointer returns what it
    stored. *)
Class Blowfish : Type := {
  (** [sizeof(blf_ctx)] *)
  sizeof_blf_ctx : nat;
  (** [Blowfish_initstate(c)]: the context stored in [*c] *)
  Blowfish_initstate : list Z;
  (** [Blowfish_expandstate(c, data, databytes, key, keybytes)] *)
  Blowfish_expandstate : list Z -> list Z -> Z -> list Z -> Z -> list Z;
  (** [Blowfish_expand0state(c, key, keybytes)] *)
  Blowfish_expand0state : list Z -> list Z -> Z -> list Z;
  (** [Blowfish_stream2word(data, databytes, current)]: the word
      returned and the new value of [*current] *)
  Blowfish_stream2word : list Z -> Z -> Z -> Z * Z;
  (** [blf_enc(c, data, blocks)]: the words left in [data]; the context
      is only read *)
  blf_enc : list Z -> list Z -> Z -> list Z
}.

Record timeval : Type := { tv_sec : Z; tv_usec : Z }.

(** The machine and the Erlang scheduler, as the answers they give to the
    successive calls: the [n]-th reading of the clock, whether the [n]-th
    report of a percentage exhausts the time slice, whether the [n]-th
    allocation succeeds. *)
Class Host : Type := {
  clock_reading : nat -> timeval;
  timeslice_exhausted : nat -> Z -> bool;
  alloc_succeeds : nat -> nat -> bool
}.

(** ** Terms, results and effects *)

(** The [ERL_NIF_TERM]s that the functions inspect. *)
Inductive term : Type :=
| Binary (data : list Z)
| String (s : list Z)
| ULong (n : Z)
| Atom.

Inductive nif : Type := NIF_bcrypt_expandstate | NIF_bcrypt_fini.

(** What a NIF returns: [enif_make_badarg], [enif_schedule_nif] or a
    term. *)
Inductive nif_result : Type :=
| badarg
| scheduled (f : nif) (argv : list term)
| value (t : term).

(** The binaries that are allocated and released. *)
Inductive buffer : Type := buf_csalt | buf_state.

(** What a run leaves behind: [released b contents] for
    [enif_release_binary(&b)], with the bytes that [b] holds then;
    [scheduled_nif f] for [enif_schedule_nif]; [index k] for a value taken
    by [k] in [bcrypt_expandstate], which is recorded for the statement of
    the invariants and read by no code. *)
Inductive event : Type :=
| released (b : buffer) (contents : list Z)
| scheduled_nif (f : nif)
| index (k : Z).

Record world : Type := {
  clock_reads : nat;
  slice_reports : nat;
  allocations : nat;
  log : list event
}.

Definition boot : world :=
  {| clock_reads := 0; slice_reports := 0; allocations := 0; log := [] |}.

(** State passing, with [None] for a loop that ran out of fuel. *)
Definition M (A : Type) : Type := world -> option (A * world).

Definition ret {A : Type} (a : A) : M A := fun w => Some (a, w).

Definition bind {A B : Type} (m : M A) (f : A -> M B) : M B :=
  fun w => match m w with
           | Some (a, w') => f a w'
           | None => None
           end.

Definition out_of_fuel {A : Type} : M A := fun _ => None.

Declare Scope nif_scope.
Delimit Scope nif_scope with nif.
Notation "x <- m ;; k" := (bind m (fun x => k))
  (at level 61, m at next level, right associativity) : nif_scope.
Notation "m ;; k" := (bind m (fun _ => k))
  (at level 61, right associativity) : nif_scope.
Local Open Scope nif_scope.

Definition record (e : event) : M unit :=
  fun w => Some (tt, {| clock_reads := clock_reads w;
                        slice_reports := slice_reports w;
                        allocations := allocations w;
                        log := log w ++ [e] |}).

Section Runtime.

Context {host : Host}.

Definition gettimeofday : M timeval :=
  fun w => Some (clock_reading (clock_reads w),
                 {| clock_reads := S (clock_reads w);
                    slice_reports := slice_reports w;
                    allocations := allocations w;
                    log := log w |}).

Definition enif_consume_timeslice (percent : Z) : M bool :=
  fun w => Some (timeslice_exhausted (slice_reports w) percent,
                 {| clock_reads := clock_reads w;
                    slice_reports := S (slice_reports w);
                    allocations := allocations w;
                    log := log w |}).

(** [enif_alloc_binary(size, &bin)].  Fresh storage is taken zero-filled:
    it holds no secret. *)
Definition enif_alloc_binary (size : nat) : M (option (list Z)) :=
  fun w => Some (if alloc_succeeds (allocations w) size
                 then Some (repeat 0 size) else None,
                 {| clock_reads := clock_reads w;
                    slice_reports := slice_reports w;
                    allocations := S (allocations w);
                    log := log w |}).

End Runtime.

Definition enif_release_binary (b : buffer) (contents : list Z) : M unit :=
  record (released b contents).

Definition enif_schedule_nif (f : nif) (argv : list term) : M nif_result :=
  record (scheduled_nif f) ;; ret (scheduled f argv).

Definition enif_make_badarg : M nif_result := ret badarg.

Definition latin1 (c : Z) : bool := (0 <=? c) && (c <=? 255).

(** [enif_get_string(env, t, buf, size, ERL_NIF_LATIN1)]: the return value
    and the bytes written to [buf] (the characters and a NUL).  It returns
    [0] if [t] is not a Latin-1 string, and [-size] if the string was
    truncated to fit. *)
Definition enif_get_string (t : term) (size : nat) : Z * list Z :=
  match t with
  | String s =>
    if forallb latin1 s then
      if (List.length s <? size)%nat
      then (Z.of_nat (List.length s) + 1, s ++ [0])
      else (- Z.of_nat size, firstn (size - 1) s ++ [0])
    else (0, [])
  | _ => (0, [])
  end.

Definition enif_inspect_binary (t : term) : option (list Z) :=
  match t with
  | Binary data => Some data
  | _ => None
  end.

Definition enif_get_ulong (t : term) : option Z :=
  match t with
  | ULong n => if (0 <=? n) && (n <=? ULONG_MAX) then Some n else None
  | _ => None
  end.

(** [argv[i]] *)
Definition arg (argv : list term) (i : nat) : term := nth i argv Atom.

(** ** Strings of C *)

Definition ch (a : ascii) : Z := Z.of_N (N_of_ascii a).

Fixpoint strlen (s : list Z) : Z :=
  match s with
  | [] => 0
  | c :: s' => if c =? 0 then 0 else 1 + strlen s'
  end.

Definition isdigit (c : Z) : bool := (ch "0" <=? c) && (c <=? ch "9").

(** [atoi] on a string that starts with a digit: the decimal digits up to
    the first other character. *)
Fixpoint atoi_from (acc : Z) (s : list Z) : Z :=
  match s with
  | [] => acc
  | c :: s' => if isdigit c then atoi_from (10 * acc + (c - ch "0")) s' else acc
  end.

Definition atoi (s : list Z) : Z := atoi_from 0 s.

(** The characters [%2.2u] prints: at least two digits. *)
Definition two_digits (n : Z) : list Z :=
  if n <? 100 then [ch "0" + n / 10; ch "0" + n mod 10]
  else [ch "0" + n / 100; ch "0" + n / 10 mod 10; ch "0" + n mod 10].

(** [secure_bzero(buf, len)] *)
Definition secure_bzero (buf : list Z) (len : nat) : list Z :=
  match len with
  | O => buf
  | _ => repeat 0 (Nat.min len (List.length buf)) ++ skipn len buf
  end.

(** ** Adaptive timing *)

(** [timersub(a, b, &result)] of [<sys/time.h>] *)
Definition timersub (a b : timeval) : timeval :=
  let sec := long (tv_sec a - tv_sec b) in
  let usec := long (tv_usec a - tv_usec b) in
  if usec <? 0
  then {| tv_sec := long (sec - 1); tv_usec := long (usec + 1000000) |}
  else {| tv_sec := sec; tv_usec := usec |}.

(** [calc_percent(&total, &start, &stop)]: the value returned and the new
    value of [*total]. *)
Definition calc_percent (total : Z) (start stop : timeval) : Z * Z :=
  let diff := timersub stop start in
  let pct := int (Z.quot (long (long (tv_sec diff * 1000000) + tv_usec diff)) 10) in
  let total := int (total + pct) in
  (if pct >? 100 then 100 else if pct =? 0 then 1 else pct, total).

(** [adjust_max_per_slice(max_per_slice, total, k, start_index)].  The
    parameter [max_per_slice] is an [int] that is assigned before it is
    read; the result is converted to [unsigned long]. *)
Definition adjust_max_per_slice (max_per_slice total k start_index : Z) : Z :=
  let m := Z.quot total 100 in
  let max_per_slice := int (ulong (k - start_index)) in
  if m =? 0 then ulong max_per_slice
  else if m =? 1 then
    ulong (int (max_per_slice
                - int (Z.quot (int (max_per_slice * (total - 100))) 100)))
  else ulong (int (Z.quot max_per_slice m)).

(** ** The three NIFs *)

Definition BCRYPT_VERSION : Z := ch "2".

Definition BCRYPT_MAXSALT : nat := 16.

Definition BCRYPT_WORDS : nat := 6.

Definition BCRYPT_MINLOGROUNDS : Z := 4.

Section Engine.

Context {blowfish : Blowfish} {host : Host}.

(** [bcrypt]: the initialization routine. *)
Definition bcrypt (argv : list term) : M nif_result :=
  if negb (List.length argv =? 2)%nat then enif_make_badarg else
  let (got_key, key) := enif_get_string (arg argv 0) 1024 in
  if got_key =? 0 then enif_make_badarg else
  let (got_salt, saltbuf) := enif_get_string (arg argv 1) 1024 in
  if got_salt =? 0 then enif_make_badarg else
  let salt := saltbuf in
  if negb (char_at salt 0 =? ch "$") then enif_make_badarg else
  let salt := skipn 1 salt in
  if negb (char_at salt 0 =? BCRYPT_VERSION) then enif_make_badarg else
  let minor := u8 (char_at salt 1) in
  match (if minor =? ch "a" then Some (u8 (strlen key + 1))
         else if minor =? ch "b" then
           let key_len := strlen key in
           let key_len := if key_len >? 72 then 72 else key_len in
           Some (key_len + 1)
         else None) with
  | None => enif_make_badarg
  | Some key_len =>
    if negb (char_at salt 2 =? ch "$") then enif_make_badarg else
    let salt := skipn 3 salt in
    if negb (isdigit (char_at salt 0)) || negb (isdigit (char_at salt 1))
       || negb (char_at salt 2 =? ch "$")
    then enif_make_badarg else
    let logr := u8 (atoi salt) in
    if (logr <? BCRYPT_MINLOGROUNDS) || (logr >? 31) then enif_make_badarg else
    let rounds := u32 (Z.shiftl 1 logr) in
    let salt := skipn 3 salt in
    if strlen salt * 3 / 4 <? Z.of_nat BCRYPT_MAXSALT then enif_make_badarg else
    allocated <- enif_alloc_binary BCRYPT_MAXSALT ;;
    match allocated with
    | None => enif_make_badarg
    | Some csalt =>
      let (decoded, rc) := decode_base64 (List.length csalt) salt in
      let csalt := decoded ++ skipn (List.length decoded) csalt in
      if negb (rc =? 0)
      then enif_release_binary buf_csalt csalt ;; enif_make_badarg
      else
        allocated <- enif_alloc_binary sizeof_blf_ctx ;;
        match allocated with
        | None => enif_release_binary buf_csalt csalt ;; enif_make_badarg
        | Some _ =>
          let state := Blowfish_initstate in
          let state :=
            Blowfish_expandstate state csalt (Z.of_nat (List.length csalt))
                                 key key_len in
          enif_schedule_nif NIF_bcrypt_expandstate
            [ Binary state; Binary csalt; arg argv 0; ULong key_len;
              ULong rounds; ULong minor; ULong logr;
              ULong 25 (* max_per_slice *); ULong 0 (* start_index *) ]
        end
    end
  end.

(** The rounds of one slice: [do { ... } while (++k < end);] *)
Fixpoint expand_slice (fuel : nat) (key : list Z) (key_len : Z)
    (csalt state : list Z) (k end_ : Z) {struct fuel} : M (list Z * Z) :=
  match fuel with
  | O => out_of_fuel
  | S fuel =>
    let state := Blowfish_expand0state state key key_len in
    let state :=
      Blowfish_expand0state state csalt (Z.of_nat (List.length csalt)) in
    let k := u32 (k + 1) in
    record (index k) ;;
    if k <? end_
    then expand_slice fuel key key_len csalt state k end_
    else ret (state, k)
  end.

(** The loop [while (1) { ... }] of [bcrypt_expandstate]. *)
Fixpoint expand_slices (fuel slice_fuel : nat) (argv : list term)
    (key : list Z) (key_len : Z) (csalt : list Z) (rounds : Z)
    (max_per_slice start_index : Z)
    (state : list Z) (k end_ total : Z) {struct fuel} : M nif_result :=
  match fuel with
  | O => out_of_fuel
  | S fuel =>
    start <- gettimeofday ;;
    slice <- expand_slice slice_fuel key key_len csalt state k end_ ;;
    let (state, k) := slice : list Z * Z in
    if k =? rounds then
      (* Schedule finalization routine *)
      enif_schedule_nif NIF_bcrypt_fini
        [ Binary state; Binary csalt; arg argv 5; arg argv 6 ]
    else
      stop <- gettimeofday ;;
      let (pct, total) := calc_percent total start stop in
      exhausted <- enif_consume_timeslice pct ;;
      if exhausted : bool then
        (* Schedule the next run *)
        let max_per_slice :=
          adjust_max_per_slice (int max_per_slice) total k start_index in
        enif_schedule_nif NIF_bcrypt_expandstate
          [ Binary state; Binary csalt; arg argv 2; arg argv 3; arg argv 4;
            arg argv 5; arg argv 6; ULong max_per_slice; ULong k ]
      else
        let end_ := ulong (end_ + max_per_slice) in
        let end_ := if end_ >? rounds then rounds else end_ in
        expand_slices fuel slice_fuel argv key key_len csalt rounds
                      max_per_slice start_index state k end_ total
  end.

(** [bcrypt_expandstate]: a time slice of the key expansion.  [fuel]
    bounds the iterations of each loop. *)
Definition bcrypt_expandstate (fuel : nat) (argv : list term) : M nif_result :=
  if negb (List.length argv =? 9)%nat then enif_make_badarg else
  match enif_inspect_binary (arg argv 0) with
  | None => enif_make_badarg
  | Some state =>
    match enif_inspect_binary (arg argv 1) with
    | None => enif_release_binary buf_state state ;; enif_make_badarg
    | Some csalt =>
      let (got_key, key) := enif_get_string (arg argv 2) 1024 in
      match (if got_key =? 0 then None else Some tt),
            enif_get_ulong (arg argv 3), enif_get_ulong (arg argv 4),
            enif_get_ulong (arg argv 5), enif_get_ulong (arg argv 6),
            enif_get_ulong (arg argv 7), enif_get_ulong (arg argv 8) with
      | Some _, Some key_len_arg, Some rounds_arg, Some minor_arg,
        Some logr_arg, Some max_per_slice, Some start_index =>
        let key_len := key_len_arg in
        let rounds := u32 rounds_arg in
        (* Initialize the number of rounds this slice will try to execute *)
        let end_ := ulong (start_index + max_per_slice) in
        let end_ := if end_ >? rounds then rounds else end_ in
        let k := u32 start_index in
        record (index k) ;;
        expand_slices fuel fuel argv key key_len csalt rounds
                      max_per_slice start_index state k end_ 0
      | _, _, _, _, _, _, _ =>
        enif_release_binary buf_state state ;;
        enif_release_binary buf_csalt csalt ;;
        enif_make_badarg
      end
    end
  end.

(** [for (i = 0; i < n; i++) cdata[i] = Blowfish_stream2word(ciphertext,
    4 * BCRYPT_WORDS, &j);] *)
Fixpoint stream2words (n : nat) (ciphertext : list Z) (j : Z) : list Z :=
  match n with
  | O => []
  | S n =>
    let (word, j) :=
      Blowfish_stream2word ciphertext (Z.of_nat (4 * BCRYPT_WORDS)) j in
    word :: stream2words n ciphertext j
  end.

(** The four bytes written to [ciphertext] for [cdata[i]], most significant
    first. *)
Definition word_bytes (w : Z) : list Z :=
  let b3 := Z.land w 255 in
  let w := Z.shiftr w 8 in
  let b2 := Z.land w 255 in
  let w := Z.shiftr w 8 in
  let b1 := Z.land w 255 in
  let w := Z.shiftr w 8 in
  let b0 := Z.land w 255 in
  [b0; b1; b2; b3].

(** The encrypted magic string: [cdata] after the 64 encryptions, and the
    bytes of [ciphertext]. *)
Definition encrypt_magic (state : list Z) : list Z * list Z :=
  let ciphertext := chars "OrpheanBeholderScryDoubt" in
  let cdata := stream2words BCRYPT_WORDS ciphertext 0 in
  let cdata :=
    Nat.iter 64 (fun cdata => blf_enc state cdata (Z.of_nat (BCRYPT_WORDS / 2)))
             cdata in
  (cdata, flat_map word_bytes cdata).

(** The contents of [encrypted]: [snprintf(encrypted, 8, "$2%c$%2.2u$",
    minor, logr)] keeps seven characters, and the two encodings follow. *)
Definition format_hash (csalt ciphertext : list Z) (minor logr : Z) : list Z :=
  firstn 7 ([ch "$"; ch "2"; minor; ch "$"] ++ two_digits logr ++ [ch "$"])
  ++ encode_base64 csalt BCRYPT_MAXSALT
  ++ encode_base64 ciphertext (4 * BCRYPT_WORDS - 1)
  ++ [0].

(** [enif_make_string(env, s, ERL_NIF_LATIN1)]: the characters before the
    NUL. *)
Definition enif_make_string (s : list Z) : term :=
  String (firstn (Z.to_nat (strlen s)) s).

(** [bcrypt_fini]: the finalization routine. *)
Definition bcrypt_fini (argv : list term) : M nif_result :=
  if negb (List.length argv =? 4)%nat then enif_make_badarg else
  match enif_inspect_binary (arg argv 0) with
  | None => enif_make_badarg
  | Some state =>
    match enif_inspect_binary (arg argv 1) with
    | None => enif_release_binary buf_state state ;; enif_make_badarg
    | Some csalt =>
      match enif_get_ulong (arg argv 2), enif_get_ulong (arg argv 3) with
      | Some minor_arg, Some logr_arg =>
        let minor := u8 minor_arg in
        let logr := u8 logr_arg in
        let (cdata, ciphertext) := encrypt_magic state in
        let encrypted := format_hash csalt ciphertext minor logr in
        let state := secure_bzero state (List.length state) in
        enif_release_binary buf_state state ;;
        let ciphertext := secure_bzero ciphertext (4 * BCRYPT_WORDS) in
        let csalt := secure_bzero csalt (List.length csalt) in
        enif_release_binary buf_csalt csalt ;;
        let cdata := secure_bzero cdata BCRYPT_WORDS in
        ret (value (enif_make_string encrypted))
      | _, _ =>
        enif_release_binary buf_state state ;;
        enif_release_binary buf_csalt csalt ;;
        enif_make_badarg
      end
    end
  end.

(** The Erlang scheduler: it calls what [enif_schedule_nif] scheduled, at
    most [calls] times, and gives back what is left. *)
Definition call (f : nif) (fuel : nat) (argv : list term) : M nif_result :=
  match f with
  | NIF_bcrypt_expandstate => bcrypt_expandstate fuel argv
  | NIF_bcrypt_fini => bcrypt_fini argv
  end.

Fixpoint run (calls fuel : nat) (r : nif_result) {struct calls} : M nif_result :=
  match calls, r with
  | S calls, scheduled f argv =>
    r' <- call f fuel argv ;; run calls fuel r'
  | _, _ => ret r
  end.

End Engine.

(** ** Salt strings *)

Definition BCRYPT_SALTSPACE : Z := 7 + (Z.of_nat BCRYPT_MAXSALT * 4 + 2) / 3 + 1.

Inductive errno_value : Type := EINVAL.

(** The bytes that [snprintf(buf, size, ...)] stores for the characters
    [s] of the formatted text: at most [size - 1] of them, and a NUL. *)
Definition snprintf (size : Z) (s : list Z) : list Z :=
  firstn (Z.to_nat (size - 1)) s ++ [0].

(** [encode_salt(salt, saltbuflen, csalt, clen, log_rounds)]: the return
    code, the value stored in [errno] if any, and the bytes stored into
    [salt].  [encode_base64] stores from [salt + 7] on, over the NUL of
    [snprintf]. *)
Definition encode_salt (saltbuflen : Z) (csalt : list Z) (clen : nat)
    (log_rounds : Z) : Z * option errno_value * list Z :=
  if saltbuflen <? BCRYPT_SALTSPACE then (-1, Some EINVAL, [])
  else
    let log_rounds :=
      if log_rounds <? 4 then 4
      else if log_rounds >? 31 then 31
      else log_rounds in
    let salt :=
      snprintf saltbuflen
               ([ch "$"; ch "2"; ch "b"; ch "$"] ++ two_digits log_rounds
                ++ [ch "$"]) in
    (0, None, firstn 7 salt ++ encode_base64 csalt clen ++ [0]).

(** * The vocabulary of the specification *)

(** ** The codec *)

Definition is_byte (z : Z) : Prop := 0 <= z < 256.

(** A symbol of the custom alphabet. *)
Definition in_alphabet (c : Z) : bool := existsb (Z.eqb c) Base64Code.

(** Number of symbols that encode [len] bytes. *)
Definition encoded_length (len : nat) : nat := (4 * len + 2) / 3.

(** ** Time *)

(** Microseconds from [start] to [stop]. *)
Definition elapsed (start stop : timeval) : Z :=
  (tv_sec stop - tv_sec start) * 1000000 + (tv_usec stop - tv_usec start).

(** A [struct timeval] as [gettimeofday] fills it. *)
Definition timeval_ok (t : timeval) : Prop :=
  0 <= tv_sec t < 2 ^ 40 /\ 0 <= tv_usec t < 1000000.

Definition clamp (lo hi z : Z) : Z := Z.max lo (Z.min hi z).

(** ** Identifier strings *)

(** The value of the two digits of the rounds field of an identifier
    string, which stand at positions 4 and 5. *)
Definition rounds_field (saltbuf : list Z) : Z :=
  10 * (char_at saltbuf 4 - ch "0") + (char_at saltbuf 5 - ch "0").

(** The conditions on the rounds field: two digits, a dollar sign, and a
    value from 4 to 31. *)
Definition rounds_field_ok (saltbuf : list Z) : bool :=
  isdigit (char_at saltbuf 4) && isdigit (char_at saltbuf 5)
  && (char_at saltbuf 6 =? ch "$")
  && (4 <=? rounds_field saltbuf) && (rounds_field saltbuf <=? 31).

(** The buffers [key] and [saltbuf] that [enif_get_string] fills. *)
Definition key_of (argv : list term) : list Z :=
  snd (enif_get_string (arg argv 0) 1024).

Definition saltbuf_of (argv : list term) : list Z :=
  snd (enif_get_string (arg argv 1) 1024).

Definition minor_of (argv : list term) : Z := u8 (char_at (saltbuf_of argv) 2).

(** ** The engine and the unsliced algorithm *)

Section Algorithm.

Context {blowfish : Blowfish}.

(** What [bcrypt] checked when it schedules the expansion, and the
    arguments it passes. *)
Record accepted (argv : list term) (key_len : Z) (csalt : list Z)
    (f : nif) (newargv : list term) : Prop := {
  acc_argc : List.length argv = 2%nat;
  acc_key_got : fst (enif_get_string (arg argv 0) 1024) <> 0;
  acc_dollar : char_at (saltbuf_of argv) 0 = ch "$";
  acc_version : char_at (saltbuf_of argv) 1 = ch "2";
  acc_minor :
    minor_of argv = ch "a" /\ key_len = u8 (strlen (key_of argv) + 1)
    \/ minor_of argv = ch "b"
       /\ key_len = Z.min (strlen (key_of argv)) 72 + 1;
  acc_rounds : rounds_field_ok (saltbuf_of argv) = true;
  acc_salt : decode_base64 16 (skipn 7 (saltbuf_of argv)) = (csalt, 0);
  acc_nif : f = NIF_bcrypt_expandstate;
  acc_newargv :
    newargv =
    [ Binary (Blowfish_expandstate Blowfish_initstate csalt 16
                                   (key_of argv) key_len);
      Binary csalt; arg argv 0; ULong key_len;
      ULong (2 ^ rounds_field (saltbuf_of argv));
      ULong (minor_of argv);
      ULong (rounds_field (saltbuf_of argv)); ULong 25; ULong 0 ]
}.

(** One round of the key expansion: the body of the loop. *)
Definition expand_round (key : list Z) (key_len : Z) (csalt state : list Z)
  : list Z :=
  Blowfish_expand0state (Blowfish_expand0state state key key_len)
                        csalt (Z.of_nat (List.length csalt)).

(** [n] rounds in a row, first round first: the loop
    [for (k = 0; k < n; k++) { ... }] of the original algorithm. *)
Fixpoint unsliced_rounds (n : nat) (key : list Z) (key_len : Z)
    (csalt state : list Z) : list Z :=
  match n with
  | O => state
  | S n =>
    unsliced_rounds n key key_len csalt (expand_round key key_len csalt state)
  end.

(** The string that finalization makes of an expanded state. *)
Definition hash_string (state csalt : list Z) (minor logr : Z) : term :=
  enif_make_string
    (format_hash csalt (snd (encrypt_magic state)) (u8 minor) (u8 logr)).

(** The algorithm of the header comment, without slices, from the
    state that the initialization left and the index reached so far:
    [REPEAT rounds: state := ExpandKey (state, 0, password);
    state := ExpandKey (state, 0, salt)], then the encryption of the magic
    string and the formatting of the hash. *)
Definition unsliced_hash (state csalt : list Z) (key : term)
    (key_len rounds minor logr start_index : Z) : term :=
  hash_string
    (unsliced_rounds (Z.to_nat (rounds - start_index))
                     (snd (enif_get_string key 1024)) key_len csalt state)
    csalt minor logr.

End Algorithm.

(** The arguments of [bcrypt_expandstate], in the order of [argv]. *)
Definition expandstate_argv (state csalt : list Z) (key : term)
    (key_len rounds minor logr max_per_slice start_index : Z) : list term :=
  [ Binary state; Binary csalt; key; ULong key_len; ULong rounds;
    ULong minor; ULong logr; ULong max_per_slice; ULong start_index ].

Definition fini_argv (state csalt : list Z) (minor logr : Z) : list term :=
  [ Binary state; Binary csalt; ULong minor; ULong logr ].

(** The arguments that the engine trusts: a Latin-1 string for the key,
    [unsigned long]s, and an index below [rounds]. *)
Record trusted (key : term) (key_len rounds minor logr max_per_slice
    start_index : Z) : Prop := {
  trusted_key : fst (enif_get_string key 1024) <> 0;
  trusted_key_len : 0 <= key_len <= ULONG_MAX;
  trusted_rounds : 0 < rounds <= 2 ^ 31;
  trusted_minor : 0 <= minor <= ULONG_MAX;
  trusted_logr : 0 <= logr <= ULONG_MAX;
  trusted_max_per_slice : 0 <= max_per_slice <= ULONG_MAX;
  trusted_start_index : 0 <= start_index < rounds
}.

(** How an invocation of [bcrypt_expandstate] that reached [k'] with the
    state [state'] ends: finalization at [rounds], a new slice below. *)
Definition slice_outcome (rounds : Z) (argv : list term)
    (csalt state' : list Z) (k' : Z) (f : nif) (r : nif_result) : Prop :=
  (k' = rounds /\ f = NIF_bcrypt_fini
   /\ r = scheduled NIF_bcrypt_fini
                    [ Binary state'; Binary csalt; arg argv 5; arg argv 6 ])
  \/ (k' < rounds /\ f = NIF_bcrypt_expandstate
      /\ exists max_per_slice',
           0 <= max_per_slice' <= ULONG_MAX
           /\ r = scheduled NIF_bcrypt_expandstate
                  [ Binary state'; Binary csalt; arg argv 2; arg argv 3;
                    arg argv 4; arg argv 5; arg argv 6;
                    ULong max_per_slice'; ULong k' ]).

(** How one invocation ends, on the arguments it was given. *)
Definition invocation_outcome (csalt : list Z) (key : term)
    (key_len rounds minor logr : Z) (state' : list Z) (k' : Z)
    (f : nif) (r : nif_result) : Prop :=
  (k' = rounds /\ f = NIF_bcrypt_fini
   /\ r = scheduled NIF_bcrypt_fini (fini_argv state' csalt minor logr))
  \/ (k' < rounds /\ f = NIF_bcrypt_expandstate
      /\ exists max_per_slice',
           0 <= max_per_slice' <= ULONG_MAX
           /\ r = scheduled NIF_bcrypt_expandstate
                  (expandstate_argv state' csalt key key_len rounds minor
                                    logr max_per_slice' k')).

(** ** Events of a run *)

(** [k + 1, ..., k + n] *)
Fixpoint upto (k : Z) (n : nat) : list Z :=
  match n with
  | O => []
  | S n => (k + 1) :: upto (k + 1) n
  end.

(** The events of the expansion from [start] on: the invocations and, in
    each, the values of [k]; the last one schedules the finalization. *)
Inductive expansion_trace (rounds : Z) : Z -> list event -> Prop :=
| trace_final start n :
    (1 <= n)%nat -> start + Z.of_nat n = rounds ->
    expansion_trace rounds start
      (index start :: map index (upto start n)
       ++ [scheduled_nif NIF_bcrypt_fini])
| trace_yield start n es :
    (1 <= n)%nat -> start + Z.of_nat n < rounds ->
    expansion_trace rounds (start + Z.of_nat n) es ->
    expansion_trace rounds start
      ((index start :: map index (upto start n)
        ++ [scheduled_nif NIF_bcrypt_expandstate]) ++ es).

(** The values of [k] in a list of events. *)
Definition indices (es : list event) : list Z :=
  flat_map (fun e => match e with index k => [k] | _ => [] end) es.

(** The invariants of [current_index] on the events [es] of a run: the
    index never decreases and never exceeds [rounds], and the
    finalization is scheduled at the moment the index is [rounds], not
    before. *)
Definition index_invariant (rounds start : Z) (es : list event) : Prop :=
  StronglySorted Z.le (indices es)
  /\ Forall (fun k => start <= k <= rounds) (indices es)
  /\ exists pre post,
       es = pre ++ [index rounds; scheduled_nif NIF_bcrypt_fini] ++ post
       /\ Forall (fun k => k < rounds) (indices pre)
       /\ ~ In (scheduled_nif NIF_bcrypt_fini) pre
       /\ indices post = [].

(** All the binaries released in [es] held only zero bytes then. *)
Definition zeroed_at_release (es : list event) : bool :=
  forallb (fun e => match e with
                    | released _ contents => forallb (Z.eqb 0) contents
                    | _ => true
                    end) es.

(** ** Checking a decidable property on an initial segment of [Z] *)

Definition below (n : nat) : list Z := map Z.of_nat (seq 0 n).

Definition both_bytes (P : Z -> Z -> bool) : bool :=
  forallb (fun a => forallb (P a) (below 256)) (below 256).

(** The second and third sextets of a group of three bytes, as
    [encode_base64] computes them. *)

Definition sextet2_of (a b : Z) : Z :=
  Z.lor (u8 (Z.shiftl (Z.land a 3) 4)) (Z.land (Z.shiftr b 4) 15).

Definition sextet3_of (b c : Z) : Z :=
  Z.lor (u8 (Z.shiftl (Z.land b 15) 2)) (Z.land (Z.shiftr c 6) 3).

(** ** A small instance of the collaborators

    Used to run the model on concrete inputs. *)

Module Toy.

Definition mix (c data : list Z) (n : Z) : list Z :=
  map (fun x => (5 * x + fold_left Z.add (firstn (Z.to_nat n) data) n + 1) mod 256) c.

Definition stream2word (data : list Z) (n j : Z) : Z * Z :=
  (fold_left (fun w i => 256 * w + nth (Z.to_nat ((j + i) mod n)) data 0)
             [0; 1; 2; 3] 0,
   (j + 4) mod n).

#[export] Instance blowfish : Blowfish := {|
  sizeof_blf_ctx := 8;
  Blowfish_initstate := [3; 1; 4; 1; 5; 9; 2; 6];
  Blowfish_expandstate := fun c data n key m => mix (mix c data n) key m;
  Blowfish_expand0state := mix;
  Blowfish_stream2word := stream2word;
  blf_enc := fun c data blocks =>
    map (fun w => (3 * w + fold_left Z.add c blocks) mod 2 ^ 32) data
|}.

(** A clock that advances by [step] microseconds per reading, and a
    scheduler that answers [yield] to every report. *)
Definition host (step : Z) (yield : bool) : Host := {|
  clock_reading := fun n => {| tv_sec := 0; tv_usec := step * Z.of_nat n |};
  timeslice_exhausted := fun _ _ => yield;
  alloc_succeeds := fun _ _ => true
|}.

End Toy.

(** ** A concrete run

    Password ["abc"], a salt of sixteen zero bytes, minor ['b'] and
    [logr = 4], with the small instance of the collaborators. *)

Module Run.

Definition password : term := String (chars "abc").

Definition identifier : term := String (chars "$2b$04$......................").

Definition csalt : list Z := repeat 0 16.

(** The state that [bcrypt] leaves for this input. *)
Definition state : list Z :=
  @Blowfish_expandstate Toy.blowfish (@Blowfish_initstate Toy.blowfish)
                        csalt 16 (chars "abc" ++ [0]) 4.

(** One invocation per element of [sizes], each with its [max_per_slice]
    set to that element, then the finalization: the engine run as slices
    of the given sizes under a scheduler that always asks to yield. *)
Definition with_max_per_slice (m : Z) (argv : list term) : list term :=
  firstn 7 argv ++ ULong m :: skipn 8 argv.

Fixpoint run_slices (sizes : list Z) (fuel : nat) (r : nif_result)
  : M nif_result :=
  match sizes, r with
  | m :: sizes, scheduled NIF_bcrypt_expandstate argv =>
    bind (@bcrypt_expandstate Toy.blowfish (Toy.host 0 true) fuel
            (with_max_per_slice m argv))
         (run_slices sizes fuel)
  | _, _ => @run Toy.blowfish (Toy.host 0 true) 1 fuel r
  end.

Definition sliced (sizes : list Z) : option nif_result :=
  option_map fst
    (run_slices sizes 16
       (scheduled NIF_bcrypt_expandstate
          (expandstate_argv state csalt password 4 16 (ch "b") 4 25 0))
       boot).

End Run.

(** ** What [bcrypt] checks before it allocates *)

(** The checks of [bcrypt] on its arguments, in the order of the code, up
    to the length of the salt text. *)
Definition header_ok (argv : list term) : bool :=
  (List.length argv =? 2)%nat
  && negb (fst (enif_get_string (arg argv 0) 1024) =? 0)
  && negb (fst (enif_get_string (arg argv 1) 1024) =? 0)
  && (char_at (saltbuf_of argv) 0 =? ch "$")
  && (char_at (saltbuf_of argv) 1 =? BCRYPT_VERSION)
  && ((minor_of argv =? ch "a") || (minor_of argv =? ch "b"))
  && (char_at (saltbuf_of argv) 3 =? ch "$")
  && rounds_field_ok (saltbuf_of argv)
  && negb (strlen (skipn 7 (saltbuf_of argv)) * 3 / 4
           <? Z.of_nat BCRYPT_MAXSALT).

(** The world after [n] more allocations and the events [es]. *)
Definition after (n : nat) (es : list event) (w : world) : world :=
  {| clock_reads := clock_reads w;
     slice_reports := slice_reports w;
     allocations := n + allocations w;
     log := log w ++ es |}.

(** The world after the events [es]. *)
Definition logged (es : list event) (w : world) : world :=
  {| clock_reads := clock_reads w; slice_reports := slice_reports w;
     allocations := allocations w; log := log w ++ es |}.

(** The binaries released in a list of events. *)
Definition releases (es : list event) : list (buffer * list Z) :=
  flat_map (fun e => match e with
                     | released b contents => [(b, contents)]
                     | _ => []
                     end) es.

Section Outcomes.

Context {blowfish : Blowfish} {host : Host}.

(** The five ways in which a call of [bcrypt] in the world [w] ends, with
    the result [r] and the world [w'] it leaves: a check fails before
    anything is allocated; [csalt] cannot be allocated; the salt does not
    decode; [state] cannot be allocated; the expansion is scheduled. *)
Definition bcrypt_outcome (argv : list term) (w : world) (r : nif_result)
    (w' : world) : Prop :=
  let decoded := decode_base64 16 (skipn 7 (saltbuf_of argv)) in
  let csalt_ok := alloc_succeeds (allocations w) BCRYPT_MAXSALT in
  let state_ok := alloc_succeeds (S (allocations w)) sizeof_blf_ctx in
  (header_ok argv = false /\ r = badarg /\ w' = w)
  \/ (header_ok argv = true /\ csalt_ok = false
      /\ r = badarg /\ w' = after 1 [] w)
  \/ (header_ok argv = true /\ csalt_ok = true /\ snd decoded <> 0
      /\ r = badarg
      /\ w' = after 1 [released buf_csalt
                         (fst decoded
                          ++ skipn (List.length (fst decoded)) (repeat 0 16))]
                    w)
  \/ (header_ok argv = true /\ csalt_ok = true /\ snd decoded = 0
      /\ state_ok = false
      /\ r = badarg /\ w' = after 2 [released buf_csalt (fst decoded)] w)
  \/ (header_ok argv = true /\ csalt_ok = true /\ snd decoded = 0
      /\ state_ok = true
      /\ exists key_len newargv,
           accepted argv key_len (fst decoded) NIF_bcrypt_expandstate newargv
           /\ r = scheduled NIF_bcrypt_expandstate newargv
           /\ w' = after 2 [scheduled_nif NIF_bcrypt_expandstate] w).

End Outcomes.

(** The key length that [bcrypt] computes for a minor version and the
    C string in [key]. *)
Definition key_length (minor : Z) (key : list Z) : Z :=
  if minor =? ch "a" then u8 (strlen key + 1)
  else Z.min (strlen key) 72 + 1.

(** * Lemmas *)

(** ** Machine integers *)

Lemma u8_small z : 0 <= z < 256 -> u8 z = z.
Proof. intros; unfold u8; apply Z.mod_small; lia. Qed.

Lemma u32_small z : 0 <= z < 2 ^ 32 -> u32 z = z.
Proof. intros; unfold u32; apply Z.mod_small; lia. Qed.

Lemma ulong_small z : 0 <= z < 2 ^ 64 -> ulong z = z.
Proof. intros; unfold ulong; apply Z.mod_small; lia. Qed.

Lemma int_small z : - 2 ^ 31 <= z <= INT_MAX -> int z = z.
Proof.
  unfold int, INT_MAX; intros.
  rewrite Z.mod_small; lia.
Qed.

Lemma long_small z : - 2 ^ 63 <= z < 2 ^ 63 -> long z = z.
Proof.
  unfold long; intros.
  rewrite Z.mod_small; lia.
Qed.

Lemma ulong_range z : 0 <= ulong z < 2 ^ 64.
Proof. unfold ulong; apply Z.mod_pos_bound; lia. Qed.

Lemma u32_range z : 0 <= u32 z < 2 ^ 32.
Proof. unfold u32; apply Z.mod_pos_bound; lia. Qed.

(** ** The codec *)

Lemma below_In n z : 0 <= z < Z.of_nat n -> In z (below n).
Proof.
  intros H; unfold below; apply in_map_iff.
  exists (Z.to_nat z); split; [lia | apply in_seq; lia].
Qed.

Lemma forallb_below (P : Z -> bool) n :
  forallb P (below n) = true -> forall z, 0 <= z < Z.of_nat n -> P z = true.
Proof.
  intros H z Hz; rewrite forallb_forall in H; apply H, below_In, Hz.
Qed.

Example tables_sizes :
  List.length Base64Code = 64%nat /\ List.length index_64 = 128%nat.
Proof. split; reflexivity. Qed.

Example encode_base64_zero_salt :
  encode_base64 (repeat 0 16) 16 = chars "......................".
Proof. reflexivity. Qed.

Example decode_base64_zero_salt :
  decode_base64 16 (chars "......................") = (repeat 0 16, 0).
Proof. reflexivity. Qed.

Example decode_base64_bad_symbol :
  decode_base64 16 (chars ".....................!") = (repeat 0 15, -1).
Proof. reflexivity. Qed.

Section Codec.

Lemma CHAR64_Base64 i : 0 <= i < 64 -> CHAR64 (Base64 i) = i.
Proof.
  intros H.
  apply Z.eqb_eq.
  apply (forallb_below (fun i => CHAR64 (Base64 i) =? i) 64); [reflexivity | lia].
Qed.

Lemma CHAR64_outside c : in_alphabet c = false -> CHAR64 c = 255.
Proof.
  intros H.
  destruct (Z.ltb_spec c 0) as [Hneg | Hpos].
  - unfold CHAR64. destruct (Z.gtb_spec c 127); [reflexivity |].
    destruct c; try lia; reflexivity.
  - destruct (Z.ltb_spec c 128) as [Hlt | Hge].
    + assert (Hc : (in_alphabet c || (CHAR64 c =? 255)) = true).
      { apply (forallb_below (fun c => in_alphabet c || (CHAR64 c =? 255)) 128);
          [reflexivity | lia]. }
      rewrite H in Hc; simpl in Hc; apply Z.eqb_eq, Hc.
    + unfold CHAR64. destruct (Z.gtb_spec c 127); [reflexivity | lia].
Qed.

(** The three bytes of a group are recovered from its four sextets.  Each
    identity is checked on the whole range of the bytes it depends on. *)

Lemma sextet1 a : is_byte a -> 0 <= Z.shiftr a 2 < 64.
Proof.
  intros H.
  assert (Hb : ((0 <=? Z.shiftr a 2) && (Z.shiftr a 2 <? 64)) = true).
  { apply (forallb_below (fun a => (0 <=? Z.shiftr a 2) && (Z.shiftr a 2 <? 64)) 256);
      [vm_compute; reflexivity | exact H]. }
  apply andb_true_iff in Hb; lia.
Qed.

Lemma both_bytes_spec P :
  both_bytes P = true -> forall a b, is_byte a -> is_byte b -> P a b = true.
Proof.
  intros H a b Ha Hb.
  apply (forallb_below (P a) 256); [| exact Hb].
  apply (forallb_below (fun a => forallb (P a) (below 256)) 256 H a Ha).
Qed.

Lemma sextet2_range a b :
  is_byte a -> is_byte b -> 0 <= sextet2_of a b < 64.
Proof.
  intros Ha Hb.
  assert (H := both_bytes_spec
    (fun a b => (0 <=? sextet2_of a b) && (sextet2_of a b <? 64))
    ltac:(vm_compute; reflexivity) a b Ha Hb).
  apply andb_true_iff in H; lia.
Qed.

Lemma sextet3_range b c :
  is_byte b -> is_byte c -> 0 <= sextet3_of b c < 64.
Proof.
  intros Hb Hc.
  assert (H := both_bytes_spec
    (fun b c => (0 <=? sextet3_of b c) && (sextet3_of b c <? 64))
    ltac:(vm_compute; reflexivity) b c Hb Hc).
  apply andb_true_iff in H; lia.
Qed.

Lemma sextet4_range c : 0 <= Z.land c 63 < 64.
Proof.
  change 63 with (Z.ones 6); rewrite Z.land_ones by lia.
  apply Z.mod_pos_bound; lia.
Qed.

Lemma byte1_decoded a b :
  is_byte a -> is_byte b ->
  u8 (Z.lor (Z.shiftl (Z.shiftr a 2) 2)
            (Z.shiftr (Z.land (sextet2_of a b) 48) 4)) = a.
Proof.
  intros Ha Hb.
  apply Z.eqb_eq.
  apply (both_bytes_spec
    (fun a b => u8 (Z.lor (Z.shiftl (Z.shiftr a 2) 2)
                          (Z.shiftr (Z.land (sextet2_of a b) 48) 4)) =? a));
    [vm_compute; reflexivity | exact Ha | exact Hb].
Qed.

(** The second byte depends on the first one only through the sextet
    [s2]; its low four bits are the high four bits of [b]. *)
Lemma sextet2_low a b :
  is_byte a -> is_byte b ->
  Z.land (sextet2_of a b) 15 = Z.shiftr b 4.
Proof.
  intros Ha Hb.
  apply Z.eqb_eq.
  apply (both_bytes_spec
    (fun a b => Z.land (sextet2_of a b) 15 =? Z.shiftr b 4));
    [vm_compute; reflexivity | exact Ha | exact Hb].
Qed.

Lemma byte2_decoded b c :
  is_byte b -> is_byte c ->
  u8 (Z.lor (Z.shiftl (Z.shiftr b 4) 4)
            (Z.shiftr (Z.land (sextet3_of b c) 60) 2)) = b.
Proof.
  intros Hb Hc.
  apply Z.eqb_eq.
  apply (both_bytes_spec
    (fun b c => u8 (Z.lor (Z.shiftl (Z.shiftr b 4) 4)
                          (Z.shiftr (Z.land (sextet3_of b c) 60) 2)) =? b));
    [vm_compute; reflexivity | exact Hb | exact Hc].
Qed.

Lemma byte3_decoded b c :
  is_byte b -> is_byte c ->
  u8 (Z.lor (Z.shiftl (Z.land (sextet3_of b c) 3) 6) (Z.land c 63)) = c.
Proof.
  intros Hb Hc.
  apply Z.eqb_eq.
  apply (both_bytes_spec
    (fun b c => u8 (Z.lor (Z.shiftl (Z.land (sextet3_of b c) 3) 6)
                          (Z.land c 63)) =? c));
    [vm_compute; reflexivity | exact Hb | exact Hc].
Qed.

End Codec.

Section RoundTrip.

Lemma nat_ind3 (P : nat -> Prop) :
  P 0%nat -> P 1%nat -> P 2%nat -> (forall n, P n -> P (3 + n)%nat) ->
  forall n, P n.
Proof.
  intros H0 H1 H2 Hstep.
  assert (H : forall n, P n /\ P (S n) /\ P (S (S n))).
  { induction n as [| n (Ha & Hb & Hc)]; [tauto |].
    repeat split; [assumption | assumption |]. exact (Hstep n Ha). }
  intros n; apply H.
Qed.

Lemma sextet_not_255 s : 0 <= s < 64 -> (s =? 255) = false.
Proof. intros H; apply Z.eqb_neq; lia. Qed.

Ltac sextet_range :=
  first [ assumption | apply sextet1 | apply sextet2_range
        | apply sextet3_range | apply sextet4_range ]; assumption.

Ltac read_sextet :=
  repeat match goal with
  | |- context [CHAR64 (Base64 ?s)] =>
      rewrite (CHAR64_Base64 s) by sextet_range
  end;
  repeat match goal with
  | |- context [?s =? 255] => rewrite (sextet_not_255 s) by sextet_range
  end.

(** Bytes of a partial group: the sextet that closes it carries the low
    bits of the last byte in its high bits. *)
Lemma last_of_one a :
  is_byte a ->
  0 <= u8 (Z.shiftl (Z.land a 3) 4) < 64 /\
  u8 (Z.lor (Z.shiftl (Z.shiftr a 2) 2)
            (Z.shiftr (Z.land (u8 (Z.shiftl (Z.land a 3) 4)) 48) 4)) = a.
Proof.
  intros Ha.
  set (P := fun a =>
    (0 <=? u8 (Z.shiftl (Z.land a 3) 4)) && (u8 (Z.shiftl (Z.land a 3) 4) <? 64)
    && (u8 (Z.lor (Z.shiftl (Z.shiftr a 2) 2)
          (Z.shiftr (Z.land (u8 (Z.shiftl (Z.land a 3) 4)) 48) 4)) =? a)).
  assert (H : P a = true)
    by (apply (forallb_below P 256); [vm_compute; reflexivity | exact Ha]).
  unfold P in H; rewrite !andb_true_iff in H; lia.
Qed.

Lemma last_of_two b :
  is_byte b ->
  0 <= u8 (Z.shiftl (Z.land b 15) 2) < 64 /\
  u8 (Z.lor (Z.shiftl (Z.shiftr b 4) 4)
            (Z.shiftr (Z.land (u8 (Z.shiftl (Z.land b 15) 2)) 60) 2)) = b.
Proof.
  intros Hb.
  set (P := fun b =>
    (0 <=? u8 (Z.shiftl (Z.land b 15) 2)) && (u8 (Z.shiftl (Z.land b 15) 2) <? 64)
    && (u8 (Z.lor (Z.shiftl (Z.shiftr b 4) 4)
          (Z.shiftr (Z.land (u8 (Z.shiftl (Z.land b 15) 2)) 60) 2)) =? b)).
  assert (H : P b = true)
    by (apply (forallb_below P 256); [vm_compute; reflexivity | exact Hb]).
  unfold P in H; rewrite !andb_true_iff in H; lia.
Qed.

(** Decoding what [encode_base64] produced returns the bytes encoded. *)
Lemma decode_encode_base64 n :
  forall data, length data = n -> Forall is_byte data ->
  decode_base64 n (encode_base64 data n) = (data, 0).
Proof.
  induction n as [| | | n IH] using nat_ind3; intros data Hlen Hbytes.
  - destruct data; [reflexivity | discriminate].
  - destruct data as [| a [| ? ?]]; try discriminate.
    inversion_clear Hbytes as [| ? ? Ha _].
    destruct (last_of_one a Ha) as [Hr He].
    cbn [decode_base64 encode_base64 char_at nth].
    read_sextet.
    rewrite He; reflexivity.
  - destruct data as [| a [| b [| ? ?]]]; try discriminate.
    inversion_clear Hbytes as [| ? ? Ha Hbytes'].
    inversion_clear Hbytes' as [| ? ? Hb _].
    destruct (last_of_two b Hb) as [Hr He].
    cbn [decode_base64 encode_base64 char_at nth].
    fold (sextet2_of a b).
    read_sextet.
    rewrite byte1_decoded, sextet2_low, He by assumption.
    reflexivity.
  - destruct data as [| a [| b [| c rest]]]; try discriminate.
    inversion_clear Hbytes as [| ? ? Ha Hbytes'].
    inversion_clear Hbytes' as [| ? ? Hb Hbytes].
    inversion_clear Hbytes as [| ? ? Hc Hrest].
    cbn [decode_base64 encode_base64 char_at nth skipn Nat.add].
    fold (sextet2_of a b) (sextet3_of b c).
    read_sextet.
    rewrite byte1_decoded, sextet2_low, byte2_decoded, byte3_decoded
      by assumption.
    rewrite IH; [reflexivity | | assumption].
    simpl in Hlen; lia.
Qed.

Lemma encode_base64_length n :
  forall data, length (encode_base64 data n) = encoded_length n.
Proof.
  induction n as [| | | n IH] using nat_ind3; intros data; try reflexivity.
  cbn [encode_base64 Nat.add length]; rewrite IH.
  unfold encoded_length.
  replace (4 * S (S (S n)) + 2)%nat with ((4 * n + 2) + 4 * 3)%nat by lia.
  rewrite Nat.div_add by lia; lia.
Qed.

(** A symbol outside the alphabet at a position that is read makes
    [decode_base64] return [-1]. *)
Lemma decode_base64_rejects n :
  forall p i, (i < encoded_length n)%nat ->
  in_alphabet (char_at p i) = false ->
  snd (decode_base64 n p) = -1.
Proof.
  induction n as [| | | n IH] using nat_ind3; intros p i Hi Hbad.
  - inversion Hi.
  - apply CHAR64_outside in Hbad.
    change (encoded_length 1) with 2%nat in Hi.
    cbn [decode_base64].
    destruct (CHAR64 (char_at p 0) =? 255) eqn:E0; [reflexivity |].
    destruct (CHAR64 (char_at p 1) =? 255) eqn:E1; [reflexivity |].
    exfalso.
    assert (Hc : i = 0%nat \/ i = 1%nat) by lia.
    destruct Hc; subst i; rewrite Hbad in *; discriminate.
  - apply CHAR64_outside in Hbad.
    change (encoded_length 2) with 3%nat in Hi.
    cbn [decode_base64].
    destruct (CHAR64 (char_at p 0) =? 255) eqn:E0; [reflexivity |].
    destruct (CHAR64 (char_at p 1) =? 255) eqn:E1; [reflexivity |].
    destruct (CHAR64 (char_at p 2) =? 255) eqn:E2; [reflexivity |].
    exfalso.
    assert (Hc : i = 0%nat \/ i = 1%nat \/ i = 2%nat) by lia.
    destruct Hc as [? | [? | ?]]; subst i; rewrite Hbad in *; discriminate.
  - assert (Hlen : encoded_length (3 + n) = (4 + encoded_length n)%nat).
    { unfold encoded_length.
      replace (4 * (3 + n) + 2)%nat with ((4 * n + 2) + 4 * 3)%nat by lia.
      rewrite Nat.div_add by lia; lia. }
    rewrite Hlen in Hi.
    cbn [decode_base64 Nat.add].
    destruct (CHAR64 (char_at p 0) =? 255) eqn:E0; [reflexivity |].
    destruct (CHAR64 (char_at p 1) =? 255) eqn:E1; [reflexivity |].
    destruct (CHAR64 (char_at p 2) =? 255) eqn:E2; [reflexivity |].
    destruct (CHAR64 (char_at p 3) =? 255) eqn:E3; [reflexivity |].
    destruct (Nat.lt_ge_cases i 4) as [Hlow | Hhigh].
    + exfalso. apply CHAR64_outside in Hbad.
      assert (Hc : i = 0%nat \/ i = 1%nat \/ i = 2%nat \/ i = 3%nat) by lia.
      destruct Hc as [? | [? | [? | ?]]]; subst i; rewrite Hbad in *;
        discriminate.
    + specialize (IH (skipn 4 p) (i - 4)%nat).
      destruct (decode_base64 n (skipn 4 p)) as [rest rc]; simpl.
      apply IH; [lia |].
      unfold char_at in *.
      rewrite nth_skipn.
      replace (4 + (i - 4))%nat with i by lia; exact Hbad.
Qed.

Lemma decode_base64_length n :
  forall p, snd (decode_base64 n p) = 0 ->
  List.length (fst (decode_base64 n p)) = n.
Proof.
  induction n as [| | | n IH] using nat_ind3; intros p; cbn [decode_base64 Nat.add].
  - reflexivity.
  - repeat (match goal with |- context [if ?c then _ else _] => destruct c end;
            [discriminate |]); reflexivity.
  - repeat (match goal with |- context [if ?c then _ else _] => destruct c end;
            [discriminate |]); reflexivity.
  - repeat (match goal with |- context [if ?c then _ else _] => destruct c end;
            [discriminate |]).
    specialize (IH (skipn 4 p)).
    destruct (decode_base64 n (skipn 4 p)) as [rest rc]; simpl in *.
    intros H; rewrite (IH H); reflexivity.
Qed.

End RoundTrip.

(** ** The adaptive timing *)

Section Timing.

Lemma timersub_elapsed start stop :
  timeval_ok start -> timeval_ok stop ->
  long (long (tv_sec (timersub stop start) * 1000000)
        + tv_usec (timersub stop start)) = elapsed start stop.
Proof.
  unfold timeval_ok, timersub, elapsed; intros [Hs Hu] [Hs' Hu'].
  rewrite (long_small (tv_sec stop - tv_sec start)) by lia.
  rewrite (long_small (tv_usec stop - tv_usec start)) by lia.
  destruct (Z.ltb_spec (tv_usec stop - tv_usec start) 0); cbn [tv_sec tv_usec].
  - rewrite (long_small (tv_sec stop - tv_sec start - 1)) by lia.
    rewrite (long_small (tv_usec stop - tv_usec start + 1000000)) by lia.
    rewrite (long_small ((tv_sec stop - tv_sec start - 1) * 1000000)) by lia.
    rewrite long_small; lia.
  - rewrite (long_small ((tv_sec stop - tv_sec start) * 1000000)) by lia.
    rewrite long_small; lia.
Qed.

Lemma adjust_max_per_slice_m0 mps total k start_index :
  0 <= start_index <= k -> k - start_index <= INT_MAX ->
  Z.quot total 100 = 0 ->
  adjust_max_per_slice mps total k start_index = k - start_index.
Proof.
  unfold adjust_max_per_slice, INT_MAX; intros Hk Hmax Hm.
  rewrite Hm; cbn [Z.eqb].
  rewrite (ulong_small (k - start_index)) by lia.
  rewrite int_small by (unfold INT_MAX; lia).
  apply ulong_small; lia.
Qed.

Lemma quot_100_is_1 total : Z.quot total 100 = 1 -> 100 <= total < 200.
Proof.
  intros H.
  destruct (Z.lt_ge_cases total 0).
  - assert (Z.quot total 100 <= 0) by (apply Z.quot_le_upper_bound; lia); lia.
  - rewrite Z.quot_div_nonneg in H by lia.
    assert (H1 := Z.div_mod total 100 ltac:(lia)).
    assert (H2 := Z.mod_pos_bound total 100 ltac:(lia)).
    lia.
Qed.

Lemma adjust_max_per_slice_m1 mps total k start_index :
  0 <= start_index <= k -> k - start_index <= INT_MAX ->
  Z.quot total 100 = 1 ->
  (k - start_index) * (total - 100) <= INT_MAX ->
  adjust_max_per_slice mps total k start_index =
    (k - start_index) - (k - start_index) * (total - 100) / 100.
Proof.
  unfold adjust_max_per_slice, INT_MAX; intros Hk Hmax Hm Hprod.
  rewrite Hm; cbn [Z.eqb Pos.eqb].
  apply quot_100_is_1 in Hm.
  set (c := k - start_index) in *.
  rewrite (ulong_small c) by lia.
  rewrite (int_small c) by (unfold INT_MAX; lia).
  assert (Hp : 0 <= c * (total - 100)) by nia.
  rewrite (int_small (c * (total - 100))) by (unfold INT_MAX; lia).
  rewrite Z.quot_div_nonneg by lia.
  assert (Hq : 0 <= c * (total - 100) / 100 <= c).
  { split; [apply Z.div_pos; lia |].
    apply Z.div_le_upper_bound; nia. }
  rewrite (int_small (c * (total - 100) / 100)) by (unfold INT_MAX; lia).
  rewrite int_small by (unfold INT_MAX; lia).
  apply ulong_small; lia.
Qed.

Lemma adjust_max_per_slice_m2 mps total k start_index :
  0 <= start_index <= k -> k - start_index <= INT_MAX ->
  2 <= Z.quot total 100 ->
  adjust_max_per_slice mps total k start_index =
    (k - start_index) / Z.quot total 100.
Proof.
  unfold adjust_max_per_slice, INT_MAX; intros Hk Hmax Hm.
  destruct (Z.eqb_spec (Z.quot total 100) 0); [lia |].
  destruct (Z.eqb_spec (Z.quot total 100) 1); [lia |].
  set (c := k - start_index) in *.
  set (m := Z.quot total 100) in *.
  rewrite (ulong_small c) by lia.
  rewrite (int_small c) by (unfold INT_MAX; lia).
  rewrite Z.quot_div_nonneg by lia.
  assert (Hq : 0 <= c / m <= c).
  { split; [apply Z.div_pos; lia |].
    apply Z.div_le_upper_bound; nia. }
  rewrite int_small by (unfold INT_MAX; lia).
  apply ulong_small; lia.
Qed.

Lemma adjust_max_per_slice_range mps total k start_index :
  0 <= adjust_max_per_slice mps total k start_index <= ULONG_MAX.
Proof.
  unfold adjust_max_per_slice, ULONG_MAX.
  repeat match goal with |- context [if ?c then _ else _] => destruct c end;
    match goal with |- context [ulong ?z] => generalize (ulong_range z) end; lia.
Qed.

End Timing.

(** ** The parser in [bcrypt] *)

Section Parser.

Context {blowfish : Blowfish} {host : Host}.

Ltac bad := do 2 eexists; split; [reflexivity | left; reflexivity].

Lemma char_at_skipn n p i : char_at (skipn n p) i = char_at p (n + i).
Proof. unfold char_at; apply nth_skipn. Qed.

Lemma isdigit_range c : isdigit c = true -> 48 <= c <= 57.
Proof.
  unfold isdigit; change (ch "0") with 48; change (ch "9") with 57.
  rewrite andb_true_iff; lia.
Qed.

Lemma atoi_two_digits s :
  isdigit (char_at s 0) = true -> isdigit (char_at s 1) = true ->
  char_at s 2 = ch "$" ->
  atoi s = 10 * (char_at s 0 - ch "0") + (char_at s 1 - ch "0").
Proof.
  unfold char_at; intros H0 H1 H2.
  destruct s as [| c0 [| c1 [| c2 s]]]; try discriminate.
  cbn [nth] in *; subst c2.
  unfold atoi; cbn [atoi_from].
  rewrite H0, H1.
  change (isdigit (ch "$")) with false; cbv iota.
  lia.
Qed.

Lemma strlen_nonneg s : 0 <= strlen s.
Proof.
  induction s as [| c s IH]; cbn [strlen]; [lia |].
  destruct (c =? 0); lia.
Qed.

Lemma strlen_le_length s : 0 <= strlen s <= Z.of_nat (List.length s).
Proof.
  induction s as [| c s IH]; cbn [strlen List.length]; [lia |].
  destruct (c =? 0); lia.
Qed.

Lemma strlen_terminated s : strlen (s ++ [0]) = strlen s.
Proof.
  induction s as [| c s IH]; cbn [strlen app]; [reflexivity |].
  destruct (c =? 0); [reflexivity | rewrite IH; reflexivity].
Qed.

Lemma strlen_truncated n :
  forall s, strlen (firstn n s ++ [0]) = Z.min (strlen s) (Z.of_nat n).
Proof.
  induction n as [| n IH]; intros s.
  - cbn [firstn app strlen Z.eqb Z.of_nat]; generalize (strlen_le_length s); lia.
  - destruct s as [| c s]; [reflexivity |].
    cbn [firstn app strlen].
    destruct (c =? 0); [lia |].
    rewrite IH; lia.
Qed.

(** The C string in [key] is the password, cut at 1023 characters. *)
Lemma strlen_key_of argv :
  fst (enif_get_string (arg argv 0) 1024) <> 0 ->
  exists password,
    arg argv 0 = String password
    /\ strlen (key_of argv) = Z.min (strlen password) 1023.
Proof.
  unfold key_of, enif_get_string.
  destruct (arg argv 0) as [| password | |]; cbn [fst]; try congruence.
  destruct (forallb latin1 password); cbn [fst]; [| congruence].
  intros _; exists password; split; [reflexivity |].
  destruct (Nat.ltb_spec (List.length password) 1024); cbn [snd].
  - rewrite strlen_terminated.
    generalize (strlen_le_length password); lia.
  - change (1024 - 1)%nat with 1023%nat.
    rewrite strlen_truncated; lia.
Qed.

Lemma rounds_field_digits saltbuf :
  isdigit (char_at saltbuf 4) = true -> isdigit (char_at saltbuf 5) = true ->
  0 <= rounds_field saltbuf <= 99.
Proof.
  intros H4 H5; apply isdigit_range in H4, H5.
  unfold rounds_field; change (ch "0") with 48; lia.
Qed.

(** [bcrypt] always returns: either [badarg], or the scheduled expansion
    after all the checks. *)
Lemma bcrypt_cases argv w :
  exists r w',
    bcrypt argv w = Some (r, w')
    /\ (r = badarg
        \/ exists key_len csalt f newargv,
             r = scheduled f newargv
             /\ accepted argv key_len csalt f newargv).
Proof.
  unfold bcrypt.
  destruct (Nat.eqb_spec (List.length argv) 2) as [Hargc | ?]; cbn [negb];
    [| bad].
  destruct (enif_get_string (arg argv 0) 1024) as [got_key key] eqn:Hkey.
  destruct (Z.eqb_spec got_key 0) as [| Hgot]; [bad |].
  destruct (enif_get_string (arg argv 1) 1024) as [got_salt saltbuf] eqn:Hsalt.
  destruct (Z.eqb_spec got_salt 0); [bad |].
  rewrite !skipn_skipn, !char_at_skipn; cbn [Nat.add].
  destruct (Z.eqb_spec (char_at saltbuf 0) (ch "$")) as [Hdollar | ?];
    cbn [negb]; [| bad].
  destruct (Z.eqb_spec (char_at saltbuf 1) BCRYPT_VERSION) as [Hversion | ?];
    cbn [negb]; [| bad].
  match goal with
  | |- context [match ?m with Some _ => _ | None => enif_make_badarg end] =>
      destruct m as [key_len |] eqn:Hminor; [| bad]
  end.
  destruct (Z.eqb_spec (char_at saltbuf 3) (ch "$")); cbn [negb]; [| bad].
  destruct (isdigit (char_at saltbuf 4)) eqn:Hd1; cbn [negb orb]; [| bad].
  destruct (isdigit (char_at saltbuf 5)) eqn:Hd2; cbn [negb orb]; [| bad].
  destruct (Z.eqb_spec (char_at saltbuf 6) (ch "$")) as [Hd3 | ?];
    cbn [negb]; [| bad].
  rewrite atoi_two_digits by (rewrite char_at_skipn; assumption).
  rewrite !char_at_skipn; cbn [Nat.add]; fold (rounds_field saltbuf).
  assert (Hv := rounds_field_digits saltbuf Hd1 Hd2).
  rewrite (u8_small (rounds_field saltbuf)) by lia.
  unfold BCRYPT_MINLOGROUNDS.
  destruct (Z.ltb_spec (rounds_field saltbuf) 4); cbn [orb]; [bad |].
  destruct (Z.gtb_spec (rounds_field saltbuf) 31); [bad |].
  destruct (Z.ltb_spec (strlen (skipn 7 saltbuf) * 3 / 4)
                       (Z.of_nat BCRYPT_MAXSALT)); [bad |].
  unfold bind at 1, enif_alloc_binary at 1.
  destruct (alloc_succeeds (allocations w) BCRYPT_MAXSALT); [| bad].
  rewrite repeat_length; change BCRYPT_MAXSALT with 16%nat.
  destruct (decode_base64 16 (skipn 7 saltbuf)) as [decoded rc] eqn:Hdec.
  destruct (Z.eqb_spec rc 0) as [Hrc | ?]; cbn [negb]; [| bad].
  assert (Hlen : List.length decoded = 16%nat).
  { generalize (decode_base64_length 16 (skipn 7 saltbuf)).
    rewrite Hdec; cbn [fst snd]; auto. }
  rewrite Hlen, skipn_all2, app_nil_r, Hlen
    by (rewrite repeat_length; apply Nat.le_refl).
  unfold bind at 1, enif_alloc_binary at 1; cbn [allocations].
  match goal with
  | |- context [alloc_succeeds ?n ?s] => destruct (alloc_succeeds n s)
  end; [| bad].
  do 2 eexists; split; [reflexivity | right].
  exists key_len, decoded; do 2 eexists; split; [reflexivity |].
  assert (Hk : key_of argv = key) by (unfold key_of; rewrite Hkey; reflexivity).
  assert (Hs : saltbuf_of argv = saltbuf)
    by (unfold saltbuf_of; rewrite Hsalt; reflexivity).
  assert (Hshift : u32 (Z.shiftl 1 (rounds_field saltbuf))
                   = 2 ^ rounds_field saltbuf).
  { rewrite Z.shiftl_1_l. apply u32_small. split; [lia |].
    apply Z.pow_lt_mono_r; lia. }
  constructor; unfold minor_of; rewrite ?Hk, ?Hs, ?Hkey; cbn [fst];
    try assumption; try reflexivity.
  - revert Hminor.
    destruct (Z.eqb_spec (u8 (char_at saltbuf 2)) (ch "a")) as [Ha | _].
    + intros [= <-]; left; split; [exact Ha | reflexivity].
    + destruct (Z.eqb_spec (u8 (char_at saltbuf 2)) (ch "b")) as [Hb | _];
        [| discriminate].
      intros [= <-]; right; split; [exact Hb |].
      destruct (Z.gtb_spec (strlen key) 72); lia.
  - unfold rounds_field_ok.
    rewrite Hd1, Hd2, Hd3, Z.eqb_refl; cbn [andb].
    apply andb_true_iff; split; [apply Z.leb_le | apply Z.leb_le]; lia.
  - rewrite Hrc in Hdec; exact Hdec.
  - rewrite Hshift; reflexivity.
Qed.

(** What [bcrypt] schedules is trusted by the engine. *)
Lemma accepted_trusted argv key_len csalt f newargv :
  accepted argv key_len csalt f newargv ->
  trusted (arg argv 0) key_len (2 ^ rounds_field (saltbuf_of argv))
          (minor_of argv) (rounds_field (saltbuf_of argv)) 25 0.
Proof.
  intros [_ Hkey _ _ Hminor Hok _ _ _].
  assert (Hrange : 4 <= rounds_field (saltbuf_of argv) <= 31).
  { unfold rounds_field_ok in Hok; rewrite !andb_true_iff in Hok; lia. }
  assert (Hpow : 2 ^ 4 <= 2 ^ rounds_field (saltbuf_of argv) <= 2 ^ 31)
    by (split; apply Z.pow_le_mono_r; lia).
  assert (Hlen := strlen_nonneg (key_of argv)).
  assert (Hu8 : forall z, 0 <= u8 z < 256)
    by (intros z; unfold u8; apply Z.mod_pos_bound; lia).
  constructor; unfold ULONG_MAX.
  - exact Hkey.
  - destruct Hminor as [[_ ->] | [_ ->]];
      [specialize (Hu8 (strlen (key_of argv) + 1)) |]; lia.
  - lia.
  - unfold minor_of; specialize (Hu8 (char_at (saltbuf_of argv) 2)); lia.
  - lia.
  - lia.
  - lia.
Qed.

End Parser.

(** ** The key expansion, sliced and unsliced *)

Section Expansion.

Context {blowfish : Blowfish} {host : Host}.

Lemma unsliced_rounds_add n m key key_len csalt state :
  unsliced_rounds (n + m) key key_len csalt state =
  unsliced_rounds m key key_len csalt
                  (unsliced_rounds n key key_len csalt state).
Proof.
  revert state; induction n as [| n IH]; intros state; [reflexivity |].
  cbn [Nat.add unsliced_rounds]; apply IH.
Qed.

Lemma upto_add k n m :
  upto k (n + m) = upto k n ++ upto (k + Z.of_nat n) m.
Proof.
  revert k; induction n as [| n IH]; intros k.
  - cbn [Nat.add upto app]; f_equal; lia.
  - cbn [Nat.add upto app]; rewrite IH; do 3 f_equal; lia.
Qed.

Lemma record_run e w :
  record e w = Some (tt, {| clock_reads := clock_reads w;
                            slice_reports := slice_reports w;
                            allocations := allocations w;
                            log := log w ++ [e] |}).
Proof. reflexivity. Qed.

Lemma bind_Some {A B : Type} (m : M A) (f : A -> M B) w a w' :
  m w = Some (a, w') -> bind m f w = f a w'.
Proof. unfold bind; intros ->; reflexivity. Qed.

(** A slice started below [rounds] with its end at most [rounds] runs at
    least one round, stops at the later of [k + 1] and [end_], and leaves
    the clocks of the world alone. *)
Lemma expand_slice_spec rounds key key_len csalt end_ :
  rounds <= 2 ^ 31 -> end_ <= rounds ->
  forall fuel state k w,
  0 <= k < rounds -> (Z.to_nat (rounds - k) <= fuel)%nat ->
  exists n w',
    (1 <= n)%nat
    /\ k + Z.of_nat n = Z.max (k + 1) end_
    /\ expand_slice fuel key key_len csalt state k end_ w =
         Some ((unsliced_rounds n key key_len csalt state, k + Z.of_nat n), w')
    /\ log w' = log w ++ map index (upto k n)
    /\ clock_reads w' = clock_reads w
    /\ slice_reports w' = slice_reports w.
Proof.
  intros Hrounds Hend.
  induction fuel as [| fuel IH]; intros state k w Hk Hfuel; [lia |].
  cbn [expand_slice].
  rewrite (u32_small (k + 1)) by lia.
  unfold bind at 1; rewrite record_run.
  fold (expand_round key key_len csalt state).
  destruct (Z.ltb_spec (k + 1) end_) as [Hlt | Hge].
  - destruct (IH (expand_round key key_len csalt state) (k + 1)
                {| clock_reads := clock_reads w;
                   slice_reports := slice_reports w;
                   allocations := allocations w;
                   log := log w ++ [index (k + 1)] |})
      as (n & w' & Hn & Hstop & Hrun & Hlog & Hclock & Hreports); [lia | lia |].
    exists (S n), w'.
    rewrite Hrun; cbn [log clock_reads slice_reports] in *.
    repeat split; try assumption; try lia.
    + replace (k + Z.of_nat (S n)) with (k + 1 + Z.of_nat n) by lia.
      reflexivity.
    + rewrite Hlog, <- app_assoc; reflexivity.
  - exists 1%nat; eexists.
    repeat split; try reflexivity; lia.
Qed.

(** The loop of slices: whatever the clock and the scheduler answer, it
    ends after some [n >= 1] rounds in a row. *)
Lemma expand_slices_spec rounds argv key key_len csalt max_per_slice
    start_index slice_fuel :
  0 < rounds <= 2 ^ 31 -> (Z.to_nat rounds <= slice_fuel)%nat ->
  forall fuel state k end_ total w,
  0 <= k < rounds -> end_ <= rounds -> (Z.to_nat (rounds - k) <= fuel)%nat ->
  exists n f r w',
    (1 <= n)%nat
    /\ k + Z.of_nat n <= rounds
    /\ expand_slices fuel slice_fuel argv key key_len csalt rounds
                     max_per_slice start_index state k end_ total w =
         Some (r, w')
    /\ log w' = log w ++ map index (upto k n) ++ [scheduled_nif f]
    /\ slice_outcome rounds argv csalt
                     (unsliced_rounds n key key_len csalt state)
                     (k + Z.of_nat n) f r.
Proof.
  intros Hrounds Hslice.
  induction fuel as [| fuel IH]; intros state k end_ total w Hk Hend Hfuel;
    [lia |].
  cbn [expand_slices].
  unfold bind at 1, gettimeofday at 1.
  destruct (expand_slice_spec rounds key key_len csalt end_
              ltac:(lia) Hend slice_fuel state k
              {| clock_reads := S (clock_reads w);
                 slice_reports := slice_reports w;
                 allocations := allocations w;
                 log := log w |} Hk ltac:(lia))
    as (n & w2 & Hn & Hstop & Hrun & Hlog & Hclock & Hreports).
  rewrite (bind_Some _ _ _ _ _ Hrun).
  cbn [log clock_reads slice_reports] in Hlog, Hclock, Hreports.
  destruct (Z.eqb_spec (k + Z.of_nat n) rounds) as [Hlast | Hmore].
  - exists n, NIF_bcrypt_fini; do 2 eexists.
    conjuncts; [assumption | lia | reflexivity | |].
    + cbn [log]; rewrite Hlog, <- app_assoc; reflexivity.
    + left; conjuncts; auto.
  - unfold bind at 1, gettimeofday at 1.
    match goal with
    | |- context [calc_percent ?t ?a ?b] =>
        destruct (calc_percent t a b) as [pct total']
    end.
    unfold bind at 1, enif_consume_timeslice at 1.
    match goal with
    | |- context [timeslice_exhausted ?i ?p] =>
        destruct (timeslice_exhausted i p)
    end.
    + exists n, NIF_bcrypt_expandstate; do 2 eexists.
      conjuncts; [assumption | lia | reflexivity | |].
      * cbn [log]; rewrite Hlog, <- app_assoc; reflexivity.
      * right; conjuncts; [lia | reflexivity |].
        eexists; split; [apply adjust_max_per_slice_range | reflexivity].
    + set (end' := if ulong (end_ + max_per_slice) >? rounds
                   then rounds else ulong (end_ + max_per_slice)).
      assert (Hend' : end' <= rounds)
        by (unfold end'; destruct (Z.gtb_spec (ulong (end_ + max_per_slice))
                                              rounds); lia).
      match goal with
      | |- context [expand_slices fuel slice_fuel argv key key_len csalt rounds
                      max_per_slice start_index ?st ?k1 end' ?tot ?w3] =>
          destruct (IH st k1 end' tot w3 ltac:(lia) Hend' ltac:(lia))
            as (m & f & r & w4 & Hm & Hbound & Hrest & Hlog' & Hout)
      end.
      exists (n + m)%nat, f, r, w4.
      conjuncts; [lia | lia | exact Hrest | |].
      * rewrite Hlog'; cbn [log]; rewrite Hlog, upto_add, map_app.
        rewrite <- !app_assoc; reflexivity.
      * rewrite unsliced_rounds_add.
        replace (k + Z.of_nat (n + m)) with (k + Z.of_nat n + Z.of_nat m)
          by lia.
        exact Hout.
Qed.

Lemma enif_get_ulong_ok n :
  0 <= n <= ULONG_MAX -> enif_get_ulong (ULong n) = Some n.
Proof.
  intros H; unfold enif_get_ulong.
  destruct (Z.leb_spec 0 n); [| lia].
  destruct (Z.leb_spec n ULONG_MAX); [reflexivity | lia].
Qed.

(** One invocation of [bcrypt_expandstate] on trusted arguments: at
    least one round is run, whatever [max_per_slice] is. *)
Lemma bcrypt_expandstate_spec state csalt key key_len rounds minor logr
    max_per_slice start_index fuel w :
  trusted key key_len rounds minor logr max_per_slice start_index ->
  (Z.to_nat rounds <= fuel)%nat ->
  exists n f r w',
    (1 <= n)%nat
    /\ start_index + Z.of_nat n <= rounds
    /\ bcrypt_expandstate fuel
         (expandstate_argv state csalt key key_len rounds minor logr
                           max_per_slice start_index) w = Some (r, w')
    /\ log w' = log w ++ index start_index
                         :: map index (upto start_index n)
                         ++ [scheduled_nif f]
    /\ invocation_outcome csalt key key_len rounds minor logr
         (unsliced_rounds n (snd (enif_get_string key 1024)) key_len csalt
                          state)
         (start_index + Z.of_nat n) f r.
Proof.
  intros [Hkey Hkey_len Hrounds Hminor Hlogr Hmps Hstart] Hfuel.
  unfold bcrypt_expandstate, expandstate_argv.
  cbn [List.length Nat.eqb negb arg nth enif_inspect_binary].
  destruct (enif_get_string key 1024) as [got_key keybuf].
  cbn [fst snd] in *.
  destruct (Z.eqb_spec got_key 0) as [| _]; [contradiction |].
  rewrite !enif_get_ulong_ok by (unfold ULONG_MAX in *; lia).
  cbv iota beta.
  rewrite (u32_small rounds), (u32_small start_index) by lia.
  unfold bind at 1; rewrite record_run.
  set (end_ := if ulong (start_index + max_per_slice) >? rounds
               then rounds else ulong (start_index + max_per_slice)).
  assert (Hend : end_ <= rounds)
    by (unfold end_;
        destruct (Z.gtb_spec (ulong (start_index + max_per_slice)) rounds);
        lia).
  match goal with
  | |- context [expand_slices fuel fuel ?argv keybuf key_len csalt rounds
                  max_per_slice start_index state start_index end_ 0 ?w1] =>
      destruct (expand_slices_spec rounds argv keybuf key_len csalt
                  max_per_slice start_index fuel Hrounds Hfuel fuel state
                  start_index end_ 0 w1 Hstart Hend ltac:(lia))
        as (n & f & r & w' & Hn & Hbound & Hrun & Hlog & Hout)
  end.
  exists n, f, r, w'.
  conjuncts; [assumption | assumption | exact Hrun | |].
  - rewrite Hlog; cbn [log]; rewrite <- app_assoc; reflexivity.
  - exact Hout.
Qed.

End Expansion.

(** ** Whole runs *)

Section Runs.

Context {blowfish : Blowfish} {host : Host}.

Lemma run_value calls fuel t w :
  run calls fuel (value t) w = Some (value t, w).
Proof. destruct calls; reflexivity. Qed.

Lemma run_add a b r fuel w :
  run (a + b) fuel r w = bind (run a fuel r) (run b fuel) w.
Proof.
  revert r w; induction a as [| a IH]; intros r w; [reflexivity |].
  cbn [Nat.add run].
  destruct r as [| f argv | t].
  - destruct b; reflexivity.
  - unfold bind.
    destruct (call f fuel argv w) as [[r' w'] |]; [| reflexivity].
    rewrite IH; reflexivity.
  - destruct b; reflexivity.
Qed.

(** The expansion reaches the finalization within [rounds - start_index]
    invocations, with the state of the unsliced loop. *)
Lemma run_expansion csalt key key_len rounds minor logr fuel :
  (Z.to_nat rounds <= fuel)%nat ->
  forall remaining state max_per_slice start_index w,
  trusted key key_len rounds minor logr max_per_slice start_index ->
  Z.to_nat (rounds - start_index) = remaining ->
  exists calls es w',
    (1 <= calls <= remaining)%nat
    /\ run calls fuel
         (scheduled NIF_bcrypt_expandstate
            (expandstate_argv state csalt key key_len rounds minor logr
                              max_per_slice start_index)) w =
       Some (scheduled NIF_bcrypt_fini
               (fini_argv
                  (unsliced_rounds remaining (snd (enif_get_string key 1024))
                                   key_len csalt state)
                  csalt minor logr), w')
    /\ log w' = log w ++ es
    /\ expansion_trace rounds start_index es.
Proof.
  intros Hfuel remaining.
  induction remaining as [remaining IH] using lt_wf_ind.
  intros state max_per_slice start_index w Htrusted Hremaining.
  destruct (bcrypt_expandstate_spec state csalt key key_len rounds minor logr
              max_per_slice start_index fuel w Htrusted Hfuel)
    as (n & f & r & w1 & Hn & Hbound & Hrun & Hlog & Hout).
  destruct Hout as [(Hlast & -> & ->) | (Hmore & -> & mps' & Hmps' & ->)].
  - exists 1%nat; do 2 eexists.
    conjuncts; [lia | lia | | exact Hlog | apply trace_final; assumption].
    cbn [run call]. rewrite (bind_Some _ _ _ _ _ Hrun).
    replace remaining with n by lia; reflexivity.
  - assert (Htrusted' : trusted key key_len rounds minor logr mps'
                                (start_index + Z.of_nat n)).
    { destruct Htrusted; constructor; try assumption; lia. }
    destruct (IH (remaining - n)%nat ltac:(lia)
                (unsliced_rounds n (snd (enif_get_string key 1024)) key_len
                                 csalt state)
                mps' (start_index + Z.of_nat n) w1 Htrusted' ltac:(lia))
      as (calls & es & w2 & Hcalls & Hrest & Hlog' & Htrace).
    exists (S calls); do 2 eexists.
    conjuncts; [lia | lia | | | apply trace_yield; eassumption].
    + cbn [run call]. rewrite (bind_Some _ _ _ _ _ Hrun), Hrest.
      rewrite <- unsliced_rounds_add.
      replace (n + (remaining - n))%nat with remaining by lia; reflexivity.
    + rewrite Hlog', Hlog, <- app_assoc; reflexivity.
Qed.

Lemma secure_bzero_all buf :
  secure_bzero buf (List.length buf) = repeat 0 (List.length buf).
Proof.
  unfold secure_bzero.
  destruct buf as [| b buf]; [reflexivity |].
  cbn [List.length]; rewrite Nat.min_id, skipn_all2, app_nil_r by (cbn; lia).
  reflexivity.
Qed.

(** The finalization of an expanded state. *)
Lemma bcrypt_fini_spec state csalt minor logr w :
  0 <= minor <= ULONG_MAX -> 0 <= logr <= ULONG_MAX ->
  exists w',
    bcrypt_fini (fini_argv state csalt minor logr) w =
      Some (value (hash_string state csalt minor logr), w')
    /\ log w' = log w ++ [ released buf_state (repeat 0 (List.length state));
                          released buf_csalt (repeat 0 (List.length csalt)) ].
Proof.
  intros Hminor Hlogr.
  unfold bcrypt_fini, fini_argv, hash_string.
  cbn [List.length Nat.eqb negb arg nth enif_inspect_binary].
  rewrite !enif_get_ulong_ok by assumption.
  destruct (encrypt_magic state) as [cdata ciphertext]; cbn [snd].
  rewrite !secure_bzero_all.
  eexists; split; [reflexivity |].
  cbn [log]; rewrite <- app_assoc; reflexivity.
Qed.

(** A whole run: given enough calls and fuel, the scheduler ends with the
    hash of the unsliced loop. *)
Lemma run_complete state csalt key key_len rounds minor logr max_per_slice
    start_index fuel calls w :
  trusted key key_len rounds minor logr max_per_slice start_index ->
  (Z.to_nat rounds <= fuel)%nat ->
  (Z.to_nat (rounds - start_index) < calls)%nat ->
  exists es w',
    run calls fuel
      (scheduled NIF_bcrypt_expandstate
         (expandstate_argv state csalt key key_len rounds minor logr
                           max_per_slice start_index)) w =
    Some (value
            (hash_string
               (unsliced_rounds (Z.to_nat (rounds - start_index))
                                (snd (enif_get_string key 1024))
                                key_len csalt state)
               csalt minor logr), w')
    /\ expansion_trace rounds start_index es
    /\ log w' = log w ++ es
         ++ [ released buf_state
                (repeat 0 (List.length
                   (unsliced_rounds (Z.to_nat (rounds - start_index))
                                    (snd (enif_get_string key 1024))
                                    key_len csalt state)));
              released buf_csalt (repeat 0 (List.length csalt)) ].
Proof.
  intros Htrusted Hfuel Hcalls.
  destruct (run_expansion csalt key key_len rounds minor logr fuel Hfuel
              _ state max_per_slice start_index w Htrusted eq_refl)
    as (c & es & w1 & Hc & Hrun & Hlog & Htrace).
  destruct (bcrypt_fini_spec
              (unsliced_rounds (Z.to_nat (rounds - start_index))
                               (snd (enif_get_string key 1024))
                               key_len csalt state)
              csalt minor logr w1)
    as (w2 & Hfini & Hlog2);
    [destruct Htrusted; assumption | destruct Htrusted; assumption |].
  exists es, w2.
  conjuncts; [| exact Htrace | rewrite Hlog2, Hlog, <- app_assoc; reflexivity].
  replace calls with (c + (1 + (calls - c - 1)))%nat by lia.
  rewrite run_add, (bind_Some _ _ _ _ _ Hrun), run_add.
  unfold bind at 1; cbn [run call Nat.add].
  rewrite (bind_Some _ _ _ _ _ Hfini).
  apply run_value.
Qed.

End Runs.

(** ** The invariants of the index, read on the events of a run *)

Section Traces.

Lemma indices_app es es' : indices (es ++ es') = indices es ++ indices es'.
Proof. apply flat_map_app. Qed.

Lemma indices_index l : indices (map index l) = l.
Proof.
  induction l as [| k l IH]; [reflexivity |].
  cbn [map indices flat_map app] in *; fold (indices (map index l)).
  rewrite IH; reflexivity.
Qed.

Lemma upto_bounds k n : Forall (fun x => k < x <= k + Z.of_nat n) (upto k n).
Proof.
  revert k; induction n as [| n IH]; intros k; [constructor |].
  cbn [upto]; constructor; [lia |].
  eapply Forall_impl; [| apply IH]; cbv beta; intros; lia.
Qed.

Lemma upto_sorted k n : StronglySorted Z.le (upto k n).
Proof.
  revert k; induction n as [| n IH]; intros k; [constructor |].
  cbn [upto]; constructor; [apply IH |].
  eapply Forall_impl; [| apply upto_bounds]; cbv beta; intros; lia.
Qed.

Lemma upto_last k n : upto k (S n) = upto k n ++ [k + Z.of_nat (S n)].
Proof.
  replace (S n) with (n + 1)%nat at 1 by lia.
  rewrite upto_add; cbn [upto]; do 2 f_equal; lia.
Qed.

Lemma StronglySorted_app_le l l' b :
  StronglySorted Z.le l -> StronglySorted Z.le l' ->
  Forall (fun x => x <= b) l -> Forall (fun x => b <= x) l' ->
  StronglySorted Z.le (l ++ l').
Proof.
  intros Hl Hl' Hb Hb'.
  induction Hl as [| x l Hl IH Hx]; [exact Hl' |].
  cbn [app]; inversion_clear Hb as [| ? ? Hxb Hlb].
  constructor; [apply IH, Hlb |].
  apply Forall_app; split; [exact Hx |].
  eapply Forall_impl; [| exact Hb']; cbv beta; intros; lia.
Qed.

(** The values of [k] that one invocation records. *)
Lemma invocation_indices start n f :
  indices (index start :: map index (upto start n) ++ [scheduled_nif f]) =
  start :: upto start n.
Proof.
  change (indices (index start :: ?l)) with (start :: indices l).
  rewrite indices_app, indices_index; cbn [indices flat_map].
  rewrite app_nil_r; reflexivity.
Qed.

Lemma invocation_sorted start n :
  StronglySorted Z.le (start :: upto start n)
  /\ Forall (fun k => start <= k <= start + Z.of_nat n) (start :: upto start n).
Proof.
  split.
  - constructor; [apply upto_sorted |].
    eapply Forall_impl; [| apply upto_bounds]; cbv beta; intros; lia.
  - constructor; [lia |].
    eapply Forall_impl; [| apply upto_bounds]; cbv beta; intros; lia.
Qed.

Lemma expansion_trace_invariant rounds start es :
  expansion_trace rounds start es -> index_invariant rounds start es.
Proof.
  induction 1 as [start n Hn Hlast | start n es Hn Hmore Htrace IH].
  - destruct (invocation_sorted start n) as [Hsorted Hbounds].
    unfold index_invariant; rewrite invocation_indices.
    conjuncts; [exact Hsorted | |].
    + eapply Forall_impl; [| exact Hbounds]; cbv beta; intros; lia.
    + destruct n as [| n]; [lia |].
      exists (index start :: map index (upto start n)), [].
      conjuncts.
      * rewrite upto_last, map_app, Hlast, <- app_assoc; reflexivity.
      * change (indices (index start :: ?l)) with (start :: indices l).
        rewrite indices_index.
        destruct (invocation_sorted start n) as [_ Hb].
        eapply Forall_impl; [| exact Hb]; cbv beta; intros; lia.
      * cbn [In]; intros [Habs | Habs]; [discriminate |].
        apply in_map_iff in Habs; destruct Habs as (? & ? & _); discriminate.
      * reflexivity.
  - destruct IH as (Hsorted & Hbounds & pre & post & -> & Hpre & Hfini & Hpost).
    destruct (invocation_sorted start n) as [Hsorted1 Hbounds1].
    unfold index_invariant.
    rewrite (indices_app (index start :: _)), invocation_indices.
    conjuncts.
    + apply (StronglySorted_app_le _ _ (start + Z.of_nat n));
        [exact Hsorted1 | exact Hsorted | |].
      * eapply Forall_impl; [| exact Hbounds1]; cbv beta; intros; lia.
      * eapply Forall_impl; [| exact Hbounds]; cbv beta; intros; lia.
    + apply Forall_app; split.
      * eapply Forall_impl; [| exact Hbounds1]; cbv beta; intros; lia.
      * eapply Forall_impl; [| exact Hbounds]; cbv beta; intros; lia.
    + exists ((index start :: map index (upto start n)
               ++ [scheduled_nif NIF_bcrypt_expandstate]) ++ pre), post.
      conjuncts.
      * rewrite <- !app_assoc; reflexivity.
      * rewrite (indices_app (index start :: _)), invocation_indices.
        apply Forall_app; split; [| exact Hpre].
        eapply Forall_impl; [| exact Hbounds1]; cbv beta; intros; lia.
      * intros Habs; apply in_app_or in Habs; destruct Habs as [Habs | Habs];
          [| exact (Hfini Habs)].
        cbn [In] in Habs; destruct Habs as [Habs | Habs]; [discriminate |].
        apply in_app_or in Habs; destruct Habs as [Habs | Habs].
        -- apply in_map_iff in Habs; destruct Habs as (? & ? & _);
             discriminate.
        -- cbn [In] in Habs; destruct Habs as [Habs | []]; discriminate.
      * exact Hpost.
Qed.

End Traces.

Section RunsFromBcrypt.

Context {blowfish : Blowfish} {host : Host}.

(** The same from the call of [bcrypt]: the hash is that of the unsliced
    loop on the state that the initialization made. *)
Lemma bcrypt_run_unsliced argv w f newargv w1 fuel calls :
  bcrypt argv w = Some (scheduled f newargv, w1) ->
  (Z.to_nat (2 ^ rounds_field (saltbuf_of argv)) <= fuel)%nat ->
  (Z.to_nat (2 ^ rounds_field (saltbuf_of argv)) < calls)%nat ->
  exists key_len csalt es w2,
    accepted argv key_len csalt f newargv
    /\ run calls fuel (scheduled f newargv) w1 =
       Some (value
               (unsliced_hash
                  (Blowfish_expandstate Blowfish_initstate csalt 16
                                        (key_of argv) key_len)
                  csalt (arg argv 0) key_len
                  (2 ^ rounds_field (saltbuf_of argv)) (minor_of argv)
                  (rounds_field (saltbuf_of argv)) 0), w2)
    /\ expansion_trace (2 ^ rounds_field (saltbuf_of argv)) 0 es
    /\ exists post, indices post = [] /\ log w2 = log w1 ++ es ++ post.
Proof.
  intros Hbcrypt Hfuel Hcalls.
  destruct (bcrypt_cases argv w)
    as (r & w' & Hrun & [-> | (key_len & csalt & f' & newargv' & -> & Hacc)]);
    rewrite Hbcrypt in Hrun; [discriminate |].
  injection Hrun as <- <- <-.
  assert (Htrusted := accepted_trusted _ _ _ _ _ Hacc).
  destruct (run_complete
              (Blowfish_expandstate Blowfish_initstate csalt 16
                                    (key_of argv) key_len)
              csalt (arg argv 0) key_len
              (2 ^ rounds_field (saltbuf_of argv)) (minor_of argv)
              (rounds_field (saltbuf_of argv)) 25 0 fuel calls w1 Htrusted
              Hfuel ltac:(rewrite Z.sub_0_r; exact Hcalls))
    as (es & w2 & Hrun & Htrace & Hlog).
  exists key_len, csalt, es, w2.
  destruct Hacc as [? ? ? ? ? ? ? -> ->] eqn:E; clear E.
  conjuncts; [constructor; auto | exact Hrun | exact Htrace |].
  eexists; split; [| exact Hlog]; reflexivity.
Qed.

End RunsFromBcrypt.

(** * The claims of the specification *)

(** ** SaltCodec *)

(** C9: for every 16-byte salt, [decode_base64] with expected length 16
    applied to its 22-character encoding returns the 16 bytes (return code
    0), so that encoding the decoded bytes gives the same 22 characters
    again; and, for every expected length, a string with a symbol outside
    the alphabet at one of the positions that the decoder reads (22 of them
    for 16 bytes) makes [decode_base64] fail (return code -1). *)
Theorem salt_round_trip (salt : list Z) :
  List.length salt = 16%nat -> Forall is_byte salt ->
  List.length (encode_base64 salt 16) = 22%nat
  /\ decode_base64 16 (encode_base64 salt 16) = (salt, 0)
  /\ encode_base64 (fst (decode_base64 16 (encode_base64 salt 16))) 16 =
     encode_base64 salt 16
  /\ encoded_length 16 = 22%nat
  /\ forall len b64data i,
       (i < encoded_length len)%nat ->
       in_alphabet (char_at b64data i) = false ->
       snd (decode_base64 len b64data) = -1.
Proof.
  intros Hlen Hbytes.
  conjuncts.
  - apply encode_base64_length.
  - apply decode_encode_base64; assumption.
  - rewrite decode_encode_base64 by assumption; reflexivity.
  - reflexivity.
  - intros len b64data i Hi Hbad.
    apply (decode_base64_rejects len b64data i); assumption.
Qed.

Lemma salt_round_trip_witness :
  let salt := [1; 2; 3; 4; 5; 6; 7; 8; 9; 10; 11; 12; 13; 14; 15; 255] in
  (List.length salt = 16%nat /\ Forall is_byte salt)
  /\ List.length (encode_base64 salt 16) = 22%nat
  /\ decode_base64 16 (encode_base64 salt 16) = (salt, 0)
  /\ encode_base64 (fst (decode_base64 16 (encode_base64 salt 16))) 16 =
     encode_base64 salt 16
  /\ encoded_length 16 = 22%nat
  /\ forall len b64data i,
       (i < encoded_length len)%nat ->
       in_alphabet (char_at b64data i) = false ->
       snd (decode_base64 len b64data) = -1.
Proof.
  intros salt.
  assert (Hlen : List.length salt = 16%nat) by reflexivity.
  assert (Hbytes : Forall is_byte salt)
    by (repeat constructor; unfold is_byte; lia).
  split; [exact (conj Hlen Hbytes) |].
  exact (salt_round_trip salt Hlen Hbytes).
Defined.

(** ** HashIdentifierParser *)

Section ParserClaims.

Context {blowfish : Blowfish} {host : Host}.

(** C7: [bcrypt] returns [badarg] unless the rounds field of the
    identifier string is two ASCII digits followed by a dollar sign, with
    a value from 4 to 31; when it schedules the expansion, it passes that
    value as [logr] and [2 ^ logr] as [rounds], which the engine reads
    back unchanged as a 32-bit number. *)
Theorem rounds_field_checked (argv : list term) (w : world) :
  exists r w',
    bcrypt argv w = Some (r, w')
    /\ (rounds_field_ok (saltbuf_of argv) = false -> r = badarg)
    /\ forall f newargv,
         r = scheduled f newargv ->
         rounds_field_ok (saltbuf_of argv) = true
         /\ 4 <= rounds_field (saltbuf_of argv) <= 31
         /\ arg newargv 6 = ULong (rounds_field (saltbuf_of argv))
         /\ arg newargv 4 = ULong (2 ^ rounds_field (saltbuf_of argv))
         /\ u32 (2 ^ rounds_field (saltbuf_of argv)) =
            2 ^ rounds_field (saltbuf_of argv).
Proof.
  destruct (bcrypt_cases argv w)
    as (r & w' & Hrun & [-> | (key_len & csalt & f & newargv & -> & Hacc)]).
  - exists badarg, w'; conjuncts; [exact Hrun | reflexivity | discriminate].
  - exists (scheduled f newargv), w'.
    destruct Hacc as [_ _ _ _ _ Hok _ _ ->].
    assert (Hrange : 4 <= rounds_field (saltbuf_of argv) <= 31).
    { unfold rounds_field_ok in Hok; rewrite !andb_true_iff in Hok; lia. }
    conjuncts; [exact Hrun | rewrite Hok; discriminate |].
    intros f' newargv' [= <- <-].
    conjuncts; try reflexivity; try lia; [exact Hok |].
    apply u32_small; split; [lia |].
    apply Z.pow_lt_mono_r; lia.
Qed.

(** C2, as the code has it: under minor version ['a'] the key length is
    [strlen(key) + 1] reduced to 8 bits, that is modulo 256, where [key] is
    the copy of the password in a buffer of 1024 bytes, hence of at most
    1023 characters; under ['b'] it is [min(strlen(password), 72) + 1]; any
    other minor character makes [bcrypt] return [badarg]. *)
Theorem key_len_by_minor (argv : list term) (w : world) :
  exists r w',
    bcrypt argv w = Some (r, w')
    /\ (minor_of argv <> ch "a" -> minor_of argv <> ch "b" -> r = badarg)
    /\ forall f newargv,
         r = scheduled f newargv ->
         exists password,
           arg argv 0 = String password
           /\ strlen (key_of argv) = Z.min (strlen password) 1023
           /\ (minor_of argv = ch "a" ->
               arg newargv 3 =
               ULong ((Z.min (strlen password) 1023 + 1) mod 256))
           /\ (minor_of argv = ch "b" ->
               arg newargv 3 = ULong (Z.min (strlen password) 72 + 1)).
Proof.
  destruct (bcrypt_cases argv w)
    as (r & w' & Hrun & [-> | (key_len & csalt & f & newargv & -> & Hacc)]).
  - exists badarg, w'; conjuncts; [exact Hrun | reflexivity | discriminate].
  - exists (scheduled f newargv), w'.
    destruct Hacc as [_ Hkey _ _ Hminor _ _ _ ->].
    conjuncts; [exact Hrun | intros; exfalso; tauto |].
    intros f' newargv' [= <- <-]; cbn [arg nth].
    destruct (strlen_key_of argv Hkey) as (password & Hpassword & Hlen).
    exists password; conjuncts; [exact Hpassword | exact Hlen | |].
    + intros Ha.
      destruct Hminor as [[_ ->] | [Hb _]];
        [rewrite Hlen; reflexivity |].
      exfalso; rewrite Ha in Hb; revert Hb; vm_compute; discriminate.
    + intros Hb.
      destruct Hminor as [[Ha _] | [_ ->]];
        [exfalso; rewrite Hb in Ha; revert Ha; vm_compute; discriminate |].
      rewrite Hlen; do 2 f_equal; lia.
Qed.

End ParserClaims.

(** The claim C2 as stated fails: under ['a'] a password of 255 characters
    has [strlen + 1 = 256], and the key length passed on is 0. *)
Lemma legacy_key_len_wraps :
  let password := String (repeat (ch "x") 255) in
  let argv := [password; String (chars "$2a$04$......................")] in
  minor_of argv = ch "a"
  /\ strlen (key_of argv) + 1 = 256
  /\ exists state csalt w',
       @bcrypt Toy.blowfish (Toy.host 0 true) argv boot =
       Some (scheduled NIF_bcrypt_expandstate
               (expandstate_argv state csalt password 0 16 (ch "a") 4 25 0),
             w').
Proof.
  intros password argv.
  conjuncts; [reflexivity | reflexivity |].
  do 3 eexists; vm_compute; reflexivity.
Qed.

(** ** KeyScheduleEngine *)

Section EngineClaims.

Context {blowfish : Blowfish} {host : Host}.

(** C1: whatever the clock and the scheduler answer, and from any
    [max_per_slice] and any [start_index] below [rounds = 2 ^ logr], the
    scheduled calls of [bcrypt_expandstate] and [bcrypt_fini] end with the
    hash string of the unsliced loop followed by the finalization. *)
Theorem slicing_unobservable (state csalt : list Z) (key : term)
    (key_len minor logr max_per_slice start_index : Z)
    (fuel calls : nat) (w : world) :
  fst (enif_get_string key 1024) <> 0 ->
  0 <= key_len <= ULONG_MAX -> 0 <= minor <= ULONG_MAX ->
  4 <= logr <= 31 ->
  0 <= max_per_slice <= ULONG_MAX -> 0 <= start_index < 2 ^ logr ->
  (Z.to_nat (2 ^ logr) <= fuel)%nat ->
  (Z.to_nat (2 ^ logr - start_index) < calls)%nat ->
  exists w',
    run calls fuel
      (scheduled NIF_bcrypt_expandstate
         (expandstate_argv state csalt key key_len (2 ^ logr) minor logr
                           max_per_slice start_index)) w =
    Some (value (unsliced_hash state csalt key key_len (2 ^ logr) minor logr
                               start_index), w').
Proof.
  intros Hkey Hkey_len Hminor Hlogr Hmps Hstart Hfuel Hcalls.
  assert (Hpow : 2 ^ 4 <= 2 ^ logr <= 2 ^ 31)
    by (split; apply Z.pow_le_mono_r; lia).
  assert (Htrusted : trusted key key_len (2 ^ logr) minor logr max_per_slice
                             start_index)
    by (constructor; unfold ULONG_MAX in *; lia || assumption).
  destruct (run_complete state csalt key key_len (2 ^ logr) minor logr
              max_per_slice start_index fuel calls w Htrusted Hfuel Hcalls)
    as (es & w' & Hrun & _ & _).
  exists w'; exact Hrun.
Qed.

(** C8: in a run that [bcrypt] started, [rounds] is positive and at most
    [2 ^ 31]; the values that [k] takes, in one invocation after the other,
    never decrease and never exceed [rounds]; the finalization is
    scheduled right after [k] became [rounds], every earlier value being
    below [rounds]. *)
Theorem index_bounded_and_monotone (argv : list term) (w : world) (f : nif)
    (newargv : list term) (w1 : world) (fuel calls : nat) :
  bcrypt argv w = Some (scheduled f newargv, w1) ->
  (Z.to_nat (2 ^ rounds_field (saltbuf_of argv)) <= fuel)%nat ->
  (Z.to_nat (2 ^ rounds_field (saltbuf_of argv)) < calls)%nat ->
  let rounds := 2 ^ rounds_field (saltbuf_of argv) in
  0 < rounds <= 2 ^ 31
  /\ arg newargv 4 = ULong rounds
  /\ exists hash es w2,
       run calls fuel (scheduled f newargv) w1 = Some (value hash, w2)
       /\ log w2 = log w1 ++ es
       /\ index_invariant rounds 0 es.
Proof.
  intros Hbcrypt Hfuel Hcalls rounds.
  destruct (bcrypt_run_unsliced argv w f newargv w1 fuel calls Hbcrypt Hfuel
              Hcalls)
    as (key_len & csalt & es & w2 & Hacc & Hrun & Htrace & post & Hpost & Hlog).
  assert (Htrusted := accepted_trusted _ _ _ _ _ Hacc).
  conjuncts.
  - destruct Htrusted; lia.
  - destruct Htrusted; lia.
  - destruct Hacc as [_ _ _ _ _ _ _ _ ->]; reflexivity.
  - do 3 eexists; conjuncts; [exact Hrun | exact Hlog |].
    destruct (expansion_trace_invariant _ _ _ Htrace)
      as (Hsorted & Hbounds & pre & post' & -> & Hpre & Hfini & Hpost').
    unfold index_invariant.
    rewrite indices_app, Hpost, app_nil_r.
    conjuncts; [exact Hsorted | exact Hbounds |].
    exists pre, (post' ++ post).
    conjuncts; [| exact Hpre | exact Hfini |].
    + rewrite <- !app_assoc; reflexivity.
    + rewrite indices_app, Hpost, Hpost'; reflexivity.
Qed.

(** C10: an invocation of [bcrypt_expandstate] with [start_index] below
    [rounds] runs the pair of expansions [n >= 1] times before it returns,
    whatever [max_per_slice] is, zero included: it ends at the index
    [start_index + n], with the finalization scheduled if that is [rounds]
    and a new slice from that index otherwise; and the scheduler reaches
    the finalization within [rounds - start_index] invocations. *)
Theorem expansion_progresses (state csalt : list Z) (key : term)
    (key_len rounds minor logr max_per_slice start_index : Z)
    (fuel : nat) (w : world) :
  trusted key key_len rounds minor logr max_per_slice start_index ->
  (Z.to_nat rounds <= fuel)%nat ->
  (exists n f r w',
     (1 <= n)%nat
     /\ bcrypt_expandstate fuel
          (expandstate_argv state csalt key key_len rounds minor logr
                            max_per_slice start_index) w = Some (r, w')
     /\ invocation_outcome csalt key key_len rounds minor logr
          (unsliced_rounds n (snd (enif_get_string key 1024)) key_len csalt
                           state)
          (start_index + Z.of_nat n) f r)
  /\ exists calls state' w',
       (1 <= calls <= Z.to_nat (rounds - start_index))%nat
       /\ (calls <= Z.to_nat rounds)%nat
       /\ run calls fuel
            (scheduled NIF_bcrypt_expandstate
               (expandstate_argv state csalt key key_len rounds minor logr
                                 max_per_slice start_index)) w =
          Some (scheduled NIF_bcrypt_fini (fini_argv state' csalt minor logr),
                w').
Proof.
  intros Htrusted Hfuel; split.
  - destruct (bcrypt_expandstate_spec state csalt key key_len rounds minor
                logr max_per_slice start_index fuel w Htrusted Hfuel)
      as (n & f & r & w' & Hn & _ & Hrun & _ & Hout).
    exists n, f, r, w'; conjuncts; assumption.
  - destruct (run_expansion csalt key key_len rounds minor logr fuel Hfuel
                _ state max_per_slice start_index w Htrusted eq_refl)
      as (calls & es & w' & Hcalls & Hrun & _ & _).
    exists calls; do 2 eexists; conjuncts; [lia | lia | | exact Hrun].
    destruct Htrusted; lia.
Qed.

End EngineClaims.

Example bcrypt_schedules_expansion :
  @bcrypt Toy.blowfish (Toy.host 0 true) [Run.password; Run.identifier] boot =
  Some (scheduled NIF_bcrypt_expandstate
          (expandstate_argv Run.state Run.csalt Run.password 4 16 (ch "b") 4 25 0),
        {| clock_reads := 0; slice_reports := 0; allocations := 2;
           log := [scheduled_nif NIF_bcrypt_expandstate] |}).
Proof. vm_compute; reflexivity. Qed.

(** One unbroken slice, the slices 3, 5 and 8, and sixteen slices of one
    round give the same string, that of the unRun.sliced loop. *)
Example three_slicings_agree :
  Run.sliced [16] = Run.sliced [3; 5; 8]
  /\ Run.sliced [3; 5; 8] = Run.sliced (repeat 1 16)
  /\ Run.sliced (repeat 1 16) =
     Some (value (@unsliced_hash Toy.blowfish Run.state Run.csalt Run.password 4 16
                                 (ch "b") 4 0)).
Proof. conjuncts; vm_compute; reflexivity. Qed.

Lemma slicing_unobservable_witness :
  (fst (enif_get_string Run.password 1024) <> 0
   /\ 0 <= 4 <= ULONG_MAX /\ 0 <= ch "b" <= ULONG_MAX /\ 4 <= 4 <= 31
   /\ 0 <= 3 <= ULONG_MAX /\ 0 <= 0 < 2 ^ 4
   /\ (Z.to_nat (2 ^ 4) <= 16)%nat /\ (Z.to_nat (2 ^ 4 - 0) < 17)%nat)
  /\ exists w',
       @run Toy.blowfish (Toy.host 300 true) 17 16
         (scheduled NIF_bcrypt_expandstate
            (expandstate_argv Run.state Run.csalt Run.password 4 (2 ^ 4)
                              (ch "b") 4 3 0)) boot =
       Some (value (@unsliced_hash Toy.blowfish Run.state Run.csalt
                      Run.password 4 (2 ^ 4) (ch "b") 4 0), w').
Proof.
  assert (H1 : fst (enif_get_string Run.password 1024) <> 0)
    by (vm_compute; discriminate).
  assert (H2 : 0 <= 4 <= ULONG_MAX) by (unfold ULONG_MAX; lia).
  assert (H3 : 0 <= ch "b" <= ULONG_MAX) by (vm_compute; split; discriminate).
  assert (H4 : 4 <= 4 <= 31) by lia.
  assert (H5 : 0 <= 3 <= ULONG_MAX) by (unfold ULONG_MAX; lia).
  assert (H6 : 0 <= 0 < 2 ^ 4) by lia.
  assert (H7 : (Z.to_nat (2 ^ 4) <= 16)%nat) by (vm_compute; lia).
  assert (H8 : (Z.to_nat (2 ^ 4 - 0) < 17)%nat) by (vm_compute; lia).
  split.
  - exact (conj H1 (conj H2 (conj H3 (conj H4 (conj H5 (conj H6
             (conj H7 H8))))))).
  - exact (@slicing_unobservable Toy.blowfish (Toy.host 300 true) Run.state
             Run.csalt Run.password 4 (ch "b") 4 3 0 16 17 boot
             H1 H2 H3 H4 H5 H6 H7 H8).
Defined.

Lemma index_bounded_and_monotone_witness :
  exists f newargv w1,
    let argv := [Run.password; Run.identifier] in
    let rounds := 2 ^ rounds_field (saltbuf_of argv) in
    (@bcrypt Toy.blowfish (Toy.host 300 true) argv boot =
       Some (scheduled f newargv, w1)
     /\ (Z.to_nat rounds <= 16)%nat /\ (Z.to_nat rounds < 17)%nat)
    /\ 0 < rounds <= 2 ^ 31
    /\ arg newargv 4 = ULong rounds
    /\ exists hash es w2,
         @run Toy.blowfish (Toy.host 300 true) 17 16 (scheduled f newargv) w1 =
           Some (value hash, w2)
         /\ log w2 = log w1 ++ es
         /\ index_invariant rounds 0 es.
Proof.
  do 3 eexists; intros argv rounds.
  assert (H1 : @bcrypt Toy.blowfish (Toy.host 300 true) argv boot =
               Some (scheduled NIF_bcrypt_expandstate
                       (expandstate_argv Run.state Run.csalt Run.password 4 16
                                         (ch "b") 4 25 0),
                     {| clock_reads := 0; slice_reports := 0; allocations := 2;
                        log := [scheduled_nif NIF_bcrypt_expandstate] |}))
    by (vm_compute; reflexivity).
  assert (H2 : (Z.to_nat rounds <= 16)%nat) by (vm_compute; lia).
  assert (H3 : (Z.to_nat rounds < 17)%nat) by (vm_compute; lia).
  split.
  - exact (conj H1 (conj H2 H3)).
  - exact (@index_bounded_and_monotone Toy.blowfish (Toy.host 300 true) argv
             boot _ _ _ 16 17 H1 H2 H3).
Defined.

Lemma expansion_progresses_witness :
  trusted Run.password 4 16 (ch "b") 4 0 0
  /\ (Z.to_nat 16 <= 16)%nat
  /\ (exists n f r w',
        (1 <= n)%nat
        /\ @bcrypt_expandstate Toy.blowfish (Toy.host 300 true) 16
             (expandstate_argv Run.state Run.csalt Run.password 4 16 (ch "b")
                               4 0 0) boot = Some (r, w')
        /\ invocation_outcome Run.csalt Run.password 4 16 (ch "b") 4
             (@unsliced_rounds Toy.blowfish n
                (snd (enif_get_string Run.password 1024)) 4 Run.csalt
                Run.state)
             (0 + Z.of_nat n) f r)
  /\ exists calls state' w',
       (1 <= calls <= Z.to_nat (16 - 0))%nat
       /\ (calls <= Z.to_nat 16)%nat
       /\ @run Toy.blowfish (Toy.host 300 true) calls 16
            (scheduled NIF_bcrypt_expandstate
               (expandstate_argv Run.state Run.csalt Run.password 4 16
                                 (ch "b") 4 0 0)) boot =
          Some (scheduled NIF_bcrypt_fini
                  (fini_argv state' Run.csalt (ch "b") 4), w').
Proof.
  assert (H1 : trusted Run.password 4 16 (ch "b") 4 0 0).
  { constructor; unfold ULONG_MAX; try lia.
    - vm_compute; discriminate.
    - vm_compute; split; discriminate. }
  assert (H2 : (Z.to_nat 16 <= 16)%nat) by (vm_compute; lia).
  split; [exact H1 |].
  split; [exact H2 |].
  exact (@expansion_progresses Toy.blowfish (Toy.host 300 true) Run.state
           Run.csalt Run.password 4 16 (ch "b") 4 0 0 16 boot H1 H2).
Defined.

(** ** Adaptive timing *)

(** C5: with [completed = k - start_index] and [m = total / 100] (the
    integer division of C), [adjust_max_per_slice] returns [completed] when
    [m = 0], [completed - completed * (total - 100) / 100] when [m = 1],
    and [completed / m] when [m >= 2]; [completed] is an [int], and so is
    the product in the second case. *)
Theorem adjust_max_per_slice_rule (max_per_slice total k start_index : Z) :
  0 <= start_index <= k -> k - start_index <= INT_MAX ->
  let completed := k - start_index in
  let m := Z.quot total 100 in
  (m = 0 ->
   adjust_max_per_slice max_per_slice total k start_index = completed)
  /\ (m = 1 -> completed * (total - 100) <= INT_MAX ->
      adjust_max_per_slice max_per_slice total k start_index =
        completed - completed * (total - 100) / 100)
  /\ (2 <= m ->
      adjust_max_per_slice max_per_slice total k start_index = completed / m).
Proof.
  intros Hk Hmax completed m; subst completed m.
  conjuncts.
  - apply adjust_max_per_slice_m0; assumption.
  - apply adjust_max_per_slice_m1; assumption.
  - apply adjust_max_per_slice_m2; assumption.
Qed.

Lemma adjust_max_per_slice_rule_witness :
  (0 <= 10 <= 50 /\ 50 - 10 <= INT_MAX)
  /\ adjust_max_per_slice 25 60 50 10 = 40
  /\ adjust_max_per_slice 25 150 50 10 = 40 - 40 * (150 - 100) / 100
  /\ adjust_max_per_slice 25 150 50 10 = 20
  /\ adjust_max_per_slice 25 300 50 10 = 40 / 3.
Proof.
  assert (H1 : 0 <= 10 <= 50) by lia.
  assert (H2 : 50 - 10 <= INT_MAX) by (unfold INT_MAX; lia).
  split; [split; assumption |].
  conjuncts.
  - apply (adjust_max_per_slice_rule 25 60 50 10 H1 H2); reflexivity.
  - apply (adjust_max_per_slice_rule 25 150 50 10 H1 H2);
      [reflexivity | unfold INT_MAX; lia].
  - reflexivity.
  - apply (adjust_max_per_slice_rule 25 300 50 10 H1 H2); vm_compute;
      discriminate.
Defined.

(** C4, as the code has it: [adjust_max_per_slice] applies no floor.  For
    the inputs of a run ([k > start_index], a total that is not negative)
    the new [max_per_slice] is at least 1 exactly when [total / 100] is at
    most the number [k - start_index] of completed rounds, hence whenever
    the total is below 200; otherwise it is 0. *)
Theorem adjust_max_per_slice_floor (max_per_slice total k start_index : Z) :
  0 <= start_index < k -> k - start_index <= INT_MAX -> 0 <= total ->
  (Z.quot total 100 = 1 -> (k - start_index) * (total - 100) <= INT_MAX) ->
  (1 <= adjust_max_per_slice max_per_slice total k start_index
   <-> Z.quot total 100 <= k - start_index)
  /\ (total < 200 ->
      1 <= adjust_max_per_slice max_per_slice total k start_index)
  /\ (k - start_index < Z.quot total 100 ->
      adjust_max_per_slice max_per_slice total k start_index = 0).
Proof.
  intros Hk Hmax Htotal Hprod.
  assert (Hm : 0 <= Z.quot total 100) by (apply Z.quot_pos; lia).
  assert (Hcases : Z.quot total 100 = 0 \/ Z.quot total 100 = 1
                   \/ 2 <= Z.quot total 100) by lia.
  assert (Hlt : total < 200 -> Z.quot total 100 < 2).
  { intros H; apply Z.quot_lt_upper_bound; lia. }
  destruct Hcases as [H0 | [H1 | H2]].
  - rewrite adjust_max_per_slice_m0 by (assumption || lia).
    rewrite H0; conjuncts; lia.
  - rewrite adjust_max_per_slice_m1 by (auto; lia).
    rewrite H1.
    assert (Hr := quot_100_is_1 total H1).
    assert (Hq : (k - start_index) * (total - 100) / 100 < k - start_index)
      by (apply Z.div_lt_upper_bound; nia).
    conjuncts; lia.
  - rewrite adjust_max_per_slice_m2 by (assumption || lia).
    set (c := k - start_index) in *.
    set (m := Z.quot total 100) in *.
    conjuncts.
    + split; intros H.
      * destruct (Z.le_gt_cases m c) as [| Hgt]; [assumption |].
        rewrite Z.div_small in H by lia; lia.
      * apply Z.div_le_lower_bound; lia.
    + intros H; specialize (Hlt H); lia.
    + intros H; apply Z.div_small; lia.
Qed.

Lemma adjust_max_per_slice_floor_witness :
  (0 <= 0 < 25 /\ 25 - 0 <= INT_MAX /\ 0 <= 150
   /\ (Z.quot 150 100 = 1 -> (25 - 0) * (150 - 100) <= INT_MAX))
  /\ (1 <= adjust_max_per_slice 25 150 25 0 <-> Z.quot 150 100 <= 25 - 0)
  /\ (150 < 200 -> 1 <= adjust_max_per_slice 25 150 25 0)
  /\ (25 - 0 < Z.quot 150 100 -> adjust_max_per_slice 25 150 25 0 = 0).
Proof.
  assert (H1 : 0 <= 0 < 25) by lia.
  assert (H2 : 25 - 0 <= INT_MAX) by (unfold INT_MAX; lia).
  assert (H3 : 0 <= 150) by lia.
  assert (H4 : Z.quot 150 100 = 1 -> (25 - 0) * (150 - 100) <= INT_MAX)
    by (intros _; unfold INT_MAX; lia).
  split; [exact (conj H1 (conj H2 (conj H3 H4))) |].
  exact (adjust_max_per_slice_floor 25 150 25 0 H1 H2 H3 H4).
Defined.

(** The claim C4 as stated fails on the first dispatch already: 25 rounds
    that took 26 milliseconds give a total of 2600, and the next
    [max_per_slice] is [25 / 26 = 0]. *)
Lemma adjust_max_per_slice_reaches_zero :
  0 < 25
  /\ ~ 1 <= adjust_max_per_slice 25 2600 25 0
  /\ exists state w',
       @bcrypt_expandstate Toy.blowfish (Toy.host 26000 true) 32
         (expandstate_argv (@Blowfish_initstate Toy.blowfish) (repeat 0 16)
                           (String (chars "abc")) 4 32 98 5 25 0) boot =
       Some (scheduled NIF_bcrypt_expandstate
               (expandstate_argv state (repeat 0 16) (String (chars "abc"))
                                 4 32 98 5 0 25), w').
Proof.
  conjuncts; [lia | vm_compute; intros H; apply H; reflexivity |].
  do 2 eexists; vm_compute; reflexivity.
Qed.

(** C6, as the code has it: for times as [gettimeofday] gives them, a
    stop time that is not before the start time, an elapsed time whose
    tenth is an [int] and a running total that stays an [int] when the
    tenth is added to it, [calc_percent] returns the elapsed microseconds
    divided by 10, clamped to the range from 1 to 100, and adds to the
    running total the same quotient before it is clamped. *)
Theorem calc_percent_unclamped_total (total : Z) (start stop : timeval) :
  timeval_ok start -> timeval_ok stop ->
  0 <= elapsed start stop ->
  elapsed start stop / 10 <= INT_MAX ->
  - 2 ^ 31 <= total + elapsed start stop / 10 <= INT_MAX ->
  fst (calc_percent total start stop) = clamp 1 100 (elapsed start stop / 10)
  /\ 1 <= fst (calc_percent total start stop) <= 100
  /\ snd (calc_percent total start stop) = total + elapsed start stop / 10.
Proof.
  intros Hstart Hstop Hpos Hpct Htotal.
  unfold calc_percent.
  rewrite (timersub_elapsed _ _ Hstart Hstop).
  rewrite Z.quot_div_nonneg by lia.
  assert (Hq : 0 <= elapsed start stop / 10) by (apply Z.div_pos; lia).
  rewrite (int_small (elapsed start stop / 10)) by lia.
  rewrite (int_small (total + elapsed start stop / 10)) by exact Htotal.
  cbn [fst snd]; unfold clamp.
  destruct (Z.gtb_spec (elapsed start stop / 10) 100);
    destruct (Z.eqb_spec (elapsed start stop / 10) 0); conjuncts; lia.
Qed.

Lemma calc_percent_unclamped_total_witness :
  let start := {| tv_sec := 7; tv_usec := 999000 |} in
  let stop := {| tv_sec := 8; tv_usec := 4000 |} in
  (timeval_ok start /\ timeval_ok stop /\ 0 <= elapsed start stop
   /\ elapsed start stop / 10 <= INT_MAX
   /\ - 2 ^ 31 <= 30 + elapsed start stop / 10 <= INT_MAX)
  /\ fst (calc_percent 30 start stop) = clamp 1 100 (elapsed start stop / 10)
  /\ 1 <= fst (calc_percent 30 start stop) <= 100
  /\ snd (calc_percent 30 start stop) = 30 + elapsed start stop / 10.
Proof.
  intros start stop.
  assert (H1 : timeval_ok start) by (unfold timeval_ok; cbn; lia).
  assert (H2 : timeval_ok stop) by (unfold timeval_ok; cbn; lia).
  assert (H3 : 0 <= elapsed start stop) by (vm_compute; discriminate).
  assert (H4 : elapsed start stop / 10 <= INT_MAX)
    by (vm_compute; discriminate).
  assert (H5 : - 2 ^ 31 <= 30 + elapsed start stop / 10 <= INT_MAX)
    by (vm_compute; split; discriminate).
  split; [exact (conj H1 (conj H2 (conj H3 (conj H4 H5)))) |].
  exact (calc_percent_unclamped_total 30 start stop H1 H2 H3 H4 H5).
Defined.

(** The claim C6 as stated fails: after 5000 microseconds the value
    returned is 100 and the total has grown by 500; a clock that went
    back gives a negative value; and so does a stop time 30000 seconds
    after the start, whose tenth in microseconds is no [int]. *)
Lemma calc_percent_total_not_clamped :
  calc_percent 0 {| tv_sec := 0; tv_usec := 0 |}
                 {| tv_sec := 0; tv_usec := 5000 |} = (100, 500)
  /\ calc_percent 0 {| tv_sec := 9; tv_usec := 0 |}
                    {| tv_sec := 8; tv_usec := 999000 |} = (-100, -100)
  /\ calc_percent 0 {| tv_sec := 0; tv_usec := 0 |}
                    {| tv_sec := 30000; tv_usec := 0 |}
     = (-1294967296, -1294967296).
Proof. conjuncts; reflexivity. Qed.

(** ** SecureErase *)

(** C3 fails on the path [inval_release_csalt] of [bcrypt]: with an
    identifier whose salt has a symbol outside the alphabet at its last
    position, the 15 bytes decoded before it are in [csalt] when
    [enif_release_binary] is called, and no [secure_bzero] came before. *)
Theorem csalt_released_with_decoded_salt :
  exists w',
    @bcrypt Toy.blowfish (Toy.host 0 true)
      [String (chars "abc"); String (chars "$2b$04$abcdefghijklmnopqrstu!")]
      boot = Some (badarg, w')
    /\ log w' = [ released buf_csalt
                    [113; 215; 159; 130; 24; 163; 146; 89; 167; 162; 154;
                     171; 178; 219; 175; 0] ]
    /\ zeroed_at_release (log w') = false.
Proof. eexists; conjuncts; vm_compute; reflexivity. Qed.

(** * Further properties of the code *)

(** ** The codec, for every length *)

Section CodecAnyLength.

Lemma u8_byte z : is_byte (u8 z).
Proof. unfold is_byte, u8; apply Z.mod_pos_bound; lia. Qed.

Lemma nth_byte data i : Forall is_byte data -> is_byte (nth i data 0).
Proof.
  intros H; destruct (Nat.lt_ge_cases i (List.length data)) as [Hi | Hi].
  - rewrite Forall_forall in H; apply H, nth_In, Hi.
  - rewrite nth_overflow by exact Hi; unfold is_byte; lia.
Qed.

Lemma Forall_skipn {A : Type} (P : A -> Prop) n l :
  Forall P l -> Forall P (skipn n l).
Proof.
  revert l; induction n as [| n IH]; intros l H; [exact H |].
  destruct l as [| a l]; [constructor |].
  inversion_clear H; cbn [skipn]; auto.
Qed.

Lemma Base64_in_alphabet s : 0 <= s < 64 -> in_alphabet (Base64 s) = true.
Proof.
  intros H.
  apply (forallb_below (fun s => in_alphabet (Base64 s)) 64);
    [vm_compute; reflexivity | lia].
Qed.

Lemma in_alphabet_valid c : in_alphabet c = true -> (CHAR64 c =? 255) = false.
Proof.
  unfold in_alphabet; intros H.
  apply existsb_exists in H; destruct H as (x & Hx & Hc).
  apply Z.eqb_eq in Hc; subst x.
  assert (Hall : forallb (fun x => negb (CHAR64 x =? 255)) Base64Code = true)
    by (vm_compute; reflexivity).
  rewrite forallb_forall in Hall; specialize (Hall c Hx).
  apply negb_true_iff in Hall; exact Hall.
Qed.

Lemma in_alphabet_not_nul c : in_alphabet c = true -> c <> 0.
Proof. intros H ->; discriminate H. Qed.

Lemma encoded_length_step n :
  encoded_length (3 + n) = (4 + encoded_length n)%nat.
Proof.
  unfold encoded_length.
  replace (4 * (3 + n) + 2)%nat with ((4 * n + 2) + 4 * 3)%nat by lia.
  rewrite Nat.div_add by lia; lia.
Qed.

Lemma last_sextets a b :
  is_byte a -> is_byte b ->
  0 <= u8 (Z.shiftl (Z.land a 3) 4) < 64
  /\ 0 <= u8 (Z.shiftl (Z.land b 15) 2) < 64.
Proof.
  intros Ha Hb; split; [apply (last_of_one a Ha) | apply (last_of_two b Hb)].
Qed.

(** Every symbol that [encode_base64] stores is one of the alphabet. *)
Lemma encode_base64_alphabet n :
  forall data, Forall is_byte data ->
  Forall (fun c => in_alphabet c = true) (encode_base64 data n).
Proof.
  induction n as [| | | n IH] using nat_ind3; intros data Hbytes.
  - constructor.
  - cbn [encode_base64].
    assert (Ha := nth_byte data 0 Hbytes).
    repeat constructor; apply Base64_in_alphabet;
      [apply sextet1, Ha | apply (last_of_one _ Ha)].
  - cbn [encode_base64].
    assert (Ha := nth_byte data 0 Hbytes).
    assert (Hb := nth_byte data 1 Hbytes).
    repeat constructor; apply Base64_in_alphabet;
      [apply sextet1, Ha | apply (sextet2_range _ _ Ha Hb)
       | apply (last_of_two _ Hb)].
  - cbn [encode_base64 Nat.add].
    assert (Ha := nth_byte data 0 Hbytes).
    assert (Hb := nth_byte data 1 Hbytes).
    assert (Hc := nth_byte data 2 Hbytes).
    repeat (apply Forall_cons);
      [apply Base64_in_alphabet, sextet1, Ha
      | apply Base64_in_alphabet, (sextet2_range _ _ Ha Hb)
      | apply Base64_in_alphabet, (sextet3_range _ _ Hb Hc)
      | apply Base64_in_alphabet, sextet4_range
      | apply IH, Forall_skipn, Hbytes].
Qed.

(** [decode_base64] looks at the first [encoded_length len] symbols
    only. *)
Lemma decode_base64_prefix n :
  forall p q,
  (forall i, (i < encoded_length n)%nat -> char_at p i = char_at q i) ->
  decode_base64 n p = decode_base64 n q.
Proof.
  induction n as [| | | n IH] using nat_ind3; intros p q Hpq.
  - reflexivity.
  - change (encoded_length 1) with 2%nat in Hpq.
    cbn [decode_base64]; rewrite !(Hpq 0%nat), !(Hpq 1%nat) by lia.
    reflexivity.
  - change (encoded_length 2) with 3%nat in Hpq.
    cbn [decode_base64];
      rewrite !(Hpq 0%nat), !(Hpq 1%nat), !(Hpq 2%nat) by lia.
    reflexivity.
  - rewrite encoded_length_step in Hpq.
    cbn [decode_base64 Nat.add].
    rewrite !(Hpq 0%nat), !(Hpq 1%nat), !(Hpq 2%nat), !(Hpq 3%nat) by lia.
    rewrite (IH (skipn 4 p) (skipn 4 q)); [reflexivity |].
    intros i Hi; rewrite !char_at_skipn; apply Hpq; lia.
Qed.

Lemma char_at_app_l p q i :
  (i < List.length p)%nat -> char_at (p ++ q) i = char_at p i.
Proof. intros H; unfold char_at; apply app_nth1, H. Qed.

(** The bytes that [decode_base64] stores are bytes, and there are [len]
    of them exactly when it returns 0. *)
Lemma decode_base64_bytes n :
  forall p,
  Forall is_byte (fst (decode_base64 n p))
  /\ (snd (decode_base64 n p) = 0 \/ snd (decode_base64 n p) = -1)
  /\ (snd (decode_base64 n p) = -1 ->
      (List.length (fst (decode_base64 n p)) < n)%nat).
Proof.
  induction n as [| | | n IH] using nat_ind3; intros p;
    cbn [decode_base64 Nat.add].
  - conjuncts; [constructor | left; reflexivity | discriminate].
  - repeat match goal with
           | |- context [if ?c then _ else _] => destruct c
           end; cbn [fst snd List.length];
      (conjuncts; [repeat constructor; apply u8_byte | auto | intros; lia]).
  - repeat match goal with
           | |- context [if ?c then _ else _] => destruct c
           end; cbn [fst snd List.length];
      (conjuncts; [repeat constructor; apply u8_byte | auto | intros; lia]).
  - repeat match goal with
           | |- context [if ?c then _ else _] => destruct c
           end; cbn [fst snd List.length];
      try (conjuncts; [repeat constructor; apply u8_byte | auto | intros; lia]).
    specialize (IH (skipn 4 p)).
    destruct (decode_base64 n (skipn 4 p)) as [rest rc]; cbn [fst snd] in *.
    destruct IH as (Hb & Hrc & Hlen).
    cbn [List.length]; conjuncts;
      [repeat (apply Forall_cons; [apply u8_byte |]); exact Hb
      | exact Hrc | intros H; specialize (Hlen H); lia].
Qed.

(** [decode_base64] returns 0 when all the symbols it reads are of the
    alphabet. *)
Lemma decode_base64_accepts n :
  forall p,
  (forall i, (i < encoded_length n)%nat -> in_alphabet (char_at p i) = true) ->
  snd (decode_base64 n p) = 0.
Proof.
  induction n as [| | | n IH] using nat_ind3; intros p Hp.
  - reflexivity.
  - change (encoded_length 1) with 2%nat in Hp.
    cbn [decode_base64].
    rewrite !(in_alphabet_valid _ (Hp 0%nat ltac:(lia))).
    rewrite !(in_alphabet_valid _ (Hp 1%nat ltac:(lia))).
    reflexivity.
  - change (encoded_length 2) with 3%nat in Hp.
    cbn [decode_base64].
    rewrite !(in_alphabet_valid _ (Hp 0%nat ltac:(lia))).
    rewrite !(in_alphabet_valid _ (Hp 1%nat ltac:(lia))).
    rewrite !(in_alphabet_valid _ (Hp 2%nat ltac:(lia))).
    reflexivity.
  - rewrite encoded_length_step in Hp.
    cbn [decode_base64 Nat.add].
    rewrite !(in_alphabet_valid _ (Hp 0%nat ltac:(lia))).
    rewrite !(in_alphabet_valid _ (Hp 1%nat ltac:(lia))).
    rewrite !(in_alphabet_valid _ (Hp 2%nat ltac:(lia))).
    rewrite !(in_alphabet_valid _ (Hp 3%nat ltac:(lia))).
    specialize (IH (skipn 4 p)).
    destruct (decode_base64 n (skipn 4 p)) as [rest rc]; cbn [snd] in *.
    apply IH; intros i Hi; rewrite char_at_skipn; apply Hp; lia.
Qed.

End CodecAnyLength.

Lemma strlen_symbols l rest :
  Forall (fun c => c <> 0) l ->
  strlen (l ++ 0 :: rest) = Z.of_nat (List.length l).
Proof.
  induction 1 as [| c l Hc _ IH]; [reflexivity |].
  cbn [app strlen List.length].
  destruct (Z.eqb_spec c 0); [contradiction | rewrite IH; lia].
Qed.

Lemma encode_base64_not_nul data len :
  Forall is_byte data -> Forall (fun c => c <> 0) (encode_base64 data len).
Proof.
  intros H; eapply Forall_impl; [| apply encode_base64_alphabet, H].
  apply in_alphabet_not_nul.
Qed.

(** A salt of 16 bytes is read back from its encoding, whatever follows
    it. *)
Lemma decode_salt_followed csalt tail :
  List.length csalt = 16%nat -> Forall is_byte csalt ->
  decode_base64 16 (encode_base64 csalt 16 ++ tail) = (csalt, 0).
Proof.
  intros Hlen Hbytes.
  rewrite (decode_base64_prefix 16 _ (encode_base64 csalt 16)).
  - apply decode_encode_base64; [exact Hlen | exact Hbytes].
  - intros i Hi.
    apply char_at_app_l; rewrite encode_base64_length; exact Hi.
Qed.

Lemma decode_base64_ok_iff len b64data :
  snd (decode_base64 len b64data) = 0 <->
  forall i, (i < encoded_length len)%nat ->
            in_alphabet (char_at b64data i) = true.
Proof.
  split; [| apply decode_base64_accepts].
  intros Hok i Hi.
  destruct (in_alphabet (char_at b64data i)) eqn:Hin; [reflexivity |].
  rewrite (decode_base64_rejects len b64data i Hi Hin) in Hok.
  discriminate.
Qed.

(** X1: for data of any length, made of bytes, [decode_base64] applied to
    what [encode_base64] stored returns the data and the code 0, whatever
    follows the encoding in the string. *)
Theorem base64_round_trip (data tail : list Z) :
  Forall is_byte data ->
  decode_base64 (List.length data)
                (encode_base64 data (List.length data) ++ tail) = (data, 0).
Proof.
  intros Hbytes.
  transitivity (decode_base64 (List.length data)
                              (encode_base64 data (List.length data))).
  - apply decode_base64_prefix; intros i Hi.
    apply char_at_app_l; rewrite encode_base64_length; exact Hi.
  - apply decode_encode_base64; [reflexivity | exact Hbytes].
Qed.

Lemma base64_round_trip_witness :
  Forall is_byte [255; 0; 128; 7; 64]
  /\ decode_base64 (List.length [255; 0; 128; 7; 64])
       (encode_base64 [255; 0; 128; 7; 64] (List.length [255; 0; 128; 7; 64])
        ++ chars "$tail") = ([255; 0; 128; 7; 64], 0).
Proof.
  assert (H : Forall is_byte [255; 0; 128; 7; 64])
    by (repeat constructor; unfold is_byte; lia).
  split; [exact H |].
  exact (base64_round_trip [255; 0; 128; 7; 64] (chars "$tail") H).
Defined.

(** X2: [decode_base64] returns 0 exactly when the [encoded_length len]
    symbols it reads are all of the alphabet, and -1 otherwise; what it
    stores are bytes, [len] of them on success and fewer on failure. *)
Theorem decode_base64_succeeds_iff (len : nat) (b64data : list Z) :
  (snd (decode_base64 len b64data) = 0 <->
   forall i, (i < encoded_length len)%nat ->
             in_alphabet (char_at b64data i) = true)
  /\ (snd (decode_base64 len b64data) <> 0 ->
      snd (decode_base64 len b64data) = -1
      /\ (List.length (fst (decode_base64 len b64data)) < len)%nat)
  /\ (snd (decode_base64 len b64data) = 0 ->
      List.length (fst (decode_base64 len b64data)) = len)
  /\ Forall is_byte (fst (decode_base64 len b64data)).
Proof.
  destruct (decode_base64_bytes len b64data) as (Hbytes & Hrc & Hshort).
  conjuncts.
  - apply decode_base64_ok_iff.
  - intros Hfail; destruct Hrc as [H0 | H1]; [contradiction |].
    split; [exact H1 | exact (Hshort H1)].
  - apply decode_base64_length.
  - exact Hbytes.
Qed.

(** X3: the symbols that [encode_base64] stores for bytes are of the
    alphabet, so none is a NUL: the C string it leaves has
    [encoded_length len] characters, and [decode_base64] accepts it. *)
Theorem encode_base64_symbols (data : list Z) (len : nat) (rest : list Z) :
  Forall is_byte data ->
  Forall (fun c => in_alphabet c = true) (encode_base64 data len)
  /\ strlen (encode_base64 data len ++ 0 :: rest)
     = Z.of_nat (encoded_length len)
  /\ snd (decode_base64 len (encode_base64 data len ++ 0 :: rest)) = 0.
Proof.
  intros Hbytes.
  assert (Hsym := encode_base64_alphabet len data Hbytes).
  conjuncts.
  - exact Hsym.
  - rewrite strlen_symbols by (apply encode_base64_not_nul, Hbytes).
    rewrite encode_base64_length; reflexivity.
  - apply decode_base64_accepts; intros i Hi.
    rewrite char_at_app_l by (rewrite encode_base64_length; exact Hi).
    rewrite Forall_forall in Hsym; apply Hsym.
    apply nth_In; rewrite encode_base64_length; exact Hi.
Qed.

Lemma encode_base64_symbols_witness :
  Forall is_byte [1; 2; 3; 250]
  /\ Forall (fun c => in_alphabet c = true) (encode_base64 [1; 2; 3; 250] 4)
  /\ strlen (encode_base64 [1; 2; 3; 250] 4 ++ 0 :: [7])
     = Z.of_nat (encoded_length 4)
  /\ snd (decode_base64 4 (encode_base64 [1; 2; 3; 250] 4 ++ 0 :: [7])) = 0.
Proof.
  assert (H : Forall is_byte [1; 2; 3; 250])
    by (repeat constructor; unfold is_byte; lia).
  split; [exact H |].
  exact (encode_base64_symbols [1; 2; 3; 250] 4 [7] H).
Defined.

(** X4: [decode_base64] depends on the first [encoded_length len]
    symbols only: two strings that agree on them give the same bytes and
    the same return code. *)
Theorem decode_base64_reads_prefix (len : nat) (p q : list Z) :
  firstn (encoded_length len) p = firstn (encoded_length len) q ->
  decode_base64 len p = decode_base64 len q.
Proof.
  intros Heq; apply decode_base64_prefix; intros i Hi.
  unfold char_at.
  rewrite <- (firstn_skipn (encoded_length len) p).
  rewrite <- (firstn_skipn (encoded_length len) q).
  rewrite Heq.
  destruct (Nat.lt_ge_cases i
              (List.length (firstn (encoded_length len) q))) as [Hin | Hout].
  - rewrite !app_nth1 by exact Hin; reflexivity.
  - (* both strings end before position [i] *)
    assert (Hq : (List.length q < encoded_length len)%nat).
    { rewrite length_firstn in Hout; lia. }
    assert (Hp : List.length p = List.length q).
    { assert (H := f_equal (@List.length Z) Heq).
      rewrite !length_firstn in H; lia. }
    rewrite !app_nth2 by exact Hout.
    rewrite !nth_overflow; [reflexivity | |];
      rewrite length_skipn; lia.
Qed.

Lemma decode_base64_reads_prefix_witness :
  firstn (encoded_length 3) (chars "abcdXYZ")
    = firstn (encoded_length 3) (chars "abcd!!")
  /\ decode_base64 3 (chars "abcdXYZ") = decode_base64 3 (chars "abcd!!").
Proof.
  assert (H : firstn (encoded_length 3) (chars "abcdXYZ")
              = firstn (encoded_length 3) (chars "abcd!!")) by reflexivity.
  split; [exact H |].
  exact (decode_base64_reads_prefix 3 _ _ H).
Defined.

(** ** The outcomes of [bcrypt] *)

Section BcryptOutcomes.

Context {blowfish : Blowfish} {host : Host}.

Lemma after_nothing w :
  {| clock_reads := clock_reads w; slice_reports := slice_reports w;
     allocations := S (allocations w); log := log w |} = after 1 [] w.
Proof. unfold after; rewrite app_nil_r; reflexivity. Qed.

Ltac falsify_header :=
  repeat match goal with
         | H : _ = true |- _ => rewrite H
         | H : _ = false |- _ => rewrite H
         end;
  cbn [andb orb negb]; rewrite ?andb_false_r; reflexivity.

Ltac refused :=
  do 2 eexists; split; [reflexivity |];
  left; conjuncts; [falsify_header | reflexivity | reflexivity].

Lemma bcrypt_spec argv w :
  exists r w', bcrypt argv w = Some (r, w') /\ bcrypt_outcome argv w r w'.
Proof.
  unfold bcrypt_outcome, header_ok, bcrypt, minor_of, saltbuf_of,
    rounds_field_ok.
  rewrite (Z.leb_antisym (rounds_field _) 4), (Z.leb_antisym 31).
  destruct (List.length argv =? 2)%nat eqn:Hargc; cbn [negb]; [| refused].
  destruct (enif_get_string (arg argv 0) 1024) as [got_key key] eqn:Hkey.
  cbn [fst snd].
  destruct (got_key =? 0) eqn:Hgot; [refused |].
  destruct (enif_get_string (arg argv 1) 1024) as [got_salt saltbuf] eqn:Hsalt.
  cbn [fst snd].
  destruct (got_salt =? 0) eqn:Hgot'; [refused |].
  rewrite !skipn_skipn, !char_at_skipn; cbn [Nat.add].
  destruct (char_at saltbuf 0 =? ch "$") eqn:Hdollar; cbn [negb]; [| refused].
  destruct (char_at saltbuf 1 =? BCRYPT_VERSION) eqn:Hversion; cbn [negb];
    [| refused].
  match goal with
  | |- context [match ?m with Some _ => _ | None => enif_make_badarg end] =>
      destruct m as [key_len |] eqn:Hminor
  end.
  2: { assert (Hab : (u8 (char_at saltbuf 2) =? ch "a")
                     || (u8 (char_at saltbuf 2) =? ch "b") = false).
       { destruct (u8 (char_at saltbuf 2) =? ch "a"); [discriminate |].
         destruct (u8 (char_at saltbuf 2) =? ch "b"); [discriminate |].
         reflexivity. }
       refused. }
  assert (Hab : (u8 (char_at saltbuf 2) =? ch "a")
                || (u8 (char_at saltbuf 2) =? ch "b") = true).
  { destruct (u8 (char_at saltbuf 2) =? ch "a"); [reflexivity |].
    destruct (u8 (char_at saltbuf 2) =? ch "b"); [reflexivity | discriminate]. }
  rewrite Hab.
  destruct (char_at saltbuf 3 =? ch "$") eqn:Hd0; cbn [negb]; [| refused].
  destruct (isdigit (char_at saltbuf 4)) eqn:Hd1; cbn [negb orb]; [| refused].
  destruct (isdigit (char_at saltbuf 5)) eqn:Hd2; cbn [negb orb]; [| refused].
  destruct (char_at saltbuf 6 =? ch "$") eqn:Hd3; cbn [negb]; [| refused].
  rewrite atoi_two_digits
    by (rewrite char_at_skipn; cbn [Nat.add];
        assumption || (apply Z.eqb_eq; assumption)).
  rewrite !char_at_skipn; cbn [Nat.add]; fold (rounds_field saltbuf).
  assert (Hv := rounds_field_digits saltbuf Hd1 Hd2).
  rewrite (u8_small (rounds_field saltbuf)) by lia.
  unfold BCRYPT_MINLOGROUNDS; rewrite (Z.gtb_ltb _ 31).
  destruct (rounds_field saltbuf <? 4) eqn:Hlow; cbn [negb orb]; [refused |].
  destruct (31 <? rounds_field saltbuf) eqn:Hhigh; cbn [negb orb];
    [refused |].
  destruct (strlen (skipn 7 saltbuf) * 3 / 4 <? Z.of_nat BCRYPT_MAXSALT)
    eqn:Hshort; cbn [negb andb]; [refused |].
  assert (Hlow' := Hlow); assert (Hhigh' := Hhigh).
  apply Z.ltb_ge in Hlow, Hhigh.
  assert (Hshift : u32 (Z.shiftl 1 (rounds_field saltbuf))
                   = 2 ^ rounds_field saltbuf).
  { rewrite Z.shiftl_1_l. apply u32_small. split; [lia |].
    apply Z.pow_lt_mono_r; lia. }
  unfold bind at 1, enif_alloc_binary at 1.
  destruct (alloc_succeeds (allocations w) BCRYPT_MAXSALT) eqn:Hcsalt.
  2: { do 2 eexists; split; [reflexivity |].
       right; left; conjuncts; try reflexivity; apply after_nothing. }
  rewrite repeat_length; change BCRYPT_MAXSALT with 16%nat.
  destruct (decode_base64 16 (skipn 7 saltbuf)) as [decoded rc] eqn:Hdec.
  cbn [fst snd].
  destruct (Z.eqb_spec rc 0) as [Hrc | Hrc]; cbn [negb].
  2: { do 2 eexists; split; [reflexivity |].
       right; right; left; conjuncts; try reflexivity; exact Hrc. }
  assert (Hlen : List.length decoded = 16%nat).
  { generalize (decode_base64_length 16 (skipn 7 saltbuf)).
    rewrite Hdec; cbn [fst snd]; auto. }
  rewrite Hlen, skipn_all2, app_nil_r, Hlen
    by (rewrite repeat_length; apply Nat.le_refl).
  unfold bind at 1, enif_alloc_binary at 1; cbn [allocations].
  destruct (alloc_succeeds (S (allocations w)) sizeof_blf_ctx) eqn:Hstate.
  2: { do 2 eexists; split; [reflexivity |].
       right; right; right; left; conjuncts; try reflexivity; exact Hrc. }
  do 2 eexists; split; [reflexivity |].
  do 4 right; conjuncts; try reflexivity; [exact Hrc |].
  exists key_len; eexists; conjuncts; [| reflexivity | reflexivity].
  apply Nat.eqb_eq in Hargc.
  apply Z.eqb_neq in Hgot.
  apply Z.eqb_eq in Hdollar, Hversion, Hd3.
  assert (Hk : key_of argv = key) by (unfold key_of; rewrite Hkey; reflexivity).
  assert (Hs : saltbuf_of argv = saltbuf)
    by (unfold saltbuf_of; rewrite Hsalt; reflexivity).
  constructor; unfold minor_of; rewrite ?Hk, ?Hs, ?Hkey; cbn [fst];
    try assumption; try reflexivity.
  - revert Hminor.
    destruct (Z.eqb_spec (u8 (char_at saltbuf 2)) (ch "a")) as [Ha | _].
    + intros [= <-]; left; split; [exact Ha | reflexivity].
    + destruct (Z.eqb_spec (u8 (char_at saltbuf 2)) (ch "b")) as [Hb | _];
        [| discriminate].
      intros [= <-]; right; split; [exact Hb |].
      destruct (Z.gtb_spec (strlen key) 72); lia.
  - unfold rounds_field_ok.
    rewrite Hd1, Hd2, Hd3, Z.eqb_refl.
    rewrite (proj2 (Z.leb_le _ _) Hlow), (proj2 (Z.leb_le _ _) Hhigh).
    reflexivity.
  - rewrite Hrc in Hdec; exact Hdec.
  - rewrite Hshift; reflexivity.
Qed.

End BcryptOutcomes.

Section BcryptProperties.

Context {blowfish : Blowfish} {host : Host}.

Lemma short_salt_refused argv :
  strlen (skipn 7 (saltbuf_of argv)) < 22 -> header_ok argv = false.
Proof.
  intros H; unfold header_ok.
  assert (Hlt : strlen (skipn 7 (saltbuf_of argv)) * 3 / 4
                < Z.of_nat BCRYPT_MAXSALT).
  { change (Z.of_nat BCRYPT_MAXSALT) with 16.
    apply Z.div_lt_upper_bound; lia. }
  apply Z.ltb_lt in Hlt; rewrite Hlt; cbn [negb].
  apply andb_false_r.
Qed.

(** X5: [bcrypt] schedules the expansion exactly when its checks on the
    arguments pass ([header_ok]), the 22 symbols of the salt that follow
    the 7 characters of the header are of the alphabet, and the two
    allocations succeed; in every other case it returns [badarg]. *)
Theorem bcrypt_accepts_iff (argv : list term) (w : world) :
  exists r w',
    bcrypt argv w = Some (r, w')
    /\ (r = badarg \/ exists newargv, r = scheduled NIF_bcrypt_expandstate newargv)
    /\ (r <> badarg <->
        header_ok argv = true
        /\ (forall i, (i < 22)%nat ->
                      in_alphabet (char_at (saltbuf_of argv) (7 + i)) = true)
        /\ alloc_succeeds (allocations w) BCRYPT_MAXSALT = true
        /\ alloc_succeeds (S (allocations w)) sizeof_blf_ctx = true).
Proof.
  destruct (bcrypt_spec argv w) as (r & w' & Hrun & Hout).
  exists r, w'; split; [exact Hrun |].
  destruct (decode_base64_ok_iff 16 (skipn 7 (saltbuf_of argv)))
    as (Hok1 & Hok2).
  change (encoded_length 16) with 22%nat in Hok1, Hok2.
  assert (Hsym : snd (decode_base64 16 (skipn 7 (saltbuf_of argv))) = 0 <->
                 forall i, (i < 22)%nat ->
                   in_alphabet (char_at (saltbuf_of argv) (7 + i)) = true).
  { split.
    - intros H i Hi; rewrite <- char_at_skipn; apply Hok1; assumption.
    - intros H; apply Hok2; intros i Hi; rewrite char_at_skipn; apply H, Hi. }
  unfold bcrypt_outcome in Hout.
  destruct Hout as [(Hh & -> & _) | [(Hh & Ha & -> & _)
    | [(Hh & Ha & Hd & -> & _) | [(Hh & Ha & Hd & Hs & -> & _)
    | (Hh & Ha & Hd & Hs & key_len & newargv & _ & -> & _)]]]].
  - split; [left; reflexivity |].
    split; [congruence | intros (H & _); congruence].
  - split; [left; reflexivity |].
    split; [congruence | intros (_ & _ & H & _); congruence].
  - split; [left; reflexivity |].
    split; [congruence | intros (_ & H & _); apply Hsym in H; contradiction].
  - split; [left; reflexivity |].
    split; [congruence | intros (_ & _ & _ & H); congruence].
  - split; [right; eexists; reflexivity |].
    split; [intros _ | discriminate].
    conjuncts; [exact Hh | apply Hsym, Hd | exact Ha | exact Hs].
Qed.

(** X6: when a check on the arguments fails, and in particular when the
    salt text after the header has fewer than 22 characters, [bcrypt]
    returns [badarg] and leaves the world as it was: nothing was
    allocated, released or scheduled. *)
Theorem bcrypt_refuses_before_allocating (argv : list term) (w : world) :
  header_ok argv = false \/ strlen (skipn 7 (saltbuf_of argv)) < 22 ->
  bcrypt argv w = Some (badarg, w).
Proof.
  intros H.
  assert (Hh : header_ok argv = false)
    by (destruct H as [H | H]; [exact H | apply short_salt_refused, H]).
  destruct (bcrypt_spec argv w) as (r & w' & Hrun & Hout).
  unfold bcrypt_outcome in Hout.
  destruct Hout as [(_ & -> & ->) | [(Hh' & _) | [(Hh' & _) | [(Hh' & _)
    | (Hh' & _)]]]]; congruence.
Qed.

(** X7: [bcrypt] leaks no binary.  When it returns [badarg] after [csalt]
    was allocated, it has released [csalt], once, and nothing else; when
    it schedules the expansion it has released nothing, and the two
    binaries are the first two arguments of the scheduled call.  It never
    reads the clock nor reports to the scheduler, and records no index. *)
Theorem bcrypt_releases_what_it_keeps (argv : list term) (w : world) :
  exists r w' es,
    bcrypt argv w = Some (r, w')
    /\ log w' = log w ++ es
    /\ clock_reads w' = clock_reads w
    /\ slice_reports w' = slice_reports w
    /\ indices es = []
    /\ (r = badarg ->
        (alloc_succeeds (allocations w) BCRYPT_MAXSALT = true
         /\ header_ok argv = true ->
         exists contents,
           releases es = [(buf_csalt, contents)]
           /\ List.length contents = 16%nat)
        /\ (alloc_succeeds (allocations w) BCRYPT_MAXSALT = false
            \/ header_ok argv = false -> es = []))
    /\ (forall f newargv,
        r = scheduled f newargv ->
        es = [scheduled_nif NIF_bcrypt_expandstate]
        /\ exists state csalt,
             arg newargv 0 = Binary state /\ arg newargv 1 = Binary csalt).
Proof.
  destruct (bcrypt_spec argv w) as (r & w' & Hrun & Hout).
  unfold bcrypt_outcome in Hout.
  assert (Hlen16 : forall p,
            List.length (fst (decode_base64 16 p)
                         ++ skipn (List.length (fst (decode_base64 16 p)))
                                  (repeat 0 16)) = 16%nat).
  { intros p.
    destruct (decode_base64_bytes 16 p) as (_ & Hrc & Hshort).
    rewrite length_app, length_skipn, repeat_length.
    destruct Hrc as [H0 | H1].
    - rewrite (decode_base64_length 16 p H0); reflexivity.
    - assert (Hlt := Hshort H1); lia. }
  destruct Hout as [(Hh & -> & ->) | [(Hh & Ha & -> & ->)
    | [(Hh & Ha & Hd & -> & ->) | [(Hh & Ha & Hd & Hs & -> & ->)
    | (Hh & Ha & Hd & Hs & key_len & newargv & Hacc & -> & ->)]]]].
  - exists badarg, w, []; rewrite app_nil_r.
    split; [exact Hrun |].
    conjuncts; try reflexivity; try discriminate.
    intros _; split; [intros (_ & H); congruence | reflexivity].
  - exists badarg, (after 1 [] w), [].
    split; [exact Hrun |].
    conjuncts; try reflexivity; try discriminate.
    intros _; split; [intros (H & _); congruence | reflexivity].
  - eexists badarg, _, _.
    split; [exact Hrun |].
    conjuncts; try reflexivity; try discriminate.
    intros _; split.
    + intros _; eexists; split; [reflexivity | apply Hlen16].
    + intros [H | H]; congruence.
  - eexists badarg, _, _.
    split; [exact Hrun |].
    conjuncts; try reflexivity; try discriminate.
    intros _; split.
    + intros _; eexists; split; [reflexivity |].
      apply decode_base64_length, Hd.
    + intros [H | H]; congruence.
  - eexists _, _, _.
    split; [exact Hrun |].
    conjuncts; try reflexivity; try discriminate.
    intros f newargv' [= <- <-].
    split; [reflexivity |].
    destruct Hacc as [_ _ _ _ _ _ _ _ ->]; do 2 eexists; split; reflexivity.
Qed.

Lemma key_buffer_terminated t :
  strlen (snd (enif_get_string t 1024)) + 1
  <= Z.of_nat (List.length (snd (enif_get_string t 1024)))
  \/ fst (enif_get_string t 1024) = 0.
Proof.
  unfold enif_get_string.
  destruct t as [| s | |]; cbn [fst snd]; auto.
  destruct (forallb latin1 s); cbn [fst snd]; auto.
  left.
  destruct (List.length s <? 1024)%nat; cbn [snd].
  - rewrite strlen_terminated, length_app; cbn [List.length].
    generalize (strlen_le_length s); lia.
  - generalize (strlen_le_length (firstn (1024 - 1) s ++ [0])).
    rewrite (strlen_terminated (firstn (1024 - 1) s)).
    rewrite !length_app; cbn [List.length].
    generalize (strlen_le_length (firstn (1024 - 1) s)); lia.
Qed.

(** X8: the key length that [bcrypt] passes on never exceeds the bytes
    that [enif_get_string] wrote to [key], terminator included, so that
    Blowfish reads initialised bytes only; it is at most 255 in every
    case and between 1 and 73 under minor version ['b']. *)
Theorem key_len_within_key (argv : list term) (w : world) :
  exists r w',
    bcrypt argv w = Some (r, w')
    /\ forall f newargv,
         r = scheduled f newargv ->
         exists key_len,
           arg newargv 3 = ULong key_len
           /\ 0 <= key_len <= strlen (key_of argv) + 1
           /\ key_len <= Z.of_nat (List.length (key_of argv)) <= 1024
           /\ key_len <= 255
           /\ (minor_of argv = ch "b" -> 1 <= key_len <= 73).
Proof.
  destruct (bcrypt_cases argv w)
    as (r & w' & Hrun & [-> | (key_len & csalt & f & newargv & -> & Hacc)]).
  - exists badarg, w'; split; [exact Hrun | discriminate].
  - exists (scheduled f newargv), w'; split; [exact Hrun |].
    intros f' newargv' [= <- <-].
    destruct Hacc as [_ Hkey _ _ Hminor _ _ _ ->].
    exists key_len; split; [reflexivity |].
    assert (Hlen := strlen_nonneg (key_of argv)).
    assert (Hterm : strlen (key_of argv) + 1
                    <= Z.of_nat (List.length (key_of argv)))
      by (destruct (key_buffer_terminated (arg argv 0)) as [H | H];
          [exact H | contradiction]).
    assert (Hcap : Z.of_nat (List.length (key_of argv)) <= 1024).
    { unfold key_of, enif_get_string.
      destruct (arg argv 0) as [| s | |]; cbn [snd List.length]; try lia.
      destruct (forallb latin1 s); cbn [snd List.length]; [| lia].
      destruct (Nat.ltb_spec (List.length s) 1024); cbn [snd];
        rewrite length_app; cbn [List.length]; [lia |].
      rewrite length_firstn; lia. }
    assert (Hu8 : 0 <= u8 (strlen (key_of argv) + 1) < 256)
      by (unfold u8; apply Z.mod_pos_bound; lia).
    assert (Hle : u8 (strlen (key_of argv) + 1) <= strlen (key_of argv) + 1)
      by (unfold u8; apply Z.mod_le; lia).
    destruct Hminor as [[Ha ->] | [Hb ->]].
    + conjuncts; try lia.
      intros Hb; exfalso; rewrite Ha in Hb; revert Hb; vm_compute;
        discriminate.
    + conjuncts; lia.
Qed.

End BcryptProperties.

(** ** Salt strings and identifiers *)

Section Identifiers.

Context {blowfish : Blowfish} {host : Host}.

Lemma two_digits_small c :
  0 <= c < 100 -> two_digits c = [ch "0" + c / 10; ch "0" + c mod 10].
Proof.
  intros H; unfold two_digits.
  destruct (Z.ltb_spec c 100); [reflexivity | lia].
Qed.

Lemma in_alphabet_latin1 c : in_alphabet c = true -> latin1 c = true.
Proof.
  unfold in_alphabet; intros H.
  apply existsb_exists in H; destruct H as (x & Hx & Hc).
  apply Z.eqb_eq in Hc; subst x.
  assert (Hall : forallb latin1 Base64Code = true) by (vm_compute; reflexivity).
  rewrite forallb_forall in Hall; exact (Hall c Hx).
Qed.

Lemma forallb_latin1_symbols l :
  Forall (fun c => in_alphabet c = true) l -> forallb latin1 l = true.
Proof.
  intros H; apply forallb_forall; intros c Hc.
  rewrite Forall_forall in H; apply in_alphabet_latin1, H, Hc.
Qed.

Lemma encode_salt_stores saltbuflen csalt clen log_rounds :
  30 <= saltbuflen ->
  encode_salt saltbuflen csalt clen log_rounds =
  (0, None,
   [ch "$"; ch "2"; ch "b"; ch "$"] ++ two_digits (clamp 4 31 log_rounds)
   ++ [ch "$"] ++ encode_base64 csalt clen ++ [0]).
Proof.
  intros H; unfold encode_salt; change BCRYPT_SALTSPACE with 30.
  destruct (Z.ltb_spec saltbuflen 30); [lia |].
  replace (if log_rounds <? 4 then 4
           else if log_rounds >? 31 then 31 else log_rounds)
    with (clamp 4 31 log_rounds).
  2: { unfold clamp.
       destruct (Z.ltb_spec log_rounds 4); [lia |].
       destruct (Z.gtb_spec log_rounds 31); lia. }
  assert (Hc : 0 <= clamp 4 31 log_rounds < 100) by (unfold clamp; lia).
  rewrite two_digits_small by exact Hc.
  unfold snprintf.
  replace (Z.to_nat (saltbuflen - 1)) with (7 + Z.to_nat (saltbuflen - 8))%nat
    by lia.
  cbn [app firstn Nat.add].
  reflexivity.
Qed.

(** X9: [encode_salt] fails, with [EINVAL] and nothing stored, exactly
    when the buffer has fewer than 30 bytes; otherwise it never rejects
    [log_rounds] but clamps it to the range from 4 to 31, and stores
    ["$2b$"], the two digits of the clamped value, ["$"], the encoding of
    the salt and a NUL.  These are [8 + encoded_length clen] bytes: at
    most 30, hence within the buffer, when [clen] is at most 16, and
    more than 30 when it is larger. *)
Theorem encode_salt_clamps (saltbuflen : Z) (csalt : list Z) (clen : nat)
    (log_rounds : Z) :
  BCRYPT_SALTSPACE = 30
  /\ (saltbuflen < 30 ->
      encode_salt saltbuflen csalt clen log_rounds = (-1, Some EINVAL, []))
  /\ (30 <= saltbuflen ->
      let c := clamp 4 31 log_rounds in
      let stored :=
        chars "$2b$" ++ [ch "0" + c / 10; ch "0" + c mod 10; ch "$"]
        ++ encode_base64 csalt clen ++ [0] in
      encode_salt saltbuflen csalt clen log_rounds = (0, None, stored)
      /\ List.length stored = (8 + encoded_length clen)%nat
      /\ ((clen <= 16)%nat -> Z.of_nat (List.length stored) <= saltbuflen)
      /\ ((16 < clen)%nat -> 30 < Z.of_nat (List.length stored))).
Proof.
  conjuncts; [reflexivity | |].
  - intros H; unfold encode_salt.
    change BCRYPT_SALTSPACE with 30.
    destruct (Z.ltb_spec saltbuflen 30); [reflexivity | lia].
  - intros H c stored.
    assert (Hc : 4 <= c <= 31) by (unfold c, clamp; lia).
    assert (Hlen : List.length stored = (8 + encoded_length clen)%nat).
    { unfold stored; rewrite !length_app, encode_base64_length.
      cbn [List.length chars list_ascii_of_string map]; lia. }
    conjuncts.
    + rewrite encode_salt_stores by exact H.
      fold c; rewrite two_digits_small by lia.
      reflexivity.
    + exact Hlen.
    + intros Hclen; rewrite Hlen.
      assert (encoded_length clen <= 22)%nat; [| lia].
      unfold encoded_length.
      apply Nat.Div0.div_le_upper_bound; lia.
    + intros Hclen; rewrite Hlen.
      assert (23 <= encoded_length clen)%nat; [| lia].
      unfold encoded_length.
      apply Nat.div_le_lower_bound; lia.
Qed.

Lemma enif_get_string_short s :
  forallb latin1 s = true -> (List.length s < 1024)%nat ->
  enif_get_string (String s) 1024 = (Z.of_nat (List.length s) + 1, s ++ [0]).
Proof.
  intros Hl Hs; unfold enif_get_string; rewrite Hl.
  destruct (Nat.ltb_spec (List.length s) 1024); [reflexivity | lia].
Qed.

Lemma enif_get_string_latin1 s :
  forallb latin1 s = true -> fst (enif_get_string (String s) 1024) <> 0.
Proof.
  intros Hl; unfold enif_get_string; rewrite Hl.
  destruct (List.length s <? 1024)%nat; cbn [fst]; lia.
Qed.

(** An identifier string: the header for [minor] and the cost [c], the
    encoding of a salt of 16 bytes, and any symbols of the alphabet after
    it.  [bcrypt] reads [minor], [c] and the salt back from it. *)
Lemma identifier_parses password minor c csalt rest :
  forallb latin1 password = true ->
  minor = ch "a" \/ minor = ch "b" -> 4 <= c <= 31 ->
  List.length csalt = 16%nat -> Forall is_byte csalt ->
  Forall (fun x => in_alphabet x = true) rest -> (List.length rest <= 31)%nat ->
  let argv :=
    [ String password;
      String ([ch "$"; ch "2"; minor; ch "$"] ++ two_digits c ++ [ch "$"]
              ++ encode_base64 csalt 16 ++ rest) ] in
  header_ok argv = true
  /\ decode_base64 16 (skipn 7 (saltbuf_of argv)) = (csalt, 0)
  /\ rounds_field (saltbuf_of argv) = c
  /\ minor_of argv = minor.
Proof.
  intros Hpw Hminor Hc Hlen Hbytes Hrest Hrestlen.
  rewrite two_digits_small by lia; intros argv.
  assert (Hdiv : 0 <= c / 10 < 4)
    by (split; [apply Z.div_pos | apply Z.div_lt_upper_bound]; lia).
  assert (Hmod := Z.mod_pos_bound c 10 ltac:(lia)).
  assert (Hdm := Z.div_mod c 10 ltac:(lia)).
  assert (Henc := encode_base64_alphabet 16 csalt Hbytes).
  assert (Hminor_latin : latin1 minor = true)
    by (destruct Hminor as [-> | ->]; reflexivity).
  assert (Hd1 : latin1 (ch "0" + c / 10) = true).
  { unfold latin1; change (ch "0") with 48.
    apply andb_true_iff; split; apply Z.leb_le; lia. }
  assert (Hd2 : latin1 (ch "0" + c mod 10) = true).
  { unfold latin1; change (ch "0") with 48.
    apply andb_true_iff; split; apply Z.leb_le; lia. }
  assert (Hlatin : forallb latin1
            ([ch "$"; ch "2"; minor; ch "$"]
             ++ [ch "0" + c / 10; ch "0" + c mod 10] ++ [ch "$"]
             ++ encode_base64 csalt 16 ++ rest) = true).
  { cbn [app forallb].
    rewrite Hminor_latin, Hd1, Hd2; cbn [latin1 andb].
    rewrite forallb_app, (forallb_latin1_symbols _ Henc),
      (forallb_latin1_symbols _ Hrest); reflexivity. }
  assert (Hgot := enif_get_string_latin1 _ Hlatin).
  assert (Hsalt : saltbuf_of argv =
                  ch "$" :: ch "2" :: minor :: ch "$" :: (ch "0" + c / 10)
                  :: (ch "0" + c mod 10) :: ch "$"
                  :: encode_base64 csalt 16 ++ rest ++ [0]).
  { unfold saltbuf_of, argv; cbn [arg nth].
    rewrite enif_get_string_short.
    - cbn [snd app]; rewrite <- app_assoc; reflexivity.
    - exact Hlatin.
    - cbn [app List.length]; rewrite length_app, encode_base64_length.
      change (encoded_length 16) with 22%nat; lia. }
  assert (Hstrlen : strlen (encode_base64 csalt 16 ++ rest ++ [0])
                    = 22 + Z.of_nat (List.length rest)).
  { rewrite app_assoc, strlen_symbols.
    - rewrite length_app, encode_base64_length.
      change (encoded_length 16) with 22%nat; lia.
    - apply Forall_app; split;
        (eapply Forall_impl; [apply in_alphabet_not_nul |]); assumption. }
  assert (Hfield : rounds_field (saltbuf_of argv) = c).
  { rewrite Hsalt; unfold rounds_field, char_at; cbn [nth].
    change (ch "0") with 48; lia. }
  assert (Hm : minor_of argv = minor).
  { unfold minor_of; rewrite Hsalt; unfold char_at; cbn [nth].
    destruct Hminor as [-> | ->]; reflexivity. }
  conjuncts.
  - unfold header_ok, rounds_field_ok; rewrite Hm, !Hfield.
    rewrite Hsalt; unfold char_at; cbn [nth skipn].
    rewrite Hstrlen.
    unfold argv; cbn [List.length arg nth Nat.eqb andb].
    rewrite (proj2 (Z.eqb_neq _ _) (enif_get_string_latin1 _ Hpw)).
    rewrite (proj2 (Z.eqb_neq _ _) Hgot).
    cbn [negb andb]; rewrite !Z.eqb_refl; cbn [andb].
    assert (Hab : (minor =? ch "a") || (minor =? ch "b") = true)
      by (destruct Hminor as [-> | ->]; reflexivity).
    rewrite Hab.
    assert (Hdig1 : isdigit (ch "0" + c / 10) = true).
    { unfold isdigit; change (ch "0") with 48; change (ch "9") with 57.
      apply andb_true_iff; split; apply Z.leb_le; lia. }
    assert (Hdig2 : isdigit (ch "0" + c mod 10) = true).
    { unfold isdigit; change (ch "0") with 48; change (ch "9") with 57.
      apply andb_true_iff; split; apply Z.leb_le; lia. }
    rewrite Hdig1, Hdig2.
    rewrite (proj2 (Z.leb_le 4 c)), (proj2 (Z.leb_le c 31)) by lia.
    cbn [andb].
    assert (Hlong : ((22 + Z.of_nat (List.length rest)) * 3 / 4
                     <? Z.of_nat BCRYPT_MAXSALT) = false).
    { apply Z.ltb_ge; change (Z.of_nat BCRYPT_MAXSALT) with 16.
      apply Z.div_le_lower_bound; lia. }
    rewrite Hlong; reflexivity.
  - rewrite Hsalt; cbn [skipn].
    apply decode_salt_followed; assumption.
  - exact Hfield.
  - exact Hm.
Qed.

End Identifiers.

(** ** The hash string *)

Section HashString.

Context {blowfish : Blowfish} {host : Host}.

Lemma word_bytes_bytes w : Forall is_byte (word_bytes w).
Proof.
  assert (H : forall z, is_byte (Z.land z 255)).
  { intros z; unfold is_byte.
    change 255 with (Z.ones 8); rewrite Z.land_ones by lia.
    apply Z.mod_pos_bound; lia. }
  unfold word_bytes; repeat constructor; apply H.
Qed.

Lemma ciphertext_bytes state : Forall is_byte (snd (encrypt_magic state)).
Proof.
  unfold encrypt_magic; cbn [snd].
  apply Forall_flat_map, Forall_forall; intros w _; apply word_bytes_bytes.
Qed.

Lemma firstn_all_app {A : Type} (l r : list A) :
  firstn (List.length l) (l ++ r) = l.
Proof.
  rewrite firstn_app, Nat.sub_diag, firstn_all; cbn [firstn].
  apply app_nil_r.
Qed.

Lemma enif_make_string_symbols l rest :
  Forall (fun c => c <> 0) l -> enif_make_string (l ++ 0 :: rest) = String l.
Proof.
  intros H; unfold enif_make_string.
  rewrite strlen_symbols by exact H.
  rewrite Nat2Z.id, firstn_all_app; reflexivity.
Qed.

Lemma two_digits_not_nul n : 0 <= n -> Forall (fun c => c <> 0) (two_digits n).
Proof.
  intros Hn; unfold two_digits; change (ch "0") with 48.
  assert (0 <= n / 10) by (apply Z.div_pos; lia).
  assert (0 <= n / 100) by (apply Z.div_pos; lia).
  assert (0 <= n mod 10 < 10) by (apply Z.mod_pos_bound; lia).
  assert (0 <= n / 10 mod 10 < 10) by (apply Z.mod_pos_bound; lia).
  destruct (n <? 100); repeat constructor; lia.
Qed.

Lemma two_digits_length n : (2 <= List.length (two_digits n))%nat.
Proof. unfold two_digits; destruct (n <? 100); cbn [List.length]; lia. Qed.

(** The seven characters that [snprintf] leaves in [encrypted]. *)
Lemma hash_header minor logr :
  0 <= logr -> minor <> 0 ->
  let header :=
    firstn 7 ([ch "$"; ch "2"; minor; ch "$"] ++ two_digits logr ++ [ch "$"]) in
  List.length header = 7%nat /\ Forall (fun c => c <> 0) header.
Proof.
  intros Hlogr Hminor header; split.
  - unfold header; rewrite length_firstn, !length_app.
    generalize (two_digits_length logr); cbn [List.length]; lia.
  - unfold header.
    assert (Hall : Forall (fun c => c <> 0)
              ([ch "$"; ch "2"; minor; ch "$"] ++ two_digits logr ++ [ch "$"])).
    { apply Forall_app; split.
      - repeat constructor; try discriminate; exact Hminor.
      - apply Forall_app; split; [apply two_digits_not_nul, Hlogr |].
        repeat constructor; discriminate. }
    rewrite Forall_forall in *; intros c Hc.
    apply Hall.
    match type of Hc with
    | In _ (firstn ?n ?l) => rewrite <- (firstn_skipn n l)
    end.
    apply in_or_app; left; exact Hc.
Qed.

(** The string of a hash: header, salt and digest. *)
Lemma hash_string_layout state csalt minor logr :
  u8 minor <> 0 -> Forall is_byte csalt ->
  hash_string state csalt minor logr =
  String (firstn 7 ([ch "$"; ch "2"; u8 minor; ch "$"]
                    ++ two_digits (u8 logr) ++ [ch "$"])
          ++ encode_base64 csalt 16
          ++ encode_base64 (snd (encrypt_magic state)) 23).
Proof.
  intros Hminor Hbytes.
  unfold hash_string, format_hash.
  assert (Hl : 0 <= u8 logr) by (unfold u8; apply Z.mod_pos_bound; lia).
  destruct (hash_header (u8 minor) (u8 logr) Hl Hminor) as [_ Hheader].
  change BCRYPT_MAXSALT with 16%nat.
  change (4 * BCRYPT_WORDS - 1)%nat with 23%nat.
  rewrite !app_assoc, <- (app_assoc _ _ [0]).
  rewrite <- !app_assoc.
  rewrite (app_assoc (firstn 7 _)), (app_assoc (firstn 7 _ ++ _)).
  rewrite enif_make_string_symbols; [rewrite <- !app_assoc; reflexivity |].
  repeat (apply Forall_app; split); try exact Hheader;
    apply encode_base64_not_nul; [exact Hbytes | apply ciphertext_bytes].
Qed.

(** X10: on well-typed arguments with bytes for the salt and a minor
    character that is not NUL, [bcrypt_fini] returns a string of exactly
    60 characters: 7 for the header (["$2"], the minor, ["$"], the cost,
    ["$"]), the 22 symbols of the salt and 31 symbols for the first 23
    bytes of the encrypted magic string, all of the alphabet.  With a cost
    below 100 the header shows its two digits. *)
Theorem bcrypt_fini_hash_format (state csalt : list Z) (minor logr : Z)
    (w : world) :
  0 <= minor <= ULONG_MAX -> 0 <= logr <= ULONG_MAX ->
  u8 minor <> 0 -> Forall is_byte csalt ->
  exists h w',
    bcrypt_fini (fini_argv state csalt minor logr) w = Some (value (String h), w')
    /\ List.length h = 60%nat
    /\ firstn 4 h = [ch "$"; ch "2"; u8 minor; ch "$"]
    /\ firstn 22 (skipn 7 h) = encode_base64 csalt 16
    /\ skipn 29 h = encode_base64 (snd (encrypt_magic state)) 23
    /\ Forall (fun c => in_alphabet c = true) (skipn 7 h)
    /\ (u8 logr < 100 ->
        firstn 7 h = [ch "$"; ch "2"; u8 minor; ch "$";
                      ch "0" + u8 logr / 10; ch "0" + u8 logr mod 10; ch "$"]).
Proof.
  intros Hminor Hlogr Hnul Hbytes.
  destruct (bcrypt_fini_spec state csalt minor logr w Hminor Hlogr)
    as (w' & Hrun & _).
  rewrite (hash_string_layout state csalt minor logr Hnul Hbytes) in Hrun.
  assert (Hl : 0 <= u8 logr < 256) by (unfold u8; apply Z.mod_pos_bound; lia).
  destruct (hash_header (u8 minor) (u8 logr) ltac:(lia) Hnul) as [Hlen7 _].
  set (header := firstn 7 ([ch "$"; ch "2"; u8 minor; ch "$"]
                           ++ two_digits (u8 logr) ++ [ch "$"])) in *.
  set (salt := encode_base64 csalt 16) in *.
  set (digest := encode_base64 (snd (encrypt_magic state)) 23) in *.
  assert (Hsalt : List.length salt = 22%nat) by apply encode_base64_length.
  assert (Hdigest : List.length digest = 31%nat) by apply encode_base64_length.
  assert (Hskip7 : skipn 7 (header ++ salt ++ digest) = salt ++ digest).
  { rewrite <- Hlen7, skipn_app, skipn_all, Nat.sub_diag; reflexivity. }
  eexists; exists w'; split; [exact Hrun |].
  conjuncts.
  - rewrite !length_app; lia.
  - rewrite firstn_app, Hlen7.
    change (4 - 7)%nat with 0%nat; rewrite firstn_0, app_nil_r.
    unfold header; rewrite firstn_firstn; reflexivity.
  - rewrite Hskip7, <- Hsalt; apply firstn_all_app.
  - replace 29%nat with (22 + 7)%nat by reflexivity.
    rewrite <- skipn_skipn, Hskip7, <- Hsalt, skipn_app, skipn_all,
      Nat.sub_diag; reflexivity.
  - rewrite Hskip7; apply Forall_app; split; apply encode_base64_alphabet;
      [exact Hbytes | apply ciphertext_bytes].
  - intros Hsmall.
    rewrite <- Hlen7 at 1; rewrite firstn_all_app.
    unfold header; rewrite two_digits_small by lia; reflexivity.
Qed.

End HashString.

(** ** Identifiers that [bcrypt] accepts *)

Section Acceptance.

Context {blowfish : Blowfish} {host : Host}.

(** The call that [bcrypt] schedules for a password and an identifier
    string made of the header for [minor] and [c], the encoding of
    [csalt] and symbols of the alphabet. *)
Lemma bcrypt_schedules_identifier password minor c csalt rest w :
  forallb latin1 password = true ->
  minor = ch "a" \/ minor = ch "b" -> 4 <= c <= 31 ->
  List.length csalt = 16%nat -> Forall is_byte csalt ->
  Forall (fun x => in_alphabet x = true) rest -> (List.length rest <= 31)%nat ->
  alloc_succeeds (allocations w) BCRYPT_MAXSALT = true ->
  alloc_succeeds (S (allocations w)) sizeof_blf_ctx = true ->
  let key := snd (enif_get_string (String password) 1024) in
  bcrypt [ String password;
           String ([ch "$"; ch "2"; minor; ch "$"] ++ two_digits c ++ [ch "$"]
                   ++ encode_base64 csalt 16 ++ rest) ] w =
  Some (scheduled NIF_bcrypt_expandstate
          (expandstate_argv
             (Blowfish_expandstate Blowfish_initstate csalt 16 key
                                   (key_length minor key))
             csalt (String password) (key_length minor key) (2 ^ c) minor c
             25 0),
        after 2 [scheduled_nif NIF_bcrypt_expandstate] w).
Proof.
  intros Hpw Hminor Hc Hlen Hbytes Hrest Hrestlen Hcsalt Hstate key.
  destruct (identifier_parses password minor c csalt rest Hpw Hminor Hc Hlen
              Hbytes Hrest Hrestlen) as (Hheader & Hdec & Hfield & Hm).
  match goal with |- bcrypt ?a w = _ => set (argv := a) in * end.
  destruct (bcrypt_spec argv w) as (r & w' & Hrun & Hout).
  unfold bcrypt_outcome in Hout; rewrite Hdec in Hout; cbn [fst snd] in Hout.
  destruct Hout as [(Hh & _) | [(_ & Ha & _) | [(_ & _ & Hd & _)
    | [(_ & _ & _ & Hs & _)
    | (_ & _ & _ & _ & key_len & newargv & Hacc & -> & ->)]]]];
    try congruence.
  rewrite Hrun; do 2 f_equal.
  destruct Hacc as [_ _ _ _ Hkl _ _ _ ->].
  rewrite Hfield, Hm in *.
  assert (Hkey : key_of argv = key) by reflexivity.
  rewrite Hkey in *.
  assert (Hkl' : key_len = key_length minor key).
  { unfold key_length.
    destruct Hkl as [[Ha ->] | [Hb ->]]; rewrite ?Ha, ?Hb; reflexivity. }
  rewrite Hkl'; reflexivity.
Qed.

(** X11: [bcrypt] accepts the string that [encode_salt] makes of a salt of
    16 bytes, whatever [log_rounds] was: it schedules the expansion with
    that very salt, minor version ['b'], the clamped cost [c] and
    [2 ^ c] rounds. *)
Theorem encode_salt_accepted (password csalt : list Z)
    (saltbuflen log_rounds : Z) (w : world) :
  forallb latin1 password = true ->
  List.length csalt = 16%nat -> Forall is_byte csalt ->
  30 <= saltbuflen ->
  alloc_succeeds (allocations w) BCRYPT_MAXSALT = true ->
  alloc_succeeds (S (allocations w)) sizeof_blf_ctx = true ->
  let c := clamp 4 31 log_rounds in
  let key := snd (enif_get_string (String password) 1024) in
  let key_len := Z.min (strlen key) 72 + 1 in
  bcrypt [ String password;
           enif_make_string (snd (encode_salt saltbuflen csalt 16 log_rounds)) ]
         w =
  Some (scheduled NIF_bcrypt_expandstate
          (expandstate_argv
             (Blowfish_expandstate Blowfish_initstate csalt 16 key key_len)
             csalt (String password) key_len (2 ^ c) (ch "b") c 25 0),
        after 2 [scheduled_nif NIF_bcrypt_expandstate] w).
Proof.
  intros Hpw Hlen Hbytes Hbuf Hcsalt Hstate c key key_len.
  rewrite encode_salt_stores by exact Hbuf; cbn [snd]; fold c.
  assert (Hc : 4 <= c <= 31) by (unfold c, clamp; lia).
  assert (Hstring :
    enif_make_string
      ([ch "$"; ch "2"; ch "b"; ch "$"] ++ two_digits c ++ [ch "$"]
       ++ encode_base64 csalt 16 ++ [0]) =
    String ([ch "$"; ch "2"; ch "b"; ch "$"] ++ two_digits c ++ [ch "$"]
            ++ encode_base64 csalt 16 ++ [])).
  { rewrite app_nil_r.
    rewrite (app_assoc (two_digits c)), (app_assoc (two_digits c ++ _)),
      (app_assoc [ch "$"; ch "2"; ch "b"; ch "$"]).
    rewrite <- !app_assoc.
    rewrite (app_assoc [ch "$"]), (app_assoc (two_digits c)),
      (app_assoc [ch "$"; ch "2"; ch "b"; ch "$"]).
    apply enif_make_string_symbols.
    repeat (apply Forall_app; split).
    - repeat constructor; discriminate.
    - apply two_digits_not_nul; lia.
    - repeat constructor; discriminate.
    - apply encode_base64_not_nul, Hbytes. }
  rewrite Hstring.
  apply (bcrypt_schedules_identifier password (ch "b") c csalt [] w);
    auto; cbn [List.length]; lia.
Qed.

End Acceptance.

(** ** Checking a password against its hash *)

Section Verification.

Context {blowfish : Blowfish} {host : Host}.

Lemma enif_get_string_got t :
  fst (enif_get_string t 1024) <> 0 ->
  exists s, t = String s /\ forallb latin1 s = true.
Proof.
  destruct t as [b | s | n |]; cbn [enif_get_string fst]; try congruence.
  destruct (forallb latin1 s) eqn:Hl; cbn [fst]; [| congruence].
  intros _; exists s; split; [reflexivity | exact Hl].
Qed.

(** X12: a hash verifies.  When [bcrypt] accepts a password and an
    identifier string, the run ends with a hash string [h], and [bcrypt]
    given the same password with [h] in the place of the identifier
    schedules the very call that it scheduled the first time: the same
    initial state, salt, key length, rounds, minor version and cost.  So
    hashing a password with its own hash as the salt computes that hash
    again. *)
Theorem hash_verifies (argv : list term) (w w1 w' : world) (f : nif)
    (newargv : list term) (fuel calls : nat) :
  bcrypt argv w = Some (scheduled f newargv, w1) ->
  (Z.to_nat (2 ^ rounds_field (saltbuf_of argv)) <= fuel)%nat ->
  (Z.to_nat (2 ^ rounds_field (saltbuf_of argv)) < calls)%nat ->
  alloc_succeeds (allocations w') BCRYPT_MAXSALT = true ->
  alloc_succeeds (S (allocations w')) sizeof_blf_ctx = true ->
  exists h w2,
    run calls fuel (scheduled f newargv) w1 = Some (value (String h), w2)
    /\ List.length h = 60%nat
    /\ bcrypt [arg argv 0; String h] w' =
       Some (scheduled f newargv,
             after 2 [scheduled_nif NIF_bcrypt_expandstate] w').
Proof.
  intros Hbcrypt Hfuel Hcalls Hcsalt Hstate.
  destruct (bcrypt_run_unsliced argv w f newargv w1 fuel calls Hbcrypt Hfuel
              Hcalls) as (key_len & csalt & es & w2 & Hacc & Hrun & _).
  assert (Htrusted := accepted_trusted _ _ _ _ _ Hacc).
  destruct Hacc as [_ Hgot _ _ Hminor Hok Hsalt -> ->].
  destruct (enif_get_string_got _ Hgot) as (password & Hpw & Hlatin).
  set (minor := minor_of argv) in *.
  set (c := rounds_field (saltbuf_of argv)) in *.
  assert (Hc : 4 <= c <= 31).
  { unfold rounds_field_ok in Hok; rewrite !andb_true_iff in Hok.
    fold c in Hok; lia. }
  assert (Hlen : List.length csalt = 16%nat).
  { generalize (decode_base64_length 16 (skipn 7 (saltbuf_of argv))).
    rewrite Hsalt; cbn [fst snd]; auto. }
  assert (Hbytes : Forall is_byte csalt).
  { generalize (proj1 (decode_base64_bytes 16 (skipn 7 (saltbuf_of argv)))).
    rewrite Hsalt; cbn [fst]; auto. }
  assert (Hm : minor = ch "a" \/ minor = ch "b") by tauto.
  assert (Hu8m : u8 minor = minor)
    by (destruct Hm as [-> | ->]; reflexivity).
  assert (Hu8c : u8 c = c) by (apply u8_small; lia).
  unfold unsliced_hash in Hrun.
  rewrite hash_string_layout in Hrun
    by (try exact Hbytes; rewrite Hu8m; destruct Hm as [-> | ->]; discriminate).
  rewrite Hu8m, Hu8c in Hrun.
  rewrite (two_digits_small c) in Hrun by lia.
  cbn [app firstn] in Hrun.
  match type of Hrun with
  | context [encode_base64 (snd (encrypt_magic ?s)) 23] =>
    set (state := s) in *
  end.
  set (digest := encode_base64 (snd (encrypt_magic state)) 23) in *.
  assert (Hdigest : Forall (fun x => in_alphabet x = true) digest)
    by apply encode_base64_alphabet, ciphertext_bytes.
  assert (Hdlen : List.length digest = 31%nat)
    by (unfold digest; rewrite encode_base64_length; reflexivity).
  eexists; exists w2; split; [exact Hrun |]; split.
  - cbn [List.length]; rewrite length_app, encode_base64_length, Hdlen.
    reflexivity.
  - rewrite Hpw.
    generalize (bcrypt_schedules_identifier password minor c csalt digest w'
                  Hlatin Hm Hc Hlen Hbytes Hdigest ltac:(lia) Hcsalt Hstate).
    rewrite (two_digits_small c) by lia.
    cbn [app]; intros ->.
    unfold expandstate_argv.
    assert (Hkey : key_of argv = snd (enif_get_string (String password) 1024))
      by (unfold key_of; rewrite Hpw; reflexivity).
    rewrite Hkey in *.
    assert (Hkl : key_len =
                  key_length minor (snd (enif_get_string (String password) 1024))).
    { unfold key_length.
      destruct Hminor as [[Ha ->] | [Hb ->]]; rewrite ?Ha, ?Hb; reflexivity. }
    rewrite <- Hkl; reflexivity.
Qed.

End Verification.

Lemma hash_verifies_witness :
  let argv := [Run.password; Run.identifier] in
  let newargv :=
    expandstate_argv Run.state Run.csalt Run.password 4 16 (ch "b") 4 25 0 in
  let w1 := after 2 [scheduled_nif NIF_bcrypt_expandstate] boot in
  (@bcrypt Toy.blowfish (Toy.host 300 true) argv boot =
     Some (scheduled NIF_bcrypt_expandstate newargv, w1)
   /\ (Z.to_nat (2 ^ rounds_field (saltbuf_of argv)) <= 16)%nat
   /\ (Z.to_nat (2 ^ rounds_field (saltbuf_of argv)) < 17)%nat
   /\ @alloc_succeeds (Toy.host 300 true) (allocations boot) BCRYPT_MAXSALT
      = true
   /\ @alloc_succeeds (Toy.host 300 true) (S (allocations boot))
        (@sizeof_blf_ctx Toy.blowfish) = true)
  /\ exists h w2,
       @run Toy.blowfish (Toy.host 300 true) 17 16
         (scheduled NIF_bcrypt_expandstate newargv) w1 =
       Some (value (String h), w2)
       /\ List.length h = 60%nat
       /\ @bcrypt Toy.blowfish (Toy.host 300 true) [arg argv 0; String h] boot =
          Some (scheduled NIF_bcrypt_expandstate newargv,
                after 2 [scheduled_nif NIF_bcrypt_expandstate] boot).
Proof.
  intros argv newargv w1.
  assert (H1 : @bcrypt Toy.blowfish (Toy.host 300 true) argv boot =
               Some (scheduled NIF_bcrypt_expandstate newargv, w1))
    by (vm_compute; reflexivity).
  assert (H2 : (Z.to_nat (2 ^ rounds_field (saltbuf_of argv)) <= 16)%nat)
    by (vm_compute; lia).
  assert (H3 : (Z.to_nat (2 ^ rounds_field (saltbuf_of argv)) < 17)%nat)
    by (vm_compute; lia).
  assert (H4 : @alloc_succeeds (Toy.host 300 true) (allocations boot)
                 BCRYPT_MAXSALT = true) by reflexivity.
  assert (H5 : @alloc_succeeds (Toy.host 300 true) (S (allocations boot))
                 (@sizeof_blf_ctx Toy.blowfish) = true) by reflexivity.
  split.
  - exact (conj H1 (conj H2 (conj H3 (conj H4 H5)))).
  - exact (@hash_verifies Toy.blowfish (Toy.host 300 true) argv boot w1 boot
             NIF_bcrypt_expandstate newargv 16 17 H1 H2 H3 H4 H5).
Defined.

Lemma encode_salt_accepted_witness :
  (forallb latin1 (chars "abc") = true
   /\ List.length Run.csalt = 16%nat /\ Forall is_byte Run.csalt
   /\ 30 <= 30
   /\ @alloc_succeeds (Toy.host 300 true) (allocations boot) BCRYPT_MAXSALT
      = true
   /\ @alloc_succeeds (Toy.host 300 true) (S (allocations boot))
        (@sizeof_blf_ctx Toy.blowfish) = true)
  /\ @bcrypt Toy.blowfish (Toy.host 300 true)
       [ String (chars "abc");
         enif_make_string (snd (encode_salt 30 Run.csalt 16 40)) ] boot =
     Some (scheduled NIF_bcrypt_expandstate
             (expandstate_argv
                (@Blowfish_expandstate Toy.blowfish
                   (@Blowfish_initstate Toy.blowfish) Run.csalt 16
                   (snd (enif_get_string (String (chars "abc")) 1024))
                   (Z.min (strlen (snd (enif_get_string (String (chars "abc"))
                                                        1024))) 72 + 1))
                Run.csalt (String (chars "abc"))
                (Z.min (strlen (snd (enif_get_string (String (chars "abc"))
                                                     1024))) 72 + 1)
                (2 ^ clamp 4 31 40) (ch "b") (clamp 4 31 40) 25 0),
           after 2 [scheduled_nif NIF_bcrypt_expandstate] boot).
Proof.
  assert (H1 : forallb latin1 (chars "abc") = true) by reflexivity.
  assert (H2 : List.length Run.csalt = 16%nat) by reflexivity.
  assert (H3 : Forall is_byte Run.csalt)
    by (repeat constructor; unfold is_byte; lia).
  assert (H4 : 30 <= 30) by lia.
  assert (H5 : @alloc_succeeds (Toy.host 300 true) (allocations boot)
                 BCRYPT_MAXSALT = true) by reflexivity.
  assert (H6 : @alloc_succeeds (Toy.host 300 true) (S (allocations boot))
                 (@sizeof_blf_ctx Toy.blowfish) = true) by reflexivity.
  split.
  - exact (conj H1 (conj H2 (conj H3 (conj H4 (conj H5 H6))))).
  - exact (@encode_salt_accepted Toy.blowfish (Toy.host 300 true)
             (chars "abc") Run.csalt 30 40 boot H1 H2 H3 H4 H5 H6).
Defined.

Lemma bcrypt_refuses_before_allocating_witness :
  let argv := [Run.password; String (chars "$2b$04$.....................")] in
  (header_ok argv = false \/ strlen (skipn 7 (saltbuf_of argv)) < 22)
  /\ @bcrypt Toy.blowfish (Toy.host 300 true) argv boot = Some (badarg, boot).
Proof.
  intros argv.
  assert (H : header_ok argv = false \/ strlen (skipn 7 (saltbuf_of argv)) < 22)
    by (right; vm_compute; reflexivity).
  split.
  - exact H.
  - exact (@bcrypt_refuses_before_allocating Toy.blowfish (Toy.host 300 true)
             argv boot H).
Defined.

Lemma bcrypt_fini_hash_format_witness :
  (0 <= ch "b" <= ULONG_MAX /\ 0 <= 4 <= ULONG_MAX /\ u8 (ch "b") <> 0
   /\ Forall is_byte Run.csalt)
  /\ exists h w',
       @bcrypt_fini Toy.blowfish
         (fini_argv Run.state Run.csalt (ch "b") 4) boot =
       Some (value (String h), w')
       /\ List.length h = 60%nat
       /\ firstn 4 h = [ch "$"; ch "2"; u8 (ch "b"); ch "$"]
       /\ firstn 22 (skipn 7 h) = encode_base64 Run.csalt 16
       /\ skipn 29 h =
          encode_base64 (snd (@encrypt_magic Toy.blowfish Run.state)) 23
       /\ Forall (fun c => in_alphabet c = true) (skipn 7 h)
       /\ (u8 4 < 100 ->
           firstn 7 h = [ch "$"; ch "2"; u8 (ch "b"); ch "$";
                         ch "0" + u8 4 / 10; ch "0" + u8 4 mod 10; ch "$"]).
Proof.
  assert (H1 : 0 <= ch "b" <= ULONG_MAX) by (vm_compute; split; discriminate).
  assert (H2 : 0 <= 4 <= ULONG_MAX) by (unfold ULONG_MAX; lia).
  assert (H3 : u8 (ch "b") <> 0) by (vm_compute; discriminate).
  assert (H4 : Forall is_byte Run.csalt)
    by (repeat constructor; unfold is_byte; lia).
  split.
  - exact (conj H1 (conj H2 (conj H3 H4))).
  - exact (@bcrypt_fini_hash_format Toy.blowfish Run.state Run.csalt (ch "b") 4
             boot H1 H2 H3 H4).
Defined.

(** ** The binaries that a whole run releases *)

Section Erasure.

Context {blowfish : Blowfish} {host : Host}.

Lemma releases_app es1 es2 : releases (es1 ++ es2) = releases es1 ++ releases es2.
Proof. unfold releases; apply flat_map_app. Qed.

Lemma releases_indices ks : releases (map index ks) = [].
Proof. induction ks as [| k ks IH]; [reflexivity | exact IH]. Qed.

Lemma expansion_trace_releases rounds start es :
  expansion_trace rounds start es -> releases es = [].
Proof.
  induction 1 as [start n _ _ | start n es _ _ _ IH].
  - change (index start :: ?l) with ([index start] ++ l).
    rewrite !releases_app, releases_indices; reflexivity.
  - rewrite !releases_app, IH.
    change (index start :: ?l) with ([index start] ++ l).
    rewrite !releases_app, releases_indices; reflexivity.
Qed.

Lemma zeroed_releases es :
  zeroed_at_release es =
  forallb (fun bc => forallb (Z.eqb 0) (snd bc)) (releases es).
Proof.
  induction es as [| [b contents | f | k] es IH]; cbn [zeroed_at_release forallb];
    [reflexivity | | exact IH | exact IH].
  change (releases (released b contents :: es))
    with ((b, contents) :: releases es).
  cbn [forallb snd]; f_equal; exact IH.
Qed.

(** X13: a run that [bcrypt] started releases its two binaries zeroed.
    From the call of [bcrypt] to the hash, exactly two binaries are
    released, the cipher state and then the salt, each once and each
    filled with zero bytes at that moment; the salt has its 16 bytes.
    This is a statement about the binaries only: the arrays [key] and
    [saltbuf] of the C functions are no binaries, are never passed to
    [secure_bzero], and are left out of it. *)
Theorem run_releases_zeroed_binaries (argv : list term) (w w1 : world) (f : nif)
    (newargv : list term) (fuel calls : nat) :
  bcrypt argv w = Some (scheduled f newargv, w1) ->
  (Z.to_nat (2 ^ rounds_field (saltbuf_of argv)) <= fuel)%nat ->
  (Z.to_nat (2 ^ rounds_field (saltbuf_of argv)) < calls)%nat ->
  exists h es w2 n,
    run calls fuel (scheduled f newargv) w1 = Some (value h, w2)
    /\ log w2 = log w ++ es
    /\ releases es = [(buf_state, repeat 0 n); (buf_csalt, repeat 0 16)]
    /\ zeroed_at_release es = true.
Proof.
  intros Hbcrypt Hfuel Hcalls.
  destruct (bcrypt_spec argv w) as (r & w' & Hrun & Hout).
  rewrite Hbcrypt in Hrun; injection Hrun as <- <-.
  unfold bcrypt_outcome in Hout.
  destruct Hout as [(_ & Hr & _) | [(_ & _ & Hr & _) | [(_ & _ & _ & Hr & _)
    | [(_ & _ & _ & _ & Hr & _)
    | (_ & _ & _ & _ & key_len & newargv' & Hacc & Hr & ->)]]]];
    try discriminate.
  injection Hr as -> ->.
  assert (Htrusted := accepted_trusted _ _ _ _ _ Hacc).
  assert (Hlen : List.length
                   (fst (decode_base64 16 (skipn 7 (saltbuf_of argv)))) = 16%nat).
  { apply decode_base64_length.
    destruct Hacc as [_ _ _ _ _ _ Hsalt _ _].
    rewrite Hsalt; reflexivity. }
  destruct Hacc as [_ _ _ _ _ _ _ _ ->].
  set (csalt := fst (decode_base64 16 (skipn 7 (saltbuf_of argv)))) in *.
  destruct (run_complete
              (Blowfish_expandstate Blowfish_initstate csalt 16
                                    (key_of argv) key_len)
              csalt (arg argv 0) key_len
              (2 ^ rounds_field (saltbuf_of argv)) (minor_of argv)
              (rounds_field (saltbuf_of argv)) 25 0 fuel calls
              (after 2 [scheduled_nif NIF_bcrypt_expandstate] w) Htrusted
              Hfuel ltac:(rewrite Z.sub_0_r; exact Hcalls))
    as (es & w2 & Hrun & Htrace & Hlog).
  unfold expandstate_argv in Hrun.
  rewrite Hlen in Hlog.
  set (n := List.length
              (unsliced_rounds
                 (Z.to_nat (2 ^ rounds_field (saltbuf_of argv) - 0))
                 (snd (enif_get_string (arg argv 0) 1024)) key_len csalt
                 (Blowfish_expandstate Blowfish_initstate csalt 16
                                       (key_of argv) key_len))) in *.
  set (es' := [scheduled_nif NIF_bcrypt_expandstate] ++ es
              ++ [released buf_state (repeat 0 n);
                  released buf_csalt (repeat 0 16)]).
  assert (Hes : releases es' =
                [(buf_state, repeat 0 n); (buf_csalt, repeat 0 16)]).
  { unfold es'.
    rewrite !releases_app, (expansion_trace_releases _ _ _ Htrace).
    reflexivity. }
  eexists; exists es', w2, n.
  conjuncts.
  - exact Hrun.
  - rewrite Hlog; unfold es'; cbn [log after]; rewrite <- !app_assoc.
    reflexivity.
  - exact Hes.
  - rewrite zeroed_releases, Hes.
    assert (Hz : forall m, forallb (Z.eqb 0) (repeat 0 m) = true).
    { intros m; apply forallb_forall; intros x Hx.
      apply repeat_spec in Hx; subst x; reflexivity. }
    cbn [forallb snd]; rewrite !Hz; reflexivity.
Qed.

End Erasure.

(** ** Where an invocation of [bcrypt_expandstate] stops *)

Section Slices.

Context {blowfish : Blowfish} {host : Host}.

(** A slice runs to the later of [k + 1] and [end_], and only records the
    values of [k]. *)
Lemma expand_slice_run rounds key key_len csalt end_ :
  rounds <= 2 ^ 31 -> end_ <= rounds ->
  forall fuel state k w,
  0 <= k < rounds -> (Z.to_nat (rounds - k) <= fuel)%nat ->
  let n := Z.to_nat (Z.max (k + 1) end_ - k) in
  expand_slice fuel key key_len csalt state k end_ w =
  Some ((unsliced_rounds n key key_len csalt state, Z.max (k + 1) end_),
        logged (map index (upto k n)) w).
Proof.
  intros Hrounds Hend.
  induction fuel as [| fuel IH]; intros state k w Hk Hfuel; [lia |].
  cbn [expand_slice].
  rewrite (u32_small (k + 1)) by lia.
  unfold bind at 1; rewrite record_run.
  fold (expand_round key key_len csalt state).
  destruct (Z.ltb_spec (k + 1) end_) as [Hlt | Hge].
  - rewrite IH by lia.
    replace (Z.max (k + 1 + 1) end_) with end_ by lia.
    replace (Z.max (k + 1) end_) with end_ by lia.
    replace (Z.to_nat (end_ - k)) with (S (Z.to_nat (end_ - (k + 1)))) by lia.
    cbn [unsliced_rounds upto map]; unfold logged; cbn [log clock_reads
      slice_reports allocations].
    rewrite <- app_assoc; reflexivity.
  - replace (Z.max (k + 1) end_) with (k + 1) by lia.
    replace (Z.to_nat (k + 1 - k)) with 1%nat by lia.
    reflexivity.
Qed.

(** X14: an invocation whose [max_per_slice] covers the rounds that are
    left runs them all in one slice: it reads the clock once, never
    reports to the scheduler, so that it cannot be asked to yield, and
    schedules [bcrypt_fini] with the state of the unsliced loop. *)
Theorem expandstate_single_slice (state csalt : list Z) (key : term)
    (key_len rounds minor logr max_per_slice start_index : Z) (fuel : nat)
    (w : world) :
  trusted key key_len rounds minor logr max_per_slice start_index ->
  (Z.to_nat rounds <= fuel)%nat ->
  rounds <= start_index + max_per_slice <= ULONG_MAX ->
  let n := Z.to_nat (rounds - start_index) in
  bcrypt_expandstate fuel
    (expandstate_argv state csalt key key_len rounds minor logr
                      max_per_slice start_index) w =
  Some (scheduled NIF_bcrypt_fini
          (fini_argv
             (unsliced_rounds n (snd (enif_get_string key 1024)) key_len
                              csalt state)
             csalt minor logr),
        {| clock_reads := S (clock_reads w);
           slice_reports := slice_reports w;
           allocations := allocations w;
           log := log w ++ index start_index
                          :: map index (upto start_index n)
                          ++ [scheduled_nif NIF_bcrypt_fini] |}).
Proof.
  intros [Hkey Hkey_len Hrounds Hminor Hlogr Hmps Hstart] Hfuel Hcover n.
  unfold bcrypt_expandstate, expandstate_argv.
  cbn [List.length Nat.eqb negb arg nth enif_inspect_binary].
  destruct (enif_get_string key 1024) as [got_key keybuf].
  cbn [fst snd] in *.
  destruct (Z.eqb_spec got_key 0) as [| _]; [contradiction |].
  rewrite !enif_get_ulong_ok by (unfold ULONG_MAX in *; lia).
  cbv iota beta.
  rewrite (u32_small rounds), (u32_small start_index) by lia.
  rewrite (ulong_small (start_index + max_per_slice))
    by (unfold ULONG_MAX in *; lia).
  replace (if start_index + max_per_slice >? rounds then rounds
           else start_index + max_per_slice) with rounds
    by (destruct (Z.gtb_spec (start_index + max_per_slice) rounds); lia).
  unfold bind at 1; rewrite record_run.
  destruct fuel as [| fuel]; [lia |].
  cbn [expand_slices].
  unfold bind at 1, gettimeofday at 1.
  cbn [clock_reads slice_reports allocations log].
  set (w1 := {| clock_reads := S (clock_reads w);
                slice_reports := slice_reports w;
                allocations := allocations w;
                log := log w ++ [index start_index] |}).
  rewrite (bind_Some _ _ _ _ _
             (expand_slice_run rounds keybuf key_len csalt rounds
                ltac:(lia) ltac:(lia) (S fuel) state start_index w1 Hstart
                ltac:(lia))).
  replace (Z.max (start_index + 1) rounds) with rounds by lia.
  fold n; rewrite Z.eqb_refl.
  unfold enif_schedule_nif, bind, record, ret, fini_argv, logged, w1.
  cbn [clock_reads slice_reports allocations log arg nth].
  rewrite <- !app_assoc; reflexivity.
Qed.

(** X15: an invocation that cannot finish yields where the scheduler asks
    it to.  With [start_index + max_per_slice] below [rounds] the first
    slice runs [max_per_slice] rounds, or one round when [max_per_slice] is
    0; if the scheduler then reports the time slice exhausted, the
    invocation schedules itself again from that index, with the state of
    the unsliced loop so far, the other arguments unchanged, and the
    [max_per_slice] that [adjust_max_per_slice] computes from the elapsed
    time.  It has read the clock twice and reported once. *)
Theorem expandstate_yields_when_asked (state csalt : list Z) (key : term)
    (key_len rounds minor logr max_per_slice start_index : Z) (fuel : nat)
    (w : world) :
  trusted key key_len rounds minor logr max_per_slice start_index ->
  (Z.to_nat rounds <= fuel)%nat ->
  start_index + Z.max 1 max_per_slice < rounds ->
  let n := Z.to_nat (Z.max 1 max_per_slice) in
  let k := start_index + Z.max 1 max_per_slice in
  let measured :=
    calc_percent 0 (clock_reading (clock_reads w))
                 (clock_reading (S (clock_reads w))) in
  timeslice_exhausted (slice_reports w) (fst measured) = true ->
  bcrypt_expandstate fuel
    (expandstate_argv state csalt key key_len rounds minor logr
                      max_per_slice start_index) w =
  Some (scheduled NIF_bcrypt_expandstate
          (expandstate_argv
             (unsliced_rounds n (snd (enif_get_string key 1024)) key_len
                              csalt state)
             csalt key key_len rounds minor logr
             (adjust_max_per_slice (int max_per_slice) (snd measured) k
                                   start_index)
             k),
        {| clock_reads := S (S (clock_reads w));
           slice_reports := S (slice_reports w);
           allocations := allocations w;
           log := log w ++ index start_index
                          :: map index (upto start_index n)
                          ++ [scheduled_nif NIF_bcrypt_expandstate] |}).
Proof.
  intros [Hkey Hkey_len Hrounds Hminor Hlogr Hmps Hstart] Hfuel Hbelow n k
    measured Hasked.
  unfold bcrypt_expandstate, expandstate_argv.
  cbn [List.length Nat.eqb negb arg nth enif_inspect_binary].
  destruct (enif_get_string key 1024) as [got_key keybuf].
  cbn [fst snd] in *.
  destruct (Z.eqb_spec got_key 0) as [| _]; [contradiction |].
  rewrite !enif_get_ulong_ok by (unfold ULONG_MAX in *; lia).
  cbv iota beta.
  rewrite (u32_small rounds), (u32_small start_index) by lia.
  rewrite (ulong_small (start_index + max_per_slice)) by lia.
  replace (if start_index + max_per_slice >? rounds then rounds
           else start_index + max_per_slice)
    with (start_index + max_per_slice)
    by (destruct (Z.gtb_spec (start_index + max_per_slice) rounds); lia).
  unfold bind at 1; rewrite record_run.
  destruct fuel as [| fuel]; [lia |].
  cbn [expand_slices].
  unfold bind at 1, gettimeofday at 1.
  cbn [clock_reads slice_reports allocations log].
  set (w1 := {| clock_reads := S (clock_reads w);
                slice_reports := slice_reports w;
                allocations := allocations w;
                log := log w ++ [index start_index] |}).
  rewrite (bind_Some _ _ _ _ _
             (expand_slice_run rounds keybuf key_len csalt
                (start_index + max_per_slice)
                ltac:(lia) ltac:(lia) (S fuel) state start_index w1 Hstart
                ltac:(lia))).
  replace (Z.max (start_index + 1) (start_index + max_per_slice)) with k
    by (unfold k; lia).
  replace (Z.to_nat (k - start_index)) with n by (unfold k, n; lia).
  destruct (Z.eqb_spec k rounds) as [| _]; [unfold k in *; lia |].
  unfold bind at 1, gettimeofday at 1.
  unfold logged, w1; cbn [clock_reads slice_reports allocations log].
  fold measured.
  destruct measured as [pct total] eqn:Hmeasured.
  unfold bind at 1, enif_consume_timeslice at 1.
  cbn [clock_reads slice_reports allocations log fst snd] in *.
  rewrite Hasked.
  unfold enif_schedule_nif, bind, record, ret.
  cbn [clock_reads slice_reports allocations log].
  rewrite <- !app_assoc; reflexivity.
Qed.

(** The loop of slices under a scheduler that never asks to yield. *)
Lemma expand_slices_never_asked rounds argv key key_len csalt max_per_slice
    start_index slice_fuel :
  (forall reports pct, timeslice_exhausted reports pct = false) ->
  0 < rounds <= 2 ^ 31 -> (Z.to_nat rounds <= slice_fuel)%nat ->
  forall fuel state k end_ total w,
  0 <= k < rounds -> end_ <= rounds -> (Z.to_nat (rounds - k) <= fuel)%nat ->
  exists w',
    expand_slices fuel slice_fuel argv key key_len csalt rounds
                  max_per_slice start_index state k end_ total w =
    Some (scheduled NIF_bcrypt_fini
            [ Binary (unsliced_rounds (Z.to_nat (rounds - k)) key key_len
                                      csalt state);
              Binary csalt; arg argv 5; arg argv 6 ], w')
    /\ log w' = log w ++ map index (upto k (Z.to_nat (rounds - k)))
                      ++ [scheduled_nif NIF_bcrypt_fini]
    /\ allocations w' = allocations w.
Proof.
  intros Hnever Hrounds Hslice.
  induction fuel as [| fuel IH]; intros state k end_ total w Hk Hend Hfuel;
    [lia |].
  cbn [expand_slices].
  unfold bind at 1, gettimeofday at 1.
  rewrite (bind_Some _ _ _ _ _
             (expand_slice_run rounds key key_len csalt end_
                ltac:(lia) Hend slice_fuel state k _ Hk ltac:(lia))).
  set (k' := Z.max (k + 1) end_).
  set (n := Z.to_nat (k' - k)).
  destruct (Z.eqb_spec k' rounds) as [Hlast | Hmore].
  - unfold n; rewrite Hlast.
    eexists; split; [reflexivity |]; split; [| reflexivity].
    unfold logged; cbn [log]; rewrite <- app_assoc; reflexivity.
  - unfold bind at 1, gettimeofday at 1.
    match goal with
    | |- context [calc_percent ?t ?a ?b] =>
        destruct (calc_percent t a b) as [pct total']
    end.
    unfold bind at 1, enif_consume_timeslice at 1.
    rewrite Hnever.
    set (end' := if ulong (end_ + max_per_slice) >? rounds
                 then rounds else ulong (end_ + max_per_slice)).
    assert (Hend' : end' <= rounds)
      by (unfold end'; destruct (Z.gtb_spec (ulong (end_ + max_per_slice))
                                            rounds); lia).
    match goal with
    | |- context [expand_slices fuel slice_fuel argv key key_len csalt rounds
                    max_per_slice start_index ?st k' end' ?tot ?w3] =>
        destruct (IH st k' end' tot w3 ltac:(unfold k'; lia) Hend'
                    ltac:(unfold k'; lia))
          as (w4 & Hrest & Hlog & Halloc)
    end.
    exists w4; conjuncts.
    + rewrite Hrest; do 4 f_equal.
      replace (Z.to_nat (rounds - k)) with (n + Z.to_nat (rounds - k'))%nat
        by (unfold n, k'; lia).
      rewrite unsliced_rounds_add; reflexivity.
    + rewrite Hlog; unfold logged; cbn [log].
      replace (Z.to_nat (rounds - k)) with (n + Z.to_nat (rounds - k'))%nat
        by (unfold n, k'; lia).
      rewrite upto_add, map_app, <- !app_assoc.
      replace (k + Z.of_nat n) with k' by (unfold n, k'; lia).
      reflexivity.
    + rewrite Halloc; reflexivity.
Qed.

(** X16: the scheduler alone makes the expansion yield.  Under a scheduler
    that never reports the time slice exhausted, one invocation of
    [bcrypt_expandstate] runs all the rounds that are left, whatever
    [max_per_slice] is, and schedules [bcrypt_fini] with the state of the
    unsliced loop; it schedules nothing else and releases nothing. *)
Theorem expandstate_completes_unless_asked (state csalt : list Z) (key : term)
    (key_len rounds minor logr max_per_slice start_index : Z) (fuel : nat)
    (w : world) :
  (forall reports pct, timeslice_exhausted reports pct = false) ->
  trusted key key_len rounds minor logr max_per_slice start_index ->
  (Z.to_nat rounds <= fuel)%nat ->
  let n := Z.to_nat (rounds - start_index) in
  exists w',
    bcrypt_expandstate fuel
      (expandstate_argv state csalt key key_len rounds minor logr
                        max_per_slice start_index) w =
    Some (scheduled NIF_bcrypt_fini
            (fini_argv
               (unsliced_rounds n (snd (enif_get_string key 1024)) key_len
                                csalt state)
               csalt minor logr), w')
    /\ log w' = log w ++ index start_index
                      :: map index (upto start_index n)
                      ++ [scheduled_nif NIF_bcrypt_fini].
Proof.
  intros Hnever [Hkey Hkey_len Hrounds Hminor Hlogr Hmps Hstart] Hfuel n.
  unfold bcrypt_expandstate, expandstate_argv.
  cbn [List.length Nat.eqb negb arg nth enif_inspect_binary].
  destruct (enif_get_string key 1024) as [got_key keybuf].
  cbn [fst snd] in *.
  destruct (Z.eqb_spec got_key 0) as [| _]; [contradiction |].
  rewrite !enif_get_ulong_ok by (unfold ULONG_MAX in *; lia).
  cbv iota beta.
  rewrite (u32_small rounds), (u32_small start_index) by lia.
  unfold bind at 1; rewrite record_run.
  set (end_ := if ulong (start_index + max_per_slice) >? rounds
               then rounds else ulong (start_index + max_per_slice)).
  assert (Hend : end_ <= rounds)
    by (unfold end_;
        destruct (Z.gtb_spec (ulong (start_index + max_per_slice)) rounds);
        lia).
  match goal with
  | |- context [expand_slices fuel fuel ?argv keybuf key_len csalt rounds
                  max_per_slice start_index state start_index end_ 0 ?w1] =>
      destruct (expand_slices_never_asked rounds argv keybuf key_len csalt
                  max_per_slice start_index fuel Hnever Hrounds Hfuel fuel
                  state start_index end_ 0 w1 Hstart Hend ltac:(lia))
        as (w' & Hrun & Hlog & _)
  end.
  exists w'; split.
  - rewrite Hrun; reflexivity.
  - rewrite Hlog; cbn [log]; rewrite <- app_assoc; reflexivity.
Qed.

End Slices.

(** ** A clock that went back *)

(** X19: the value that [calc_percent] returns never exceeds 100.  For
    times as [gettimeofday] gives them and an elapsed time whose tenth is
    an [int], it is at least 1 exactly when the clock has not gone back by
    10 microseconds or more; when it has, the value returned is the
    negative quotient itself, which is not a percentage. *)
Theorem calc_percent_range (total : Z) (start stop : timeval) :
  timeval_ok start -> timeval_ok stop ->
  - 2 ^ 31 <= Z.quot (elapsed start stop) 10 <= INT_MAX ->
  fst (calc_percent total start stop) <= 100
  /\ (1 <= fst (calc_percent total start stop) <-> -10 < elapsed start stop)
  /\ (elapsed start stop <= -10 ->
      fst (calc_percent total start stop) = Z.quot (elapsed start stop) 10
      /\ fst (calc_percent total start stop) < 0).
Proof.
  intros Hstart Hstop Hint.
  unfold calc_percent; cbn [fst].
  rewrite (timersub_elapsed _ _ Hstart Hstop).
  rewrite (int_small (Z.quot (elapsed start stop) 10)) by exact Hint.
  set (e := elapsed start stop) in *.
  assert (Hq : e = 10 * Z.quot e 10 + Z.rem e 10)
    by (apply Z.quot_rem'; lia).
  assert (Hpos : 0 <= e -> 0 <= Z.rem e 10 < 10)
    by (intros; apply Z.rem_bound_pos; lia).
  assert (Hneg : e <= 0 -> -10 < Z.rem e 10 <= 0)
    by (intros He; generalize (Z.rem_bound_pos_neg e 10 ltac:(lia) He); lia).
  destruct (Z.gtb_spec (Z.quot e 10) 100);
    destruct (Z.eqb_spec (Z.quot e 10) 0); conjuncts; try split; try lia.
Qed.

Lemma calc_percent_range_witness :
  let start := {| tv_sec := 9; tv_usec := 0 |} in
  let stop := {| tv_sec := 8; tv_usec := 999000 |} in
  (timeval_ok start /\ timeval_ok stop
   /\ - 2 ^ 31 <= Z.quot (elapsed start stop) 10 <= INT_MAX)
  /\ fst (calc_percent 30 start stop) <= 100
  /\ (1 <= fst (calc_percent 30 start stop) <-> -10 < elapsed start stop)
  /\ (elapsed start stop <= -10 ->
      fst (calc_percent 30 start stop) = Z.quot (elapsed start stop) 10
      /\ fst (calc_percent 30 start stop) < 0).
Proof.
  intros start stop.
  assert (H1 : timeval_ok start) by (unfold timeval_ok; cbn; lia).
  assert (H2 : timeval_ok stop) by (unfold timeval_ok; cbn; lia).
  assert (H3 : - 2 ^ 31 <= Z.quot (elapsed start stop) 10 <= INT_MAX)
    by (vm_compute; split; discriminate).
  split; [exact (conj H1 (conj H2 H3)) |].
  exact (calc_percent_range 30 start stop H1 H2 H3).
Defined.

(** ** The next [max_per_slice] *)

(** X17: the new [max_per_slice] never exceeds the rounds just
    completed.  For the inputs of a run the value that
    [adjust_max_per_slice] returns lies between 0 and the number
    [k - start_index] of rounds that the invocation completed, whatever the
    old [max_per_slice] was (which it may exceed); and it is at most half
    of that number once the total reaches 200 percent. *)
Theorem adjust_max_per_slice_at_most_completed
    (max_per_slice total k start_index : Z) :
  0 <= start_index <= k -> k - start_index <= INT_MAX -> 0 <= total ->
  (Z.quot total 100 = 1 -> (k - start_index) * (total - 100) <= INT_MAX) ->
  0 <= adjust_max_per_slice max_per_slice total k start_index
    <= k - start_index
  /\ (200 <= total ->
      2 * adjust_max_per_slice max_per_slice total k start_index
      <= k - start_index).
Proof.
  intros Hk Hmax Htotal Hprod.
  assert (Hm : 0 <= Z.quot total 100) by (apply Z.quot_pos; lia).
  assert (Hquot : Z.quot total 100 = total / 100)
    by (apply Z.quot_div_nonneg; lia).
  assert (Hcases : Z.quot total 100 = 0 \/ Z.quot total 100 = 1
                   \/ 2 <= Z.quot total 100) by lia.
  set (c := k - start_index) in *.
  destruct Hcases as [H0 | [H1 | H2]].
  - rewrite (adjust_max_per_slice_m0 max_per_slice total k start_index Hk Hmax
               H0).
    fold c; split; [lia |].
    intros Hbig; rewrite Hquot in H0.
    assert (2 <= total / 100) by (apply Z.div_le_lower_bound; lia).
    lia.
  - rewrite (adjust_max_per_slice_m1 max_per_slice total k start_index Hk Hmax
               H1 (Hprod H1)).
    fold c.
    assert (Ht := quot_100_is_1 total H1).
    assert (0 <= c * (total - 100) / 100) by (apply Z.div_pos; nia).
    assert (c * (total - 100) / 100 <= c)
      by (apply Z.div_le_upper_bound; nia).
    split; lia.
  - rewrite (adjust_max_per_slice_m2 max_per_slice total k start_index Hk Hmax
               H2).
    fold c.
    assert (0 <= c / Z.quot total 100) by (apply Z.div_pos; lia).
    assert (c / Z.quot total 100 <= c / 2)
      by (apply Z.div_le_compat_l; lia).
    assert (2 * (c / 2) <= c) by (apply Z.mul_div_le; lia).
    split; lia.
Qed.

Lemma adjust_max_per_slice_at_most_completed_witness :
  (0 <= 0 <= 25 /\ 25 - 0 <= INT_MAX /\ 0 <= 250
   /\ (Z.quot 250 100 = 1 -> (25 - 0) * (250 - 100) <= INT_MAX))
  /\ 0 <= adjust_max_per_slice 25 250 25 0 <= 25 - 0
  /\ (200 <= 250 -> 2 * adjust_max_per_slice 25 250 25 0 <= 25 - 0).
Proof.
  assert (H1 : 0 <= 0 <= 25) by lia.
  assert (H2 : 25 - 0 <= INT_MAX) by (unfold INT_MAX; lia).
  assert (H3 : 0 <= 250) by lia.
  assert (H4 : Z.quot 250 100 = 1 -> (25 - 0) * (250 - 100) <= INT_MAX)
    by (intros _; unfold INT_MAX; lia).
  split; [exact (conj H1 (conj H2 (conj H3 H4))) |].
  exact (adjust_max_per_slice_at_most_completed 25 250 25 0 H1 H2 H3 H4).
Defined.

(** X20: with a total of -100 or less, which a clock that went back
    leaves behind, [adjust_max_per_slice] divides the completed rounds by
    a negative [m]: the quotient is 0 or negative, and its conversion to
    [unsigned long] gives 0 or a value above [2 ^ 63], far more than the
    rounds that were completed. *)
Theorem adjust_max_per_slice_negative_total
    (max_per_slice total k start_index : Z) :
  0 <= start_index < k -> k - start_index <= INT_MAX ->
  - 2 ^ 31 <= total <= -100 ->
  let q := (k - start_index) / (- Z.quot total 100) in
  adjust_max_per_slice max_per_slice total k start_index =
    (if q =? 0 then 0 else 2 ^ 64 - q)
  /\ (- Z.quot total 100 <= k - start_index ->
      2 ^ 63 < adjust_max_per_slice max_per_slice total k start_index).
Proof.
  intros Hk Hmax Htotal q.
  set (c := k - start_index) in *.
  set (m := - Z.quot total 100).
  assert (Hm : 1 <= m <= 2 ^ 31).
  { unfold m.
    assert (Z.quot total 100 <= -1)
      by (replace (-1) with (Z.quot (-100) 100) by reflexivity;
          apply Z.quot_le_mono; lia).
    assert (Z.quot (- 2 ^ 31) 100 <= Z.quot total 100)
      by (apply Z.quot_le_mono; lia).
    assert (- 2 ^ 31 <= Z.quot (- 2 ^ 31) 100) by (vm_compute; discriminate).
    lia. }
  assert (Hquot : Z.quot c (Z.quot total 100) = - q).
  { replace (Z.quot total 100) with (- m) by (unfold m; lia).
    rewrite Z.quot_opp_r by lia.
    rewrite Z.quot_div_nonneg by lia; reflexivity. }
  assert (Hq : 0 <= q <= c).
  { unfold q; fold m; split; [apply Z.div_pos; lia |].
    apply Z.div_le_upper_bound; nia. }
  assert (Hvalue : adjust_max_per_slice max_per_slice total k start_index =
                   (if q =? 0 then 0 else 2 ^ 64 - q)).
  { unfold adjust_max_per_slice; fold c.
    destruct (Z.eqb_spec (Z.quot total 100) 0); [unfold m in Hm; lia |].
    destruct (Z.eqb_spec (Z.quot total 100) 1); [unfold m in Hm; lia |].
    unfold INT_MAX in Hmax.
    rewrite (ulong_small c) by lia.
    rewrite (int_small c) by (unfold INT_MAX; lia).
    rewrite Hquot.
    rewrite (int_small (- q)) by (unfold INT_MAX; lia).
    destruct (Z.eqb_spec q 0) as [-> | Hnz]; [reflexivity |].
    unfold ulong.
    replace (- q) with (2 ^ 64 - q + -1 * 2 ^ 64) by lia.
    rewrite Z.mod_add by lia.
    apply Z.mod_small; lia. }
  split; [exact Hvalue |].
  intros Hle; rewrite Hvalue.
  assert (1 <= q) by (unfold q; fold m; apply Z.div_le_lower_bound; lia).
  destruct (Z.eqb_spec q 0); unfold INT_MAX in *; lia.
Qed.

Lemma adjust_max_per_slice_negative_total_witness :
  (0 <= 0 < 25 /\ 25 - 0 <= INT_MAX /\ - 2 ^ 31 <= -250 <= -100)
  /\ adjust_max_per_slice 25 (-250) 25 0 =
     (if (25 - 0) / (- Z.quot (-250) 100) =? 0 then 0
      else 2 ^ 64 - (25 - 0) / (- Z.quot (-250) 100))
  /\ (- Z.quot (-250) 100 <= 25 - 0 ->
      2 ^ 63 < adjust_max_per_slice 25 (-250) 25 0).
Proof.
  assert (H1 : 0 <= 0 < 25) by lia.
  assert (H2 : 25 - 0 <= INT_MAX) by (unfold INT_MAX; lia).
  assert (H3 : - 2 ^ 31 <= -250 <= -100) by lia.
  split; [exact (conj H1 (conj H2 H3)) |].
  exact (adjust_max_per_slice_negative_total 25 (-250) 25 0 H1 H2 H3).
Defined.

Lemma run_releases_zeroed_binaries_witness :
  let argv := [Run.password; Run.identifier] in
  let newargv :=
    expandstate_argv Run.state Run.csalt Run.password 4 16 (ch "b") 4 25 0 in
  let w1 := after 2 [scheduled_nif NIF_bcrypt_expandstate] boot in
  (@bcrypt Toy.blowfish (Toy.host 300 true) argv boot =
     Some (scheduled NIF_bcrypt_expandstate newargv, w1)
   /\ (Z.to_nat (2 ^ rounds_field (saltbuf_of argv)) <= 16)%nat
   /\ (Z.to_nat (2 ^ rounds_field (saltbuf_of argv)) < 17)%nat)
  /\ exists h es w2 n,
       @run Toy.blowfish (Toy.host 300 true) 17 16
         (scheduled NIF_bcrypt_expandstate newargv) w1 = Some (value h, w2)
       /\ log w2 = log boot ++ es
       /\ releases es = [(buf_state, repeat 0 n); (buf_csalt, repeat 0 16)]
       /\ zeroed_at_release es = true.
Proof.
  intros argv newargv w1.
  assert (H1 : @bcrypt Toy.blowfish (Toy.host 300 true) argv boot =
               Some (scheduled NIF_bcrypt_expandstate newargv, w1))
    by (vm_compute; reflexivity).
  assert (H2 : (Z.to_nat (2 ^ rounds_field (saltbuf_of argv)) <= 16)%nat)
    by (vm_compute; lia).
  assert (H3 : (Z.to_nat (2 ^ rounds_field (saltbuf_of argv)) < 17)%nat)
    by (vm_compute; lia).
  split.
  - exact (conj H1 (conj H2 H3)).
  - exact (@run_releases_zeroed_binaries Toy.blowfish (Toy.host 300 true) argv boot w1
             NIF_bcrypt_expandstate newargv 16 17 H1 H2 H3).
Defined.

Lemma expandstate_single_slice_witness :
  (trusted Run.password 4 16 (ch "b") 4 25 0
   /\ (Z.to_nat 16 <= 16)%nat /\ 16 <= 0 + 25 <= ULONG_MAX)
  /\ @bcrypt_expandstate Toy.blowfish (Toy.host 300 true) 16
       (expandstate_argv Run.state Run.csalt Run.password 4 16 (ch "b") 4
                         25 0) boot =
     Some (scheduled NIF_bcrypt_fini
             (fini_argv
                (@unsliced_rounds Toy.blowfish (Z.to_nat (16 - 0))
                   (snd (enif_get_string Run.password 1024)) 4 Run.csalt
                   Run.state)
                Run.csalt (ch "b") 4),
           {| clock_reads := S (clock_reads boot);
              slice_reports := slice_reports boot;
              allocations := allocations boot;
              log := log boot ++ index 0
                       :: map index (upto 0 (Z.to_nat (16 - 0)))
                       ++ [scheduled_nif NIF_bcrypt_fini] |}).
Proof.
  assert (H1 : trusted Run.password 4 16 (ch "b") 4 25 0).
  { constructor; unfold ULONG_MAX; try lia.
    - vm_compute; discriminate.
    - vm_compute; split; discriminate. }
  assert (H2 : (Z.to_nat 16 <= 16)%nat) by (vm_compute; lia).
  assert (H3 : 16 <= 0 + 25 <= ULONG_MAX) by (unfold ULONG_MAX; lia).
  split; [exact (conj H1 (conj H2 H3)) |].
  exact (@expandstate_single_slice Toy.blowfish (Toy.host 300 true) Run.state
           Run.csalt Run.password 4 16 (ch "b") 4 25 0 16 boot H1 H2 H3).
Defined.

Lemma expandstate_yields_when_asked_witness :
  let measured :=
    calc_percent 0 (@clock_reading (Toy.host 300 true) (clock_reads boot))
                 (@clock_reading (Toy.host 300 true) (S (clock_reads boot))) in
  (trusted Run.password 4 16 (ch "b") 4 5 3
   /\ (Z.to_nat 16 <= 16)%nat /\ 3 + Z.max 1 5 < 16
   /\ @timeslice_exhausted (Toy.host 300 true) (slice_reports boot)
        (fst measured) = true)
  /\ @bcrypt_expandstate Toy.blowfish (Toy.host 300 true) 16
       (expandstate_argv Run.state Run.csalt Run.password 4 16 (ch "b") 4
                         5 3) boot =
     Some (scheduled NIF_bcrypt_expandstate
             (expandstate_argv
                (@unsliced_rounds Toy.blowfish (Z.to_nat (Z.max 1 5))
                   (snd (enif_get_string Run.password 1024)) 4 Run.csalt
                   Run.state)
                Run.csalt Run.password 4 16 (ch "b") 4
                (adjust_max_per_slice (int 5) (snd measured) (3 + Z.max 1 5) 3)
                (3 + Z.max 1 5)),
           {| clock_reads := S (S (clock_reads boot));
              slice_reports := S (slice_reports boot);
              allocations := allocations boot;
              log := log boot ++ index 3
                       :: map index (upto 3 (Z.to_nat (Z.max 1 5)))
                       ++ [scheduled_nif NIF_bcrypt_expandstate] |}).
Proof.
  intros measured.
  assert (H1 : trusted Run.password 4 16 (ch "b") 4 5 3).
  { constructor; unfold ULONG_MAX; try lia.
    - vm_compute; discriminate.
    - vm_compute; split; discriminate. }
  assert (H2 : (Z.to_nat 16 <= 16)%nat) by (vm_compute; lia).
  assert (H3 : 3 + Z.max 1 5 < 16) by lia.
  assert (H4 : @timeslice_exhausted (Toy.host 300 true) (slice_reports boot)
                 (fst measured) = true) by reflexivity.
  split; [exact (conj H1 (conj H2 (conj H3 H4))) |].
  exact (@expandstate_yields_when_asked Toy.blowfish (Toy.host 300 true)
           Run.state Run.csalt Run.password 4 16 (ch "b") 4 5 3 16 boot
           H1 H2 H3 H4).
Defined.

Lemma expandstate_completes_unless_asked_witness :
  ((forall reports pct,
      @timeslice_exhausted (Toy.host 300 false) reports pct = false)
   /\ trusted Run.password 4 16 (ch "b") 4 0 3
   /\ (Z.to_nat 16 <= 16)%nat)
  /\ exists w',
       @bcrypt_expandstate Toy.blowfish (Toy.host 300 false) 16
         (expandstate_argv Run.state Run.csalt Run.password 4 16 (ch "b") 4
                           0 3) boot =
       Some (scheduled NIF_bcrypt_fini
               (fini_argv
                  (@unsliced_rounds Toy.blowfish (Z.to_nat (16 - 3))
                     (snd (enif_get_string Run.password 1024)) 4 Run.csalt
                     Run.state)
                  Run.csalt (ch "b") 4), w')
       /\ log w' = log boot ++ index 3
                     :: map index (upto 3 (Z.to_nat (16 - 3)))
                     ++ [scheduled_nif NIF_bcrypt_fini].
Proof.
  assert (H0 : forall reports pct,
             @timeslice_exhausted (Toy.host 300 false) reports pct = false)
    by (intros reports pct; reflexivity).
  assert (H1 : trusted Run.password 4 16 (ch "b") 4 0 3).
  { constructor; unfold ULONG_MAX; try lia.
    - vm_compute; discriminate.
    - vm_compute; split; discriminate. }
  assert (H2 : (Z.to_nat 16 <= 16)%nat) by (vm_compute; lia).
  split; [exact (conj H0 (conj H1 H2)) |].
  exact (@expandstate_completes_unless_asked Toy.blowfish (Toy.host 300 false)
           Run.state Run.csalt Run.password 4 16 (ch "b") 4 0 3 16 boot
           H0 H1 H2).
Defined.

(** ** What [bcrypt] reads of the identifier string *)

Section IdentifierTail.

Context {blowfish : Blowfish} {host : Host}.

(** [bcrypt] depends on its arguments through the checks, the decoded
    salt, the first argument and the two fields of the header only. *)
Lemma bcrypt_congruence argv1 argv2 w :
  header_ok argv1 = header_ok argv2 ->
  decode_base64 16 (skipn 7 (saltbuf_of argv1)) =
  decode_base64 16 (skipn 7 (saltbuf_of argv2)) ->
  arg argv1 0 = arg argv2 0 ->
  minor_of argv1 = minor_of argv2 ->
  rounds_field (saltbuf_of argv1) = rounds_field (saltbuf_of argv2) ->
  bcrypt argv1 w = bcrypt argv2 w.
Proof.
  intros Hheader Hdec Harg Hminor Hfield.
  assert (Hkey : key_of argv1 = key_of argv2)
    by (unfold key_of; rewrite Harg; reflexivity).
  destruct (bcrypt_spec argv1 w) as (r1 & w1 & Hrun1 & Hout1).
  destruct (bcrypt_spec argv2 w) as (r2 & w2 & Hrun2 & Hout2).
  rewrite Hrun1, Hrun2.
  unfold bcrypt_outcome in Hout1, Hout2.
  rewrite <- Hheader, <- Hdec in Hout2.
  destruct Hout1 as [(Hh1 & -> & ->) | [(Hh1 & Ha1 & -> & ->)
    | [(Hh1 & Ha1 & Hd1 & -> & ->) | [(Hh1 & Ha1 & Hd1 & Hs1 & -> & ->)
    | (Hh1 & Ha1 & Hd1 & Hs1 & kl1 & new1 & Hacc1 & -> & ->)]]]];
  destruct Hout2 as [(Hh2 & -> & ->) | [(Hh2 & Ha2 & -> & ->)
    | [(Hh2 & Ha2 & Hd2 & -> & ->) | [(Hh2 & Ha2 & Hd2 & Hs2 & -> & ->)
    | (Hh2 & Ha2 & Hd2 & Hs2 & kl2 & new2 & Hacc2 & -> & ->)]]]];
    try congruence.
  destruct Hacc1 as [_ _ _ _ Hkl1 _ _ _ ->].
  destruct Hacc2 as [_ _ _ _ Hkl2 _ _ _ ->].
  rewrite <- Hminor, <- Hkey in Hkl2.
  assert (Hkl : kl1 = kl2).
  { destruct Hkl1 as [[Hm1 ->] | [Hm1 ->]], Hkl2 as [[Hm2 ->] | [Hm2 ->]];
      try reflexivity; rewrite Hm1 in Hm2; discriminate. }
  rewrite Hkl, Hkey, Harg, Hminor, Hfield; reflexivity.
Qed.

Lemma saltbuf_prefix s n :
  forallb latin1 s = true -> (n < 1024)%nat ->
  firstn n (snd (enif_get_string (String s) 1024)) = firstn n (s ++ [0]).
Proof.
  intros Hl Hn; unfold enif_get_string; rewrite Hl.
  destruct (Nat.ltb_spec (List.length s) 1024); cbn [snd]; [reflexivity |].
  change (1024 - 1)%nat with 1023%nat.
  rewrite !firstn_app, firstn_firstn, length_firstn.
  replace (Nat.min n 1023) with n by lia.
  replace (n - Nat.min 1023 (List.length s))%nat with 0%nat by lia.
  replace (n - List.length s)%nat with 0%nat by lia.
  reflexivity.
Qed.

Lemma firstn_terminated (s1 s2 : list Z) n :
  firstn n s1 = firstn n s2 -> firstn n (s1 ++ [0]) = firstn n (s2 ++ [0]).
Proof.
  intros H.
  assert (Hlen : Nat.min n (List.length s1) = Nat.min n (List.length s2))
    by (rewrite <- !length_firstn, H; reflexivity).
  destruct (Nat.le_gt_cases n (List.length s1)) as [Hlong | Hshort].
  - rewrite !firstn_app.
    replace (n - List.length s1)%nat with 0%nat by lia.
    replace (n - List.length s2)%nat with 0%nat by lia.
    rewrite H; reflexivity.
  - rewrite (firstn_all2 (n := n) s1), (firstn_all2 (n := n) s2) in H by lia.
    rewrite H; reflexivity.
Qed.

Lemma char_at_firstn (p : list Z) n i :
  (i < n)%nat -> char_at (firstn n p) i = char_at p i.
Proof.
  intros H; unfold char_at; rewrite nth_firstn.
  destruct (Nat.ltb_spec i n); [reflexivity | lia].
Qed.

(** Whether a C string has at least [n] characters shows on its first [n]
    characters. *)
Lemma strlen_firstn n :
  forall s, Z.min (strlen (firstn n s)) (Z.of_nat n) = Z.min (strlen s) (Z.of_nat n).
Proof.
  induction n as [| n IH]; intros s.
  - cbn [firstn strlen]; generalize (strlen_nonneg s); lia.
  - destruct s as [| c s]; [reflexivity |].
    cbn [firstn strlen].
    destruct (c =? 0); [reflexivity |].
    specialize (IH s); lia.
Qed.

(** X18: [bcrypt] depends on 29 characters of the identifier string: the
    7 of the header and the 22 symbols of the salt.  Two Latin-1 strings
    that agree on their first 29 characters give, with the same password,
    the same result and the same effects; what follows, for instance the
    digest of a hash given as the identifier, makes no difference. *)
Theorem bcrypt_reads_29_characters (password : term) (s1 s2 : list Z)
    (w : world) :
  forallb latin1 s1 = true -> forallb latin1 s2 = true ->
  firstn 29 s1 = firstn 29 s2 ->
  bcrypt [password; String s1] w = bcrypt [password; String s2] w.
Proof.
  intros Hl1 Hl2 Hprefix.
  set (argv1 := [password; String s1]).
  set (argv2 := [password; String s2]).
  assert (Hsb : firstn 29 (saltbuf_of argv1) = firstn 29 (saltbuf_of argv2)).
  { unfold saltbuf_of, argv1, argv2; cbn [arg nth].
    rewrite !saltbuf_prefix by (assumption || lia).
    apply firstn_terminated, Hprefix. }
  assert (Hchar : forall i, (i < 29)%nat ->
            char_at (saltbuf_of argv1) i = char_at (saltbuf_of argv2) i).
  { intros i Hi.
    rewrite <- (char_at_firstn (saltbuf_of argv1) 29 i Hi), Hsb.
    apply char_at_firstn, Hi. }
  assert (Hskip : firstn 22 (skipn 7 (saltbuf_of argv1)) =
                  firstn 22 (skipn 7 (saltbuf_of argv2))).
  { rewrite !firstn_skipn_comm.
    change (7 + 22)%nat with 29%nat; rewrite Hsb; reflexivity. }
  assert (Hfield : rounds_field (saltbuf_of argv1) =
                   rounds_field (saltbuf_of argv2))
    by (unfold rounds_field; rewrite !Hchar by lia; reflexivity).
  assert (Hminor : minor_of argv1 = minor_of argv2)
    by (unfold minor_of; rewrite Hchar by lia; reflexivity).
  apply bcrypt_congruence; try assumption; try reflexivity.
  - unfold header_ok, rounds_field_ok, minor_of.
    rewrite Hfield, !(Hchar 0%nat), !(Hchar 1%nat), !(Hchar 2%nat),
      !(Hchar 3%nat), !(Hchar 4%nat), !(Hchar 5%nat), !(Hchar 6%nat) by lia.
    assert (Hgot : forall s, forallb latin1 s = true ->
              (fst (enif_get_string (String s) 1024) =? 0) = false).
    { intros s Hs; apply Z.eqb_neq, enif_get_string_latin1, Hs. }
    unfold argv1, argv2; cbn [List.length arg nth].
    rewrite !Hgot by assumption.
    fold argv1 argv2.
    assert (Hlen : forall s,
              (strlen s * 3 / 4 <? Z.of_nat BCRYPT_MAXSALT)
              = (Z.min (strlen s) 22 <? 22)).
    { intros s; change (Z.of_nat BCRYPT_MAXSALT) with 16.
      generalize (strlen_nonneg s); intros Hs.
      destruct (Z.ltb_spec (Z.min (strlen s) 22) 22) as [Hlt | Hge].
      - apply Z.ltb_lt, Z.div_lt_upper_bound; lia.
      - apply Z.ltb_ge, Z.div_le_lower_bound; lia. }
    rewrite !Hlen.
    change 22 with (Z.of_nat 22).
    rewrite <- (strlen_firstn 22 (skipn 7 (saltbuf_of argv1))), Hskip,
      strlen_firstn.
    reflexivity.
  - apply decode_base64_prefix; intros i Hi.
    change (encoded_length 16) with 22%nat in Hi.
    rewrite !char_at_skipn; apply Hchar; lia.
Qed.

End IdentifierTail.

Lemma bcrypt_reads_29_characters_witness :
  (forallb latin1 (chars "$2b$04$......................") = true
   /\ forallb latin1 (chars "$2b$04$......................digest!") = true
   /\ firstn 29 (chars "$2b$04$......................") =
      firstn 29 (chars "$2b$04$......................digest!"))
  /\ @bcrypt Toy.blowfish (Toy.host 300 true)
       [Run.password; String (chars "$2b$04$......................")] boot =
     @bcrypt Toy.blowfish (Toy.host 300 true)
       [Run.password; String (chars "$2b$04$......................digest!")]
       boot.
Proof.
  assert (H1 : forallb latin1 (chars "$2b$04$......................") = true)
    by reflexivity.
  assert (H2 : forallb latin1 (chars "$2b$04$......................digest!")
               = true) by reflexivity.
  assert (H3 : firstn 29 (chars "$2b$04$......................") =
               firstn 29 (chars "$2b$04$......................digest!"))
    by reflexivity.
  split; [exact (conj H1 (conj H2 H3)) |].
  exact (@bcrypt_reads_29_characters Toy.blowfish (Toy.host 300 true)
           Run.password _ _ boot H1 H2 H3).
Defined.
